(** * libsignal-node: a shallow embedding of the session cipher, the session
    record and the HKDF helpers, with the properties of the specification.

    Conventions of the embedding.
    - A [Buffer] is a list of bytes.  JS numbers that hold counters and
      timestamps are integers ([Z]).
    - A JS object used as a dictionary is a [gmap]; [chain.messageKeys] is
      keyed by the counter, [session._chains] by the key bytes (the source
      keys it by the base64 text of those bytes, an injective rendering).
      What a plain property read finds in [Object.prototype] is told apart
      from the entries of the dictionary ([SessionEntry.getChain],
      [SessionRecordBatch.getSession]).
      [record.sessions] is an association list, because the source iterates
      over it in insertion order.
    - JS mutates objects in place, so a method that throws half way leaves its
      earlier writes behind.  Methods are therefore computations
      [S -> result A * S] that return the state also when they fail.
    - [Date.now()] is an argument [now] of the operation that reads it.
    - HMAC-SHA256, AES-256-CBC, X25519 and the protobuf codec are external
      collaborators; they are the fields of the classes [Primitives] and
      [Protobufs].  The storage is a collaborator too: a [Storage] holds
      what its calls settle to while one job runs, a rejected promise of
      [loadSession] or [storeSession] included. *)

From Stdlib Require Import ZArith List Strings.Byte Strings.Ascii Strings.String Lia Sorted.
From stdpp Require Import base option gmap strings list pretty.
From Equations Require Import Equations.
Import ListNotations.
Open Scope Z_scope.

(** ** Buffers *)

Abbreviation bytes := (list byte).

#[global] Instance byte_eq_dec : EqDecision byte := Byte.byte_eq_dec.

Definition byte_of_N_total (n : N) : byte :=
  match Byte.of_N n with Some b => b | None => x00 end.

Lemma byte_of_to_N (b : byte) : byte_of_N_total (Byte.to_N b) = b.
Proof. unfold byte_of_N_total. rewrite Byte.of_to_N. reflexivity. Qed.

#[global] Instance byte_countable : Countable byte :=
  inj_countable' Byte.to_N byte_of_N_total byte_of_to_N.

(** Storing a number into a [Uint8Array] slot keeps its low eight bits. *)
Definition byte_of_Z (z : Z) : byte := byte_of_N_total (Z.to_N (z mod 256)).

Definition Z_of_byte (b : byte) : Z := Z.of_N (Byte.to_N b).

(** [Buffer.alloc(n)] *)
Definition Buffer_alloc (n : nat) : bytes := repeat x00 n.

(** [Buffer.from(str)] for the ASCII literals of the source. *)
Definition Buffer_from_string (s : string) : bytes :=
  map (fun c => byte_of_N_total (N_of_ascii c)) (list_ascii_of_string s).

(** [buf.slice(start)] and [buf.slice(start, -k)] *)
Definition slice_from (start : nat) (b : bytes) : bytes := drop start b.
Definition slice_last (k : nat) (b : bytes) : bytes := drop (length b - k) b.
Definition slice_1_to_minus (k : nat) (b : bytes) : bytes :=
  take (length b - k - 1) (drop 1 b).

(** ** Errors *)

(** What a [throw] carries.  [errors.js] is not among the sources: its
    classes [SessionError], [UntrustedIdentityKeyError] and
    [MessageCounterError] are held by name, with the arguments that the
    [throw] statements of session_cipher.js pass.  The remaining constructors
    are the built-in JS errors the sources throw ([JsError] is [Error]), and
    [ExternalError] is an exception raised inside a collaborator (node's
    crypto, protobufjs, the curve binding). *)
Inductive error : Type :=
| SessionError (msg : string)
| UntrustedIdentityKeyError (id : string) (identityKey : bytes)
| MessageCounterError (msg : string)
| JsError (msg : string)
| TypeError (msg : string)
| RangeError (msg : string)
| ReferenceError (msg : string)
| AssertionError
| ExternalError (origin : string).

Inductive result (A : Type) : Type :=
| Ok (a : A)
| Err (e : error).
Arguments Ok {A} a.
Arguments Err {A} e.

Definition is_Ok {A} (r : result A) : bool :=
  match r with Ok _ => true | Err _ => false end.

(** ** Computations over a mutable object *)

Definition M (S A : Type) : Type := S -> result A * S.

Definition ret {S A} (a : A) : M S A := fun s => (Ok a, s).
Definition throw {S A} (e : error) : M S A := fun s => (Err e, s).
Definition bind {S A B} (m : M S A) (k : A -> M S B) : M S B :=
  fun s => match m s with
           | (Ok a, s') => k a s'
           | (Err e, s') => (Err e, s')
           end.
Definition get {S} : M S S := fun s => (Ok s, s).
Definition gets {S A} (f : S -> A) : M S A := fun s => (Ok (f s), s).
Definition modify {S} (f : S -> S) : M S unit := fun s => (Ok tt, f s).
Definition lift_result {S A} (r : result A) : M S A := fun s => (r, s).

Declare Scope js_scope.
Delimit Scope js_scope with js.
Notation "'let*' x ':=' m 'in' k" := (bind m (fun x => k))
  (at level 10, x pattern, m at level 100, k at level 200) : js_scope.
Notation "m ';;' k" := (bind m (fun _ => k))
  (at level 100, k at level 200, right associativity) : js_scope.
Open Scope js_scope.

(** [typedArray.set(src, offset)]: overwrites, throws [RangeError] when the
    source does not fit. *)
Definition buffer_set (buf src : bytes) (offset : nat) : result bytes :=
  if (offset + length src <=? length buf)%nat
  then Ok (take offset buf ++ src ++ drop (offset + length src) buf)
  else Err (RangeError "offset is out of bounds").

(** [typedArray[i] = v]: ignored out of range. *)
Definition buffer_put (buf : bytes) (i : nat) (v : Z) : bytes :=
  <[i := byte_of_Z v]> buf.

(** ** External collaborators *)

Record KeyPair := { pubKey : bytes; privKey : bytes }.

(** node's [crypto] module and the curve binding. *)
Class Primitives := {
  (** [createHmac('sha256', key).update(data).digest()] *)
  hmac_sha256 : bytes -> bytes -> bytes;
  hmac_sha256_length : forall k d, length (hmac_sha256 k d) = 32%nat;
  (** [createCipheriv('aes-256-cbc', key, iv)], [update] and [final];
      [None] when node throws (bad key or IV length). *)
  aes_256_cbc_encrypt : bytes -> bytes -> bytes -> option bytes;
  (** [createDecipheriv]; [None] when node throws (lengths, padding). *)
  aes_256_cbc_decrypt : bytes -> bytes -> bytes -> option bytes;
  (** [curve.calculateAgreement(pubKey, privKey)]; [None] when it throws. *)
  calculateAgreement : bytes -> bytes -> option bytes
}.

(** [buf.toString('base64')] and [Buffer.from(text, 'base64')] of node:
    decoding gives back the bytes that were encoded, and the empty buffer
    and no other is written as the empty text. *)
Class Base64 := {
  toString_base64 : bytes -> string;
  Buffer_from_base64 : string -> bytes;
  base64_round_trip : forall b, Buffer_from_base64 (toString_base64 b) = b;
  base64_empty : forall b, toString_base64 b = EmptyString <-> b = []
}.

(** ** crypto.js *)

Module Crypto.
Section WithPrimitives.
Context `{Primitives}.

(** [createHmac] and [digest] do not throw on buffers, so the first of the
    three attempts of the retry loop returns. *)
Definition calculateMAC (key data : bytes) : bytes := hmac_sha256 key data.

Definition encrypt (key data iv : bytes) : result bytes :=
  match aes_256_cbc_encrypt key data iv with
  | Some c => Ok c
  | None => Err (ExternalError "createCipheriv")
  end.

Definition decrypt (key data iv : bytes) : result bytes :=
  match aes_256_cbc_decrypt key data iv with
  | Some p => Ok p
  | None => Err (ExternalError "createDecipheriv")
  end.

(** [chunks] is [None] when the caller omits the argument. *)
Definition deriveSecrets (input salt info : bytes) (chunks : option Z)
  : result (list bytes) :=
  if negb (length salt =? 32)%nat
  then Err (JsError "Got salt of incorrect length")
  else
    (* chunks = chunks || 3 *)
    let chunks := match chunks with
                  | None => 3
                  | Some c => if c =? 0 then 3 else c
                  end in
    if negb ((chunks >=? 1) && (chunks <=? 3)) then Err AssertionError
    else
      let PRK := calculateMAC salt input in
      let infoArray := Buffer_alloc (length info + 1 + 32) in
      match buffer_set infoArray info 32 with
      | Err e => Err e
      | Ok infoArray =>
        let infoArray := buffer_put infoArray (length infoArray - 1) 1 in
        let signed := [calculateMAC PRK (slice_from 32 infoArray)] in
        let step2 :=
          if chunks >? 1 then
            match buffer_set infoArray (List.last signed []) 0 with
            | Err e => Err e
            | Ok infoArray =>
              let infoArray := buffer_put infoArray (length infoArray - 1) 2 in
              Ok (infoArray, signed ++ [calculateMAC PRK infoArray])
            end
          else Ok (infoArray, signed) in
        match step2 with
        | Err e => Err e
        | Ok (infoArray, signed) =>
          if chunks >? 2 then
            match buffer_set infoArray (List.last signed []) 0 with
            | Err e => Err e
            | Ok infoArray =>
              let infoArray := buffer_put infoArray (length infoArray - 1) 3 in
              Ok (signed ++ [calculateMAC PRK infoArray])
            end
          else Ok signed
        end
      end.

(** The error of a MAC that does not match. *)
Definition mac_failure : error := JsError "Falha na verificação do MAC".

Definition verifyMAC (data key mac : bytes) (len : nat) : result unit :=
  if negb (length mac =? len)%nat
  then Err (JsError ("Comprimento esperado do MAC: " +:+ pretty len +:+
                     ", recebido: " +:+ pretty (length mac)))
  else
    let calculatedMac := take len (calculateMAC key data) in
    (* timingSafeEqual throws on operands of different lengths *)
    if negb (length calculatedMac =? length mac)%nat
    then Err (RangeError "Input buffers must have the same byte length")
    else if negb (bool_decide (calculatedMac = mac))
    then Err mac_failure
    else Ok tt.

End WithPrimitives.
End Crypto.

(** ** constants/protocol_constants.js *)

Module CONSTANTS.
Definition VERSION : Z := 3.
Module KEY_SIZES.
Definition PRIVATE_KEY : nat := 32.
Definition PUBLIC_KEY : nat := 33.
Definition MAC : nat := 32.
Definition IV : nat := 16.
Definition SALT : nat := 32.
End KEY_SIZES.
Module MESSAGE_KEYS.
Definition DERIVE_INFO : string := "WhisperMessageKeys".
Definition HKDF_CHUNKS : Z := 3.
Definition MAX_HKDF_CHUNKS : Z := 3.
End MESSAGE_KEYS.
Module SESSION.
Definition MAX_OLD_SESSIONS : Z := 40.
Definition MAX_MESSAGE_KEYS : Z := 2000.
End SESSION.
End CONSTANTS.

(** ** utils/validation_utils.js *)

Module ValidationUtils.

(** The message of the [TypeError] that [assertBufferLength] throws. *)
Definition length_message (paramName : string) (expectedLength got : nat)
  : string :=
  paramName +:+ " must be " +:+ pretty expectedLength +:+ " bytes, got: "
    +:+ pretty got.

(** [assertBuffer] checks the type, which the embedding fixes statically. *)
Definition assertBufferLength (buffer : bytes) (expectedLength : nat)
  (paramName : string) : result unit :=
  if negb (length buffer =? expectedLength)%nat
  then Err (TypeError (length_message paramName expectedLength (length buffer)))
  else Ok tt.

End ValidationUtils.

(** ** crypto/crypto_engine.js *)

Module CryptoEngine.

(** [buf.toString('hex')] *)
Definition hex_digit (n : N) : ascii :=
  match n with
  | 0 => "0" | 1 => "1" | 2 => "2" | 3 => "3" | 4 => "4" | 5 => "5"
  | 6 => "6" | 7 => "7" | 8 => "8" | 9 => "9" | 10 => "a" | 11 => "b"
  | 12 => "c" | 13 => "d" | 14 => "e" | _ => "f"
  end%N%char.

Fixpoint toString_hex (b : bytes) : string :=
  match b with
  | [] => EmptyString
  | x :: b' =>
    String (hex_digit (Byte.to_N x / 16))
      (String (hex_digit (Byte.to_N x mod 16)) (toString_hex b'))
  end.

(** A parameter of [_generateCacheKey]: a buffer or a number. *)
Inductive param : Type :=
| PBuffer (b : bytes)
| PNumber (n : Z).

Definition render (p : param) : string :=
  match p with
  | PBuffer b => toString_hex b
  | PNumber n => pretty n
  end.

Fixpoint join (sep : string) (l : list string) : string :=
  match l with
  | [] => EmptyString
  | [x] => x
  | x :: l' => x +:+ sep +:+ join sep l'
  end.

Definition _generateCacheKey (operation : string) (params : list param)
  : string :=
  operation +:+ ":" +:+ join "|" (map render params).

(** What the memoization map holds: a digest or an array of digests. *)
Inductive memo : Type :=
| MemoBuffer (b : bytes)
| MemoArray (l : list bytes).

Record Engine := {
  _memoCache : gmap string memo;
  _maxCacheSize : nat
}.

Definition new_Engine : Engine := {| _memoCache := ∅; _maxCacheSize := 100 |}.

Definition memo_set (k : string) (v : memo) : M Engine unit :=
  modify (fun e => {| _memoCache := <[k := v]> (_memoCache e);
                      _maxCacheSize := _maxCacheSize e |}).

Section WithPrimitives.
Context `{Primitives}.

Definition calculateMAC (key data : bytes) : M Engine bytes :=
  let canMemoize :=
    (length key =? CONSTANTS.KEY_SIZES.MAC)%nat && (length data <? 1024)%nat in
  let cacheKey := _generateCacheKey "mac" [PBuffer key; PBuffer data] in
  let* e := get in
  match (if canMemoize then _memoCache e !! cacheKey else None) with
  | Some (MemoBuffer m) => ret m
  | Some (MemoArray _) =>
    (* no array is ever stored under a "mac:" key, see [cache_ok] *)
    throw (TypeError "memoized value is not a buffer")
  | None =>
    let result := hmac_sha256 key data in
    (if canMemoize then memo_set cacheKey (MemoBuffer result) else ret tt);;
    ret result
  end.

(** The [for (let i = 2; i <= chunks; i++)] loop of the expand phase. *)
Equations? expand_loop (PRK : bytes) (chunks i : Z) (infoArray : bytes)
  (signed : list bytes) : M Engine (list bytes)
  by wf (Z.to_nat (chunks + 1 - i)) lt :=
  expand_loop PRK chunks i infoArray signed with Z_le_dec i chunks := {
    | right _ => ret signed
    | left _ =>
      let* infoArray := lift_result (buffer_set infoArray (List.last signed []) 0) in
      let infoArray := buffer_put infoArray (length infoArray - 1) i in
      let* t := calculateMAC PRK infoArray in
      expand_loop PRK chunks (i + 1) infoArray (signed ++ [t]) }.
Proof. lia. Qed.

Definition deriveSecrets (input salt info : bytes) (chunks : option Z)
  : M Engine (list bytes) :=
  let chunks := match chunks with
                | None => CONSTANTS.MESSAGE_KEYS.HKDF_CHUNKS
                | Some c => c
                end in
  lift_result
    (ValidationUtils.assertBufferLength salt CONSTANTS.KEY_SIZES.SALT "salt");;
  if (chunks <? 1) || (chunks >? CONSTANTS.MESSAGE_KEYS.MAX_HKDF_CHUNKS)
  then throw (JsError "chunks must be between 1 and 3")
  else
    let cacheKey :=
      _generateCacheKey "derive"
        [PBuffer input; PBuffer salt; PBuffer info; PNumber chunks] in
    let* e := get in
    match _memoCache e !! cacheKey with
    | Some (MemoArray l) => ret l
    | Some (MemoBuffer _) =>
      (* no buffer is ever stored under a "derive:" key, see [cache_ok] *)
      throw (TypeError "memoized value is not an array")
    | None =>
      let* PRK := calculateMAC salt input in
      let infoArray :=
        Buffer_alloc (length info + 1 + CONSTANTS.KEY_SIZES.MAC) in
      let* infoArray :=
        lift_result (buffer_set infoArray info CONSTANTS.KEY_SIZES.MAC) in
      let infoArray := buffer_put infoArray (length infoArray - 1) 1 in
      let* t1 :=
        calculateMAC PRK (slice_from CONSTANTS.KEY_SIZES.MAC infoArray) in
      let* signed := expand_loop PRK chunks 2 infoArray [t1] in
      let* e := get in
      (if (size (_memoCache e) <? _maxCacheSize e)%nat
       then memo_set cacheKey (MemoArray signed) else ret tt);;
      ret signed
    end.

Definition encrypt (key data iv : bytes) : M Engine bytes :=
  lift_result
    (ValidationUtils.assertBufferLength key CONSTANTS.KEY_SIZES.PRIVATE_KEY
       "key");;
  lift_result
    (ValidationUtils.assertBufferLength iv CONSTANTS.KEY_SIZES.IV "iv");;
  lift_result (Crypto.encrypt key data iv).

Definition decrypt (key data iv : bytes) : M Engine bytes :=
  lift_result
    (ValidationUtils.assertBufferLength key CONSTANTS.KEY_SIZES.PRIVATE_KEY
       "key");;
  lift_result
    (ValidationUtils.assertBufferLength iv CONSTANTS.KEY_SIZES.IV "iv");;
  lift_result (Crypto.decrypt key data iv).

(** The error of the engine's [verifyMAC] on a MAC that does not match. *)
Definition mac_failure : error := JsError "MAC verification failed".

Definition verifyMAC (data key mac : bytes) (len : nat) : M Engine unit :=
  if negb (length mac =? len)%nat
  then throw (JsError ("Expected MAC length: " +:+ pretty len +:+
                       ", received: " +:+ pretty (length mac)))
  else
    let* digest := calculateMAC key data in
    let calculatedMac := take len digest in
    (* timingSafeEqual throws on operands of different lengths *)
    if negb (length calculatedMac =? length mac)%nat
    then throw (RangeError "Input buffers must have the same byte length")
    else if negb (bool_decide (calculatedMac = mac))
    then throw mac_failure
    else ret tt.

Definition clearCache : M Engine unit :=
  modify (fun e => {| _memoCache := ∅; _maxCacheSize := _maxCacheSize e |}).

(** [{ size, maxSize }] *)
Definition getCacheStats : M Engine (nat * nat) :=
  gets (fun e => (size (_memoCache e), _maxCacheSize e)).

End WithPrimitives.
End CryptoEngine.

(** ** The curve25519 wrapper (in the sources after crypto_engine.js) *)

Module Curve.

(** The native module [signal_crypto]. *)
Class Native := {
  (** [curve25519_donna(secret, basepoint)] *)
  curve25519_donna : bytes -> bytes -> bytes
}.

(** [new Uint8Array(32)] with [basepoint[0] = 9] *)
Definition basepoint : bytes := <[0%nat := x09]> (Buffer_alloc 32).

(** [x & mask] and [x | mask] stored into a [Uint8Array] slot. *)
Definition and_byte (mask : Z) (x : byte) : byte :=
  byte_of_Z (Z.land (Z_of_byte x) mask).
Definition or_byte (mask : Z) (x : byte) : byte :=
  byte_of_Z (Z.lor (Z_of_byte x) mask).

(** [priv[0] &= 248; priv[31] &= 127; priv[31] |= 64] on a copy of the key;
    a compound assignment to a slot that the array does not have changes
    nothing. *)
Definition clamp (privKey : bytes) : bytes :=
  alter (or_byte 64) 31%nat
    (alter (and_byte 127) 31%nat (alter (and_byte 248) 0%nat privKey)).

Section WithNative.
Context `{Native}.

Definition keyPair (privKey : bytes) : KeyPair :=
  let priv := clamp privKey in
  {| pubKey := curve25519_donna priv basepoint; privKey := priv |}.

(** [random] is what [nodeCrypto.randomBytes(32)] returns; [privKey] is
    [None] when the argument is missing. *)
Definition generateKeyPair (random : bytes) (privKey : option bytes) : KeyPair :=
  match privKey with
  | Some k => keyPair k
  | None => keyPair random
  end.

Definition sharedSecret (pubKey privKey : bytes) : bytes :=
  curve25519_donna (clamp privKey) pubKey.

End WithNative.

End Curve.

(** ** The wire records and the protobuf codec *)

Module WhisperMessage.
Record t := {
  ephemeralKey : bytes;
  counter : Z;
  previousCounter : Z;
  ciphertext : bytes
}.
End WhisperMessage.

Module PreKeyWhisperMessage.
Record t := {
  identityKey : bytes;
  registrationId : Z;
  baseKey : bytes;
  signedPreKeyId : Z;
  preKeyId : option Z;
  message : bytes
}.
End PreKeyWhisperMessage.

(** [protobufs.js] is not among the sources; the codec is a collaborator.
    [WhisperMessage_decode] is [None] when protobufjs throws. *)
Class Protobufs := {
  WhisperMessage_encode : WhisperMessage.t -> bytes;
  WhisperMessage_decode : bytes -> option WhisperMessage.t;
  PreKeyWhisperMessage_encode : PreKeyWhisperMessage.t -> bytes
}.

(** ** The ratchet state (session_record.js, [SessionEntry]) *)

(** [chain_type.js] and [base_key_type.js] *)
Inductive ChainType := SENDING | RECEIVING.
Inductive BaseKeyType := OURS | THEIRS.

#[global] Instance ChainType_eq_dec : EqDecision ChainType.
Proof. solve_decision. Defined.

Module ChainKey.
Record t := {
  counter : Z;
  key : option bytes        (* [None]: deleted, the chain is closed *)
}.
End ChainKey.

Module Chain.
Record t := {
  chainKey : ChainKey.t;
  chainType : ChainType;
  messageKeys : gmap Z bytes
}.
Definition set_chainKey (f : ChainKey.t -> ChainKey.t) (c : t) : t :=
  {| chainKey := f (chainKey c); chainType := chainType c;
     messageKeys := messageKeys c |}.
Definition set_messageKeys (f : gmap Z bytes -> gmap Z bytes) (c : t) : t :=
  {| chainKey := chainKey c; chainType := chainType c;
     messageKeys := f (messageKeys c) |}.
End Chain.

Module Ratchet.
Record t := {
  ephemeralKeyPair : KeyPair;
  lastRemoteEphemeralKey : bytes;
  previousCounter : Z;
  rootKey : bytes
}.
End Ratchet.

Module IndexInfo.
Record t := {
  baseKey : bytes;
  baseKeyType : BaseKeyType;
  closed : Z;               (* -1: open; otherwise the closing time *)
  used : Z;
  created : Z;
  remoteIdentityKey : bytes
}.
Definition set_used (v : Z) (i : t) : t :=
  {| baseKey := baseKey i; baseKeyType := baseKeyType i; closed := closed i;
     used := v; created := created i;
     remoteIdentityKey := remoteIdentityKey i |}.
Definition set_closed (v : Z) (i : t) : t :=
  {| baseKey := baseKey i; baseKeyType := baseKeyType i; closed := v;
     used := used i; created := created i;
     remoteIdentityKey := remoteIdentityKey i |}.
End IndexInfo.

Module PendingPreKey.
Record t := {
  baseKey : bytes;
  signedKeyId : Z;
  preKeyId : option Z
}.
End PendingPreKey.

Module SessionEntry.
(** [_serializedCache] is left out: [_invalidateCache] resets it and only
    [serialize] reads it. [registrationId] is [None] when the field is not a
    number. *)
Record t := {
  _chains : gmap bytes Chain.t;
  registrationId : option Z;
  currentRatchet : Ratchet.t;
  indexInfo : IndexInfo.t;
  pendingPreKey : option PendingPreKey.t;
  _lastAccessed : Z;
  _chainCount : Z;
  _serializationVersion : Z
}.

Definition set_chains (f : gmap bytes Chain.t -> gmap bytes Chain.t) (s : t) : t :=
  {| _chains := f (_chains s); registrationId := registrationId s;
     currentRatchet := currentRatchet s; indexInfo := indexInfo s;
     pendingPreKey := pendingPreKey s; _lastAccessed := _lastAccessed s;
     _chainCount := _chainCount s;
     _serializationVersion := _serializationVersion s |}.
Definition set_currentRatchet (f : Ratchet.t -> Ratchet.t) (s : t) : t :=
  {| _chains := _chains s; registrationId := registrationId s;
     currentRatchet := f (currentRatchet s); indexInfo := indexInfo s;
     pendingPreKey := pendingPreKey s; _lastAccessed := _lastAccessed s;
     _chainCount := _chainCount s;
     _serializationVersion := _serializationVersion s |}.
Definition set_indexInfo (f : IndexInfo.t -> IndexInfo.t) (s : t) : t :=
  {| _chains := _chains s; registrationId := registrationId s;
     currentRatchet := currentRatchet s; indexInfo := f (indexInfo s);
     pendingPreKey := pendingPreKey s; _lastAccessed := _lastAccessed s;
     _chainCount := _chainCount s;
     _serializationVersion := _serializationVersion s |}.
Definition set_pendingPreKey (v : option PendingPreKey.t) (s : t) : t :=
  {| _chains := _chains s; registrationId := registrationId s;
     currentRatchet := currentRatchet s; indexInfo := indexInfo s;
     pendingPreKey := v; _lastAccessed := _lastAccessed s;
     _chainCount := _chainCount s;
     _serializationVersion := _serializationVersion s |}.
Definition set_lastAccessed (v : Z) (s : t) : t :=
  {| _chains := _chains s; registrationId := registrationId s;
     currentRatchet := currentRatchet s; indexInfo := indexInfo s;
     pendingPreKey := pendingPreKey s; _lastAccessed := v;
     _chainCount := _chainCount s;
     _serializationVersion := _serializationVersion s |}.
Definition set_chainCount (f : Z -> Z) (s : t) : t :=
  {| _chains := _chains s; registrationId := registrationId s;
     currentRatchet := currentRatchet s; indexInfo := indexInfo s;
     pendingPreKey := pendingPreKey s; _lastAccessed := _lastAccessed s;
     _chainCount := f (_chainCount s);
     _serializationVersion := _serializationVersion s |}.

Definition _invalidateCache : M t unit :=
  modify (fun s =>
    {| _chains := _chains s; registrationId := registrationId s;
       currentRatchet := currentRatchet s; indexInfo := indexInfo s;
       pendingPreKey := pendingPreKey s; _lastAccessed := _lastAccessed s;
       _chainCount := _chainCount s;
       _serializationVersion := _serializationVersion s + 1 |}).

Definition addChain (now : Z) (key : bytes) (value : Chain.t) : M t unit :=
  let* s := get in
  match _chains s !! key with
  | Some _ => throw (JsError "Overwrite attempt")
  | None =>
    modify (set_chains (insert key value));;
    modify (set_chainCount (fun n => n + 1));;
    modify (set_lastAccessed now);;
    _invalidateCache
  end.

(** [this._chains[id]] is a property read, and a property read also finds
    what the object inherits: for an id that is not filed and names a member
    of [Object.prototype] the member comes back, a function and so truthy.
    The ids are base64 texts, and of the names of [Object.prototype] two are
    base64 texts: "toString", of the six bytes below, and
    "propertyIsEnumerable", of the fifteen.  ([addChain] and [deleteChain]
    ask [hasOwnProperty] and see the filed chains only.) *)
Definition Object_prototype_ids : list bytes :=
  [ [xb6; x84; xad; xae; x29; xe0];
    [xa6; xba; x29; x7a; xbb; x72; x22; xc1; x27; xba; x67; xab; x69; xb9;
     x5e] ].

(** What [getChain] returns. *)
Inductive property : Type :=
| Undefined
| Inherited                        (* a member of [Object.prototype] *)
| Own (chain : Chain.t).

Definition getChain (now : Z) (key : bytes) : M t property :=
  modify (set_lastAccessed now);;
  gets (fun s =>
    match _chains s !! key with
    | Some chain => Own chain
    | None =>
      if bool_decide (key ∈ Object_prototype_ids) then Inherited
      else Undefined
    end).

Definition deleteChain (now : Z) (key : bytes) : M t unit :=
  let* s := get in
  match _chains s !! key with
  | None => throw (ReferenceError "Not Found")
  | Some _ =>
    modify (set_chains (delete key));;
    modify (set_chainCount (fun n => n - 1));;
    modify (set_lastAccessed now);;
    _invalidateCache
  end.

(** Run a computation on the chain object filed under [key]; the object is
    mutated in place, so its writes stay also when the computation throws.
    Dereferencing a missing chain is a [TypeError]. *)
Definition onChain {A} (key : bytes) (m : M Chain.t A) : M t A :=
  fun s =>
    match _chains s !! key with
    | None => (Err (TypeError "Cannot read properties of undefined"), s)
    | Some c =>
      let (r, c') := m c in (r, set_chains (insert key c') s)
    end.

End SessionEntry.

(** ** session_record.js, [SessionRecord] *)

Module SessionRecord.

Definition CLOSED_SESSIONS_MAX : Z := 40.
Definition SESSION_RECORD_VERSION : string := "v1".

(** A session object is shared between [sessions] and the two caches.  Every
    method that deletes or replaces an entry of [sessions] calls
    [_invalidateCaches], so a cached reference always denotes an entry of
    [sessions]: the embedding holds the entry's key as the reference. *)
Inductive openCache : Type :=
| CacheNull
| CacheFalse
| CacheSession (ref : string).

Record metrics := {
  operationsCount : Z;
  cacheHits : Z;
  cacheMisses : Z;
  batchOperations : Z
}.

(** [sessions] in the order of [Object.entries]: the keys are base64 texts of
    33-byte keys, never array indices, so this is the insertion order.  The
    batch queue ([_batchOperations], [_batchSize]) is only written by
    [setSession], [closeSession] and [openSession] and is left out. *)
Record t := {
  sessions : list (string * SessionEntry.t);
  version : string;
  _openSessionCache : openCache;
  _sortedSessionsCache : option (list string);
  _lastCleanup : Z;
  _cleanupInterval : Z;
  _performanceMetrics : metrics
}.

Definition set_sessions (f : list (string * SessionEntry.t) ->
                             list (string * SessionEntry.t)) (r : t) : t :=
  {| sessions := f (sessions r); version := version r;
     _openSessionCache := _openSessionCache r;
     _sortedSessionsCache := _sortedSessionsCache r;
     _lastCleanup := _lastCleanup r; _cleanupInterval := _cleanupInterval r;
     _performanceMetrics := _performanceMetrics r |}.
Definition set_openSessionCache (c : openCache) (r : t) : t :=
  {| sessions := sessions r; version := version r;
     _openSessionCache := c;
     _sortedSessionsCache := _sortedSessionsCache r;
     _lastCleanup := _lastCleanup r; _cleanupInterval := _cleanupInterval r;
     _performanceMetrics := _performanceMetrics r |}.
Definition set_sortedSessionsCache (c : option (list string)) (r : t) : t :=
  {| sessions := sessions r; version := version r;
     _openSessionCache := _openSessionCache r;
     _sortedSessionsCache := c;
     _lastCleanup := _lastCleanup r; _cleanupInterval := _cleanupInterval r;
     _performanceMetrics := _performanceMetrics r |}.
Definition set_lastCleanup (v : Z) (r : t) : t :=
  {| sessions := sessions r; version := version r;
     _openSessionCache := _openSessionCache r;
     _sortedSessionsCache := _sortedSessionsCache r;
     _lastCleanup := v; _cleanupInterval := _cleanupInterval r;
     _performanceMetrics := _performanceMetrics r |}.
Definition set_performanceMetrics (f : metrics -> metrics) (r : t) : t :=
  {| sessions := sessions r; version := version r;
     _openSessionCache := _openSessionCache r;
     _sortedSessionsCache := _sortedSessionsCache r;
     _lastCleanup := _lastCleanup r; _cleanupInterval := _cleanupInterval r;
     _performanceMetrics := f (_performanceMetrics r) |}.

(** [new SessionRecord()] at time [now] *)
Definition new_SessionRecord (now : Z) : t :=
  {| sessions := []; version := SESSION_RECORD_VERSION;
     _openSessionCache := CacheNull; _sortedSessionsCache := None;
     _lastCleanup := now; _cleanupInterval := 5 * 60 * 1000;
     _performanceMetrics :=
       {| operationsCount := 0; cacheHits := 0; cacheMisses := 0;
          batchOperations := 0 |} |}.

(** [this.sessions[key]] and [delete this.sessions[key]] *)
Fixpoint lookup_session (key : string) (l : list (string * SessionEntry.t))
  : option SessionEntry.t :=
  match l with
  | [] => None
  | (k, s) :: l' => if String.eqb k key then Some s else lookup_session key l'
  end.

Fixpoint delete_session (key : string) (l : list (string * SessionEntry.t))
  : list (string * SessionEntry.t) :=
  match l with
  | [] => []
  | (k, s) :: l' =>
    if String.eqb k key then l' else (k, s) :: delete_session key l'
  end.

(** In-place mutation of the session object filed under [key]. *)
Fixpoint update_session (key : string) (s' : SessionEntry.t)
  (l : list (string * SessionEntry.t)) : list (string * SessionEntry.t) :=
  match l with
  | [] => []
  | (k, s) :: l' =>
    if String.eqb k key then (k, s') :: l'
    else (k, s) :: update_session key s' l'
  end.

Definition isClosed (session : SessionEntry.t) : bool :=
  negb (IndexInfo.closed (SessionEntry.indexInfo session) =? -1).

Definition _invalidateCaches : M t unit :=
  modify (set_openSessionCache CacheNull);;
  modify (set_sortedSessionsCache None).

Definition cached_open_session (r : t) : option string :=
  match _openSessionCache r with
  | CacheSession ref =>
    match lookup_session ref (sessions r) with
    | Some s => if isClosed s then None else Some ref
    | None => None
    end
  | _ => None
  end.

(** Returns the reference of the open session, [None] for [null]. *)
Definition getOpenSession : M t (option string) :=
  let* r := get in
  match cached_open_session r with
  | Some ref => ret (Some ref)
  | None =>
    match find (fun p => negb (isClosed (snd p))) (sessions r) with
    | Some (key, _) =>
      modify (set_openSessionCache (CacheSession key));;
      ret (Some key)
    | None =>
      modify (set_openSessionCache CacheFalse);;
      ret None
    end
  end.

Definition bump (f : metrics -> metrics) : M t unit :=
  modify (set_performanceMetrics f).
Definition incr_operationsCount (m : metrics) : metrics :=
  {| operationsCount := operationsCount m + 1; cacheHits := cacheHits m;
     cacheMisses := cacheMisses m; batchOperations := batchOperations m |}.
Definition incr_cacheHits (m : metrics) : metrics :=
  {| operationsCount := operationsCount m; cacheHits := cacheHits m + 1;
     cacheMisses := cacheMisses m; batchOperations := batchOperations m |}.
Definition incr_cacheMisses (m : metrics) : metrics :=
  {| operationsCount := operationsCount m; cacheHits := cacheHits m;
     cacheMisses := cacheMisses m + 1; batchOperations := batchOperations m |}.

Definition haveOpenSession : M t bool :=
  bump incr_operationsCount;;
  let* r := get in
  match _openSessionCache r with
  | CacheSession _ => bump incr_cacheHits;; ret true
  | CacheFalse => bump incr_cacheHits;; ret false
  | CacheNull =>
    bump incr_cacheMisses;;
    let* openSession := getOpenSession in
    let* r := get in
    ret (match openSession with
         | None => false
         | Some ref =>
           match lookup_session ref (sessions r) with
           | Some s => bool_decide (is_Some (SessionEntry.registrationId s))
           | None => false
           end
         end)
  end.

(** [Array.prototype.sort] is stable; the comparator puts the larger [used]
    first. *)
Fixpoint insert_by_used (a : string * SessionEntry.t)
  (l : list (string * SessionEntry.t)) : list (string * SessionEntry.t) :=
  match l with
  | [] => [a]
  | b :: l' =>
    if IndexInfo.used (SessionEntry.indexInfo (snd b)) >?
       IndexInfo.used (SessionEntry.indexInfo (snd a))
    then b :: insert_by_used a l'
    else a :: b :: l'
  end.

Definition sort_by_used (l : list (string * SessionEntry.t))
  : list (string * SessionEntry.t) :=
  foldr insert_by_used [] l.

(** The array of session objects, as references. *)
Definition getSessions : M t (list string) :=
  bump incr_operationsCount;;
  let* r := get in
  match _sortedSessionsCache r with
  | Some sorted => bump incr_cacheHits;; ret sorted
  | None =>
    bump incr_cacheMisses;;
    let sorted := map fst (sort_by_used (sessions r)) in
    modify (set_sortedSessionsCache (Some sorted));;
    ret sorted
  end.

(** The inner [for] loop of [removeOldSessions]: the closed entry with the
    least [closed], the first one among equals; [None] stands for
    [oldestKey] undefined and [oldestTime] infinite. *)
Definition older (acc : option (string * SessionEntry.t))
  (e : string * SessionEntry.t) : option (string * SessionEntry.t) :=
  let c := IndexInfo.closed (SessionEntry.indexInfo (snd e)) in
  if negb (c =? -1) &&
     match acc with
     | None => true
     | Some o => c <? IndexInfo.closed (SessionEntry.indexInfo (snd o))
     end
  then Some e else acc.

Definition find_oldest (sessionEntries : list (string * SessionEntry.t))
  : option (string * SessionEntry.t) :=
  fold_left older sessionEntries None.

(** [if (oldestKey)]: an undefined or empty key is falsy. *)
Definition truthy_key (o : option (string * SessionEntry.t))
  : option (string * SessionEntry.t) :=
  match o with
  | Some (k, s) => if String.eqb k "" then None else Some (k, s)
  | None => None
  end.

(** The state of the [while] loop; [deleted] is a ghost field, the entries
    deleted so far, oldest deletion first (the source only counts them). *)
Record cleanup := {
  cl_sessions : list (string * SessionEntry.t);
  sessionEntries : list (string * SessionEntry.t);
  removedCount : Z;
  deleted : list (string * SessionEntry.t)
}.

Definition cleanup_step (st : cleanup) (oldest : string * SessionEntry.t)
  : cleanup :=
  {| cl_sessions := delete_session (fst oldest) (cl_sessions st);
     sessionEntries := delete_session (fst oldest) (sessionEntries st);
     removedCount := removedCount st + 1;
     deleted := deleted st ++ [oldest] |}.

(** One run of the loop body per unit of fuel.  The loop removes one element
    of [sessionEntries] per round, so [length sessionEntries] rounds are
    enough ([cleanup_loop_fuel]). *)
Fixpoint cleanup_loop (fuel : nat) (st : cleanup) : cleanup :=
  if Z.of_nat (length (sessionEntries st)) - removedCount st >? CLOSED_SESSIONS_MAX
  then
    match truthy_key (find_oldest (sessionEntries st)) with
    | Some oldest =>
      match fuel with
      | S fuel' => cleanup_loop fuel' (cleanup_step st oldest)
      | O => st
      end
    | None => st
    end
  else st.

Definition run_cleanup (l : list (string * SessionEntry.t)) : cleanup :=
  cleanup_loop (length l)
    {| cl_sessions := l; sessionEntries := l; removedCount := 0;
       deleted := [] |}.

Definition removeOldSessions (now : Z) : M t Z :=
  let* r := get in
  if now - _lastCleanup r <? _cleanupInterval r then ret 0
  else
    let st := run_cleanup (sessions r) in
    modify (set_sessions (fun _ => cl_sessions st));;
    (if removedCount st >? 0
     then _invalidateCaches;; modify (set_lastCleanup now)
     else ret tt);;
    ret (removedCount st).

(** Run a computation on the session object behind a reference. *)
Definition onSession {A} (ref : string) (m : M SessionEntry.t A) : M t A :=
  fun r =>
    match lookup_session ref (sessions r) with
    | None => (Err (TypeError "Cannot read properties of undefined"), r)
    | Some s =>
      let (a, s') := m s in (a, set_sessions (update_session ref s') r)
    end.

End SessionRecord.

(** ** session_record.js: filing, closing and opening sessions *)

Module SessionRecordBatch.
Import SessionRecord.

Inductive operation := OpSetSession | OpCloseSession | OpOpenSession.

(** An element of [_batchOperations]; the session object is held by the key
    under which it is filed. *)
Record queued := {
  q_operation : operation;
  q_session : string;
  q_timestamp : Z
}.

(** The record object together with the batch queue. *)
Record t := {
  base : SessionRecord.t;
  _batchOperations : list queued;
  _batchSize : Z
}.

(** [new SessionRecord()] at time [now] *)
Definition new_SessionRecord (now : Z) : t :=
  {| base := SessionRecord.new_SessionRecord now;
     _batchOperations := []; _batchSize := 10 |}.

Definition set_batchOperations (f : list queued -> list queued) (r : t) : t :=
  {| base := base r; _batchOperations := f (_batchOperations r);
     _batchSize := _batchSize r |}.

(** Run a method that does not touch the queue. *)
Definition onBase {A} (m : M SessionRecord.t A) : M t A :=
  fun r =>
    let (a, b) := m (base r) in
    (a, {| base := b; _batchOperations := _batchOperations r;
           _batchSize := _batchSize r |}).

Definition add_batchOperations (n : Z) (m : metrics) : metrics :=
  {| operationsCount := operationsCount m; cacheHits := cacheHits m;
     cacheMisses := cacheMisses m; batchOperations := batchOperations m + n |}.

(** [_processBatchGroup] has no effect: the grouping is left out. *)
Definition _processBatchOperations : M t unit :=
  let* r := get in
  if (length (_batchOperations r) =? 0)%nat then ret tt
  else
    onBase (bump (add_batchOperations
                    (Z.of_nat (length (_batchOperations r)))));;
    modify (set_batchOperations (fun _ => [])).

Definition _addToBatch (now : Z) (op : operation) (session : string)
  : M t unit :=
  modify (set_batchOperations (fun q =>
    q ++ [{| q_operation := op; q_session := session;
             q_timestamp := now |}]));;
  let* r := get in
  if Z.of_nat (length (_batchOperations r)) >=? _batchSize r
  then _processBatchOperations
  else ret tt.

(** [this.sessions[key] = session]: an entry that exists keeps its place, a
    new one goes to the end. *)
Fixpoint put_session (key : string) (session : SessionEntry.t)
  (l : list (string * SessionEntry.t)) : list (string * SessionEntry.t) :=
  match l with
  | [] => [(key, session)]
  | (k, s) :: l' =>
    if String.eqb k key then (k, session) :: l'
    else (k, s) :: put_session key session l'
  end.

Section WithBase64.
Context `{Base64}.

Definition setSession (now : Z) (session : SessionEntry.t) : M t unit :=
  let key :=
    toString_base64 (IndexInfo.baseKey (SessionEntry.indexInfo session)) in
  onBase (modify (set_sessions (put_session key session)));;
  onBase _invalidateCaches;;
  _addToBatch now OpSetSession key.

(** [this.sessions[id]] is a plain property read.  Of the names of
    [Object.prototype]'s members only these two are base64 texts; under
    them an id with no session filed reads an inherited function, whose
    [indexInfo] is undefined. *)
Definition Object_prototype_names : list string :=
  ["toString"; "propertyIsEnumerable"]%string.

(** Returns the reference of the session, [None] for [undefined]. *)
Definition getSession (key : bytes) : M SessionRecord.t (option string) :=
  let* r := get in
  let id := toString_base64 key in
  match lookup_session id (sessions r) with
  | Some session =>
    match IndexInfo.baseKeyType (SessionEntry.indexInfo session) with
    | OURS => throw (JsError "Tried to lookup a session using our basekey")
    | THEIRS => ret (Some id)
    end
  | None =>
    if bool_decide (id ∈ Object_prototype_names)
    then throw (TypeError "Cannot read properties of undefined")
    else ret None
  end.

End WithBase64.

(** [closeSession] and [openSession] take a session object; the embedding
    takes the key of an entry of [sessions]. *)
Definition closeSession (now : Z) (session : string) : M t unit :=
  let* s := onBase (onSession session get) in
  if isClosed s then ret tt
  else
    onBase (onSession session
      (modify (SessionEntry.set_indexInfo (IndexInfo.set_closed now))));;
    onBase _invalidateCaches;;
    _addToBatch now OpCloseSession session.

Definition openSession (now : Z) (session : string) : M t unit :=
  let* s := onBase (onSession session get) in
  if negb (isClosed s) then ret tt
  else
    onBase (onSession session
      (modify (SessionEntry.set_indexInfo (IndexInfo.set_closed (-1)))));;
    onBase _invalidateCaches;;
    _addToBatch now OpOpenSession session.

End SessionRecordBatch.

(** ** session_record.js: serialization *)

(** The plain objects that [serialize] returns and [deserialize] reads:
    every buffer is written as its base64 text.  [registrationId] is a
    number or absent, as in [SessionEntry.t]. *)
Module Serialized.

Module KeyPair.
Record t := { pubKey : string; privKey : string }.
End KeyPair.

Module Ratchet.
Record t := {
  ephemeralKeyPair : KeyPair.t;
  lastRemoteEphemeralKey : string;
  previousCounter : Z;
  rootKey : string
}.
End Ratchet.

Module IndexInfo.
Record t := {
  baseKey : string;
  baseKeyType : BaseKeyType;
  closed : Z;
  used : Z;
  created : Z;
  remoteIdentityKey : string
}.
End IndexInfo.

Module Chain.
Record t := {
  counter : Z;                 (* chainKey.counter *)
  key : option string;         (* chainKey.key *)
  chainType : ChainType;
  messageKeys : gmap Z string
}.
End Chain.

Module PendingPreKey.
Record t := {
  baseKey : string;
  signedKeyId : Z;
  preKeyId : option Z
}.
End PendingPreKey.

Module Entry.
Record t := {
  registrationId : option Z;
  currentRatchet : Ratchet.t;
  indexInfo : IndexInfo.t;
  _chains : gmap bytes Chain.t;
  pendingPreKey : option PendingPreKey.t;
  _lastAccessed : Z;
  _chainCount : Z;
  _serializationVersion : Z
}.
End Entry.

Module Record.
Record t := {
  _sessions : option (list (string * Entry.t));
  version : option string;
  registrationId : option Z
}.
End Record.

End Serialized.

Module SessionEntrySerialize.
Import SessionEntry.

(** The session entry with the cache that [SessionEntry.t] leaves out. *)
Record t := {
  entry : SessionEntry.t;
  _serializedCache : option Serialized.Entry.t
}.

Definition set_serializedCache (v : option Serialized.Entry.t) (c : t) : t :=
  {| entry := entry c; _serializedCache := v |}.

(** Run a computation that reads and writes the fields of the entry and
    does not touch the cache. *)
Definition onEntry {A} (m : M SessionEntry.t A) : M t A :=
  fun c =>
    let (a, s) := m (entry c) in
    (a, {| entry := s; _serializedCache := _serializedCache c |}).

(** [addChain] and [deleteChain] end with [_invalidateCache]:
    [SessionEntry._invalidateCache] counts the version, the cache is reset
    here. *)
Definition addChain (now : Z) (key : bytes) (value : Chain.t) : M t unit :=
  onEntry (SessionEntry.addChain now key value);;
  modify (set_serializedCache None).

Definition deleteChain (now : Z) (key : bytes) : M t unit :=
  onEntry (SessionEntry.deleteChain now key);;
  modify (set_serializedCache None).

Section WithBase64.
Context `{Base64}.

Definition serialize_chain (c : Chain.t) : Serialized.Chain.t :=
  {| Serialized.Chain.counter := ChainKey.counter (Chain.chainKey c);
     Serialized.Chain.key :=
       toString_base64 <$> ChainKey.key (Chain.chainKey c);
     Serialized.Chain.chainType := Chain.chainType c;
     Serialized.Chain.messageKeys :=
       toString_base64 <$> Chain.messageKeys c |}.

Definition _serialize_chains (chains : gmap bytes Chain.t)
  : gmap bytes Serialized.Chain.t :=
  serialize_chain <$> chains.

Definition serialize_data (s : SessionEntry.t) : Serialized.Entry.t :=
  let r := currentRatchet s in
  let i := indexInfo s in
  {| Serialized.Entry.registrationId := registrationId s;
     Serialized.Entry.currentRatchet :=
       {| Serialized.Ratchet.ephemeralKeyPair :=
            {| Serialized.KeyPair.pubKey :=
                 toString_base64 (pubKey (Ratchet.ephemeralKeyPair r));
               Serialized.KeyPair.privKey :=
                 toString_base64 (privKey (Ratchet.ephemeralKeyPair r)) |};
          Serialized.Ratchet.lastRemoteEphemeralKey :=
            toString_base64 (Ratchet.lastRemoteEphemeralKey r);
          Serialized.Ratchet.previousCounter := Ratchet.previousCounter r;
          Serialized.Ratchet.rootKey := toString_base64 (Ratchet.rootKey r) |};
     Serialized.Entry.indexInfo :=
       {| Serialized.IndexInfo.baseKey := toString_base64 (IndexInfo.baseKey i);
          Serialized.IndexInfo.baseKeyType := IndexInfo.baseKeyType i;
          Serialized.IndexInfo.closed := IndexInfo.closed i;
          Serialized.IndexInfo.used := IndexInfo.used i;
          Serialized.IndexInfo.created := IndexInfo.created i;
          Serialized.IndexInfo.remoteIdentityKey :=
            toString_base64 (IndexInfo.remoteIdentityKey i) |};
     Serialized.Entry._chains := _serialize_chains (_chains s);
     Serialized.Entry.pendingPreKey :=
       (fun p => {| Serialized.PendingPreKey.baseKey :=
                      toString_base64 (PendingPreKey.baseKey p);
                    Serialized.PendingPreKey.signedKeyId :=
                      PendingPreKey.signedKeyId p;
                    Serialized.PendingPreKey.preKeyId :=
                      PendingPreKey.preKeyId p |}) <$> pendingPreKey s;
     Serialized.Entry._lastAccessed := _lastAccessed s;
     Serialized.Entry._chainCount := _chainCount s;
     Serialized.Entry._serializationVersion := _serializationVersion s |}.

(** The object that [serialize] returns is the one it keeps as the cache. *)
Definition serialize : M t Serialized.Entry.t :=
  let* c := get in
  match _serializedCache c with
  | Some data => ret data
  | None =>
    let data := serialize_data (entry c) in
    modify (set_serializedCache (Some data));;
    ret data
  end.

(** [c.chainKey.key && Buffer.from(c.chainKey.key, 'base64')]: an absent key
    stays absent; an empty text is falsy and is kept as the text it is,
    which is not a chain of this embedding: [None]. *)
Definition deserialize_chain (c : Serialized.Chain.t) : option Chain.t :=
  match Serialized.Chain.key c with
  | Some EmptyString => None
  | k =>
    Some {| Chain.chainKey :=
              {| ChainKey.counter := Serialized.Chain.counter c;
                 ChainKey.key := Buffer_from_base64 <$> k |};
            Chain.chainType := Serialized.Chain.chainType c;
            Chain.messageKeys :=
              Buffer_from_base64 <$> Serialized.Chain.messageKeys c |}
  end.

Definition _deserialize_chains (chains_data : gmap bytes Serialized.Chain.t)
  : option (gmap bytes Chain.t) :=
  if decide (map_Forall (fun _ c => is_Some (deserialize_chain c)) chains_data)
  then Some (omap deserialize_chain chains_data)
  else None.

(** [a || b] on numbers *)
Definition or_else (a b : Z) : Z := if a =? 0 then b else a.

(** [SessionEntry.deserialize(data)] at time [now] *)
Definition deserialize (now : Z) (data : Serialized.Entry.t)
  : option SessionEntry.t :=
  let r := Serialized.Entry.currentRatchet data in
  let i := Serialized.Entry.indexInfo data in
  match _deserialize_chains (Serialized.Entry._chains data) with
  | None => None
  | Some chains =>
    Some
      {| registrationId := Serialized.Entry.registrationId data;
         currentRatchet :=
           {| Ratchet.ephemeralKeyPair :=
                {| pubKey :=
                     Buffer_from_base64
                       (Serialized.KeyPair.pubKey
                          (Serialized.Ratchet.ephemeralKeyPair r));
                   privKey :=
                     Buffer_from_base64
                       (Serialized.KeyPair.privKey
                          (Serialized.Ratchet.ephemeralKeyPair r)) |};
              Ratchet.lastRemoteEphemeralKey :=
                Buffer_from_base64 (Serialized.Ratchet.lastRemoteEphemeralKey r);
              Ratchet.previousCounter := Serialized.Ratchet.previousCounter r;
              Ratchet.rootKey :=
                Buffer_from_base64 (Serialized.Ratchet.rootKey r) |};
         indexInfo :=
           {| IndexInfo.baseKey :=
                Buffer_from_base64 (Serialized.IndexInfo.baseKey i);
              IndexInfo.baseKeyType := Serialized.IndexInfo.baseKeyType i;
              IndexInfo.closed := Serialized.IndexInfo.closed i;
              IndexInfo.used := Serialized.IndexInfo.used i;
              IndexInfo.created := Serialized.IndexInfo.created i;
              IndexInfo.remoteIdentityKey :=
                Buffer_from_base64 (Serialized.IndexInfo.remoteIdentityKey i) |};
         _chains := chains;
         pendingPreKey :=
           (fun p => {| PendingPreKey.baseKey :=
                          Buffer_from_base64 (Serialized.PendingPreKey.baseKey p);
                        PendingPreKey.signedKeyId :=
                          Serialized.PendingPreKey.signedKeyId p;
                        PendingPreKey.preKeyId :=
                          Serialized.PendingPreKey.preKeyId p |})
             <$> Serialized.Entry.pendingPreKey data;
         _lastAccessed := or_else (Serialized.Entry._lastAccessed data) now;
         _chainCount :=
           or_else (Serialized.Entry._chainCount data)
                   (Z.of_nat (size chains));
         _serializationVersion :=
           or_else (Serialized.Entry._serializationVersion data) 0 |}
  end.

End WithBase64.

End SessionEntrySerialize.

Module SessionRecordSerialize.
Import SessionRecord SessionRecordBatch.

(** The record object with the [_serializedCache] of its session objects:
    [caches] holds, under the key of a session, the cache of that session
    when it is set. *)
Record t := {
  record : SessionRecordBatch.t;
  caches : gmap string Serialized.Entry.t
}.

Definition onRecord {A} (m : M SessionRecordBatch.t A) : M t A :=
  fun r =>
    let (a, b) := m (record r) in (a, {| record := b; caches := caches r |}).

Section WithBase64.
Context `{Base64}.

(** [entry.serialize()] for the entries of [sessions] in their order; every
    entry keeps what it returned as its cache. *)
Fixpoint serialize_entries (l : list (string * SessionEntry.t))
  (caches : gmap string Serialized.Entry.t)
  : list (string * Serialized.Entry.t) * gmap string Serialized.Entry.t :=
  match l with
  | [] => ([], caches)
  | (key, entry) :: l' =>
    let (res, e) :=
      SessionEntrySerialize.serialize
        {| SessionEntrySerialize.entry := entry;
           SessionEntrySerialize._serializedCache := caches !! key |} in
    match res, SessionEntrySerialize._serializedCache e with
    | Ok data, Some cache =>
      let (rest, caches') := serialize_entries l' (<[key := cache]> caches) in
      ((key, data) :: rest, caches')
    | _, _ => ([], caches)        (* [serialize] returns and sets the cache *)
    end
  end.

Definition serialize : M t Serialized.Record.t :=
  onRecord _processBatchOperations;;
  let* r := get in
  let (_sessions, caches') :=
    serialize_entries (sessions (base (record r))) (caches r) in
  modify (fun r => {| record := record r; caches := caches' |});;
  ret {| Serialized.Record._sessions := Some _sessions;
         Serialized.Record.version := Some (version (base (record r)));
         Serialized.Record.registrationId := None |}.

(** [if (x)] on a number that may be absent *)
Definition truthy (x : option Z) : bool :=
  match x with
  | Some n => negb (n =? 0)
  | None => false
  end.

Definition set_registrationId (v : option Z) (e : Serialized.Entry.t)
  : Serialized.Entry.t :=
  {| Serialized.Entry.registrationId := v;
     Serialized.Entry.currentRatchet := Serialized.Entry.currentRatchet e;
     Serialized.Entry.indexInfo := Serialized.Entry.indexInfo e;
     Serialized.Entry._chains := Serialized.Entry._chains e;
     Serialized.Entry.pendingPreKey := Serialized.Entry.pendingPreKey e;
     Serialized.Entry._lastAccessed := Serialized.Entry._lastAccessed e;
     Serialized.Entry._chainCount := Serialized.Entry._chainCount e;
     Serialized.Entry._serializationVersion :=
       Serialized.Entry._serializationVersion e |}.

(** [migrateV1]: the data object is changed in place; the [else] branch
    only logs. *)
Definition migrateV1 (data : Serialized.Record.t) : Serialized.Record.t :=
  if truthy (Serialized.Record.registrationId data)
  then
    {| Serialized.Record._sessions :=
         map (fun p =>
                if truthy (Serialized.Entry.registrationId (snd p)) then p
                else (fst p,
                      set_registrationId
                        (Serialized.Record.registrationId data) (snd p)))
           <$> Serialized.Record._sessions data;
       Serialized.Record.version := Serialized.Record.version data;
       Serialized.Record.registrationId :=
         Serialized.Record.registrationId data |}
  else data.

Definition migrations
  : list (string * (Serialized.Record.t -> Serialized.Record.t)) :=
  [("v1", migrateV1)].

Fixpoint migrate_loop
  (l : list (string * (Serialized.Record.t -> Serialized.Record.t)))
  (run : bool) (data : Serialized.Record.t) : bool * Serialized.Record.t :=
  match l with
  | [] => (run, data)
  | (v, f) :: l' =>
    if run then migrate_loop l' true (f data)
    else if bool_decide (Some v = Serialized.Record.version data)
         then migrate_loop l' true data
         else migrate_loop l' false data
  end.

(** Returns the data object as the migrations left it. *)
Definition migrate (data : Serialized.Record.t) : result Serialized.Record.t :=
  let (run, data') :=
    migrate_loop migrations
      (bool_decide (Serialized.Record.version data = None)) data in
  if run then Ok data' else Err (JsError "Error migrating SessionRecord").

(** [obj.sessions[key] = SessionEntry.deserialize(entry)] for the entries
    of [data._sessions] in their order.  [None]: an entry is outside the
    embedding, see [deserialize_chain]. *)
Fixpoint deserialize_entries (now : Z)
  (l : list (string * Serialized.Entry.t))
  (sessions : list (string * SessionEntry.t))
  : option (list (string * SessionEntry.t)) :=
  match l with
  | [] => Some sessions
  | (key, entry) :: l' =>
    match SessionEntrySerialize.deserialize now entry with
    | Some s => deserialize_entries now l' (put_session key s sessions)
    | None => None
    end
  end.

Definition deserialize (now : Z) (data : Serialized.Record.t)
  : result (option SessionRecordBatch.t) :=
  match (if bool_decide (Serialized.Record.version data =
                         Some SESSION_RECORD_VERSION)
         then Ok data else migrate data) with
  | Err e => Err e
  | Ok data =>
    let obj := SessionRecordBatch.new_SessionRecord now in
    match Serialized.Record._sessions data with
    | None => Ok (Some obj)
    | Some l =>
      match deserialize_entries now l [] with
      | Some sessions =>
        Ok (Some {| base := set_sessions (fun _ => sessions) (base obj);
                    _batchOperations := _batchOperations obj;
                    _batchSize := _batchSize obj |})
      | None => Ok None
      end
    end
  end.

End WithBase64.

End SessionRecordSerialize.

(** ** The storage capability

    The storage is a collaborator: the cipher is constructed with it and
    calls [loadSession] and [storeSession] with its own address only.
    [loadSession] is what [storage.loadSession(addr)] settles to while a job
    runs and [storeSession record] what [storage.storeSession(addr, record)]
    settles to, [Err] for a promise that is rejected.  The other three calls
    are taken to resolve. *)

(** What [loadSession] resolves to, as far as [getRecord] tells values
    apart. *)
Inductive loaded : Type :=
| LoadedNothing                        (* [null], [undefined]: a falsy value *)
| LoadedRecord (record : SessionRecord.t)
| LoadedOther.                         (* truthy and not a [SessionRecord] *)

Record Storage := {
  isTrustedIdentity : string -> bytes -> bool;
  getOurIdentity : KeyPair;
  getOurRegistrationId : Z;
  loadSession : result loaded;
  storeSession : SessionRecord.t -> result unit
}.

(** ** session_cipher.js *)

Module SessionCipher.

Definition VERSION : Z := 3.

Definition _encodeTupleByte (number1 number2 : Z) : result Z :=
  if (number1 >? 15) || (number2 >? 15)
  then Err (TypeError "Numbers must be 4 bits or less")
  else Ok (Z.lor (Z.shiftl number1 4) number2).

(** [byte] is [None] when the buffer is empty: [undefined >> 4] and
    [undefined & 0xf] are 0. *)
Definition _decodeTupleByte (b : option byte) : Z * Z :=
  match b with
  | Some b => (Z.shiftr (Z_of_byte b) 4, Z.land (Z_of_byte b) 15)
  | None => (0, 0)
  end.

(** [array[i]] handed to a callee that wants a buffer: on [undefined] the
    callee throws a [TypeError] (each callee with a message of its own, which
    is not kept). *)
Definition at_index (l : list bytes) (i : nat) : result bytes :=
  match l !! i with
  | Some b => Ok b
  | None => Err (TypeError "undefined")
  end.

(** The chain object as the first, replaced definition of [fillMessageKeys]
    leaves it: the message keys it stores are arrays of buffers. *)
Module Shadowed.
Record chain := {
  counter : Z;
  key : option bytes;
  messageKeys : gmap Z (list bytes)
}.
End Shadowed.

Section WithPrimitives.
Context `{Primitives}.

(** *** fillMessageKeys

    The class body defines [fillMessageKeys] twice.  A later method
    definition replaces an earlier one of the same name, so the method that
    [encrypt], [doDecryptWhisperMessage] and [maybeStepRatchet] call is the
    second one; the first one is [fillMessageKeys_shadowed] below. *)

(** The three writes of one round. *)
Definition chain_step (key : bytes) (chain : Chain.t) : Chain.t :=
  let c := ChainKey.counter (Chain.chainKey chain) in
  {| Chain.chainKey :=
       {| ChainKey.counter := c + 1;
          ChainKey.key := Some (Crypto.calculateMAC key [x02]) |};
     Chain.chainType := Chain.chainType chain;
     Chain.messageKeys :=
       <[c + 1 := Crypto.calculateMAC key [x01]]> (Chain.messageKeys chain) |}.

Equations? fillMessageKeys (counter : Z) (chain : Chain.t)
  : result unit * Chain.t
  by wf (Z.to_nat (counter - ChainKey.counter (Chain.chainKey chain))) lt :=
  fillMessageKeys counter chain
    with Z_ge_dec (ChainKey.counter (Chain.chainKey chain)) counter := {
    | left _ => (Ok tt, chain)
    | right _
      with Z_gt_dec (counter - ChainKey.counter (Chain.chainKey chain)) 2000 := {
      | left _ =>
        (Err (SessionError "Over 2000 messages into the future!"), chain)
      | right _ with ChainKey.key (Chain.chainKey chain) := {
        | None => (Err (SessionError "Chain closed"), chain)
        | Some k => fillMessageKeys counter (chain_step k chain) } } }.
Proof. simpl. lia. Qed.

(** The first definition of [fillMessageKeys] in the class body, which the
    second one replaces.  It stores the array returned by
    [cryptoEngine.deriveSecrets] as the message key, and steps the chain key
    with [calculateMAC(key, [1])] from the key read before the loop. *)
Equations? shadowed_loop (key : bytes) (counter : Z)
  (st : CryptoEngine.Engine * Shadowed.chain)
  : result unit * (CryptoEngine.Engine * Shadowed.chain)
  by wf (Z.to_nat (counter - Shadowed.counter (snd st))) lt :=
  shadowed_loop key counter (e, c)
    with Z_lt_dec (Shadowed.counter c) counter := {
    | right _ => (Ok tt, (e, c))
    | left _
      with CryptoEngine.deriveSecrets key (Buffer_alloc 32)
             (Buffer_from_string CONSTANTS.MESSAGE_KEYS.DERIVE_INFO) None e := {
      | (Err err, e1) => (Err err, (e1, c))
      | (Ok secrets, e1) with CryptoEngine.calculateMAC key [x01] e1 := {
        | (Err err, e2) =>
          (Err err,
           (e2, {| Shadowed.counter := Shadowed.counter c;
                   Shadowed.key := Shadowed.key c;
                   Shadowed.messageKeys :=
                     <[Shadowed.counter c + 1 := secrets]>
                       (Shadowed.messageKeys c) |}))
        | (Ok mac, e2) =>
          shadowed_loop key counter
            (e2, {| Shadowed.counter := Shadowed.counter c + 1;
                    Shadowed.key := Some mac;
                    Shadowed.messageKeys :=
                      <[Shadowed.counter c + 1 := secrets]>
                        (Shadowed.messageKeys c) |}) } } }.
Proof. simpl. lia. Qed.

Definition fillMessageKeys_shadowed (counter : Z)
  : M (CryptoEngine.Engine * Shadowed.chain) unit :=
  fun st =>
    let c := snd st in
    if (Z.of_nat (size (Shadowed.messageKeys c)) >=?
        CONSTANTS.SESSION.MAX_MESSAGE_KEYS)
    then (Err (JsError "Too many message keys for chain"), st)
    else if Shadowed.counter c >=? counter then (Ok tt, st)
    else if counter - Shadowed.counter c >? CONSTANTS.SESSION.MAX_MESSAGE_KEYS
    then (Err (JsError "Gap between counters too large"), st)
    else match Shadowed.key c with
         | Some key => shadowed_loop key counter st
         | None => (Ok tt, st)
         end.

(** *** The DH ratchet *)

Section Ratchet.
Context (now : Z).

Definition calculateRatchet (remoteKey : bytes) (sending : bool)
  : M SessionEntry.t unit :=
  let* s := get in
  let ratchet := SessionEntry.currentRatchet s in
  match calculateAgreement remoteKey
          (privKey (Ratchet.ephemeralKeyPair ratchet)) with
  | None => throw (ExternalError "calculateAgreement")
  | Some sharedSecret =>
    let* masterKey :=
      lift_result (Crypto.deriveSecrets sharedSecret (Ratchet.rootKey ratchet)
                     (Buffer_from_string "WhisperRatchet") (Some 2)) in
    let chainKey :=
      if sending then pubKey (Ratchet.ephemeralKeyPair ratchet)
      else remoteKey in
    SessionEntry.addChain now chainKey
      {| Chain.messageKeys := ∅;
         Chain.chainKey := {| ChainKey.counter := -1;
                              ChainKey.key := masterKey !! 1%nat |};
         Chain.chainType := if sending then SENDING else RECEIVING |};;
    (* deriveSecrets with two chunks returns two buffers *)
    modify (SessionEntry.set_currentRatchet (fun r =>
      {| Ratchet.ephemeralKeyPair := Ratchet.ephemeralKeyPair r;
         Ratchet.lastRemoteEphemeralKey := Ratchet.lastRemoteEphemeralKey r;
         Ratchet.previousCounter := Ratchet.previousCounter r;
         Ratchet.rootKey := default [] (masterKey !! 0%nat) |}))
  end.

(** [delete previousRatchet.chainKey.key] *)
Definition close_chain : M Chain.t unit :=
  modify (Chain.set_chainKey (fun ck =>
    {| ChainKey.counter := ChainKey.counter ck; ChainKey.key := None |})).

(** [fresh] is the pair that [curve.generateKeyPair()] draws. *)
Definition maybeStepRatchet (fresh : KeyPair) (remoteKey : bytes)
  (previousCounter : Z) : M SessionEntry.t unit :=
  let* c := SessionEntry.getChain now remoteKey in
  match c with
  | SessionEntry.Own _ | SessionEntry.Inherited => ret tt
  | SessionEntry.Undefined =>
    let* s := get in
    let* previousRatchet :=
      SessionEntry.getChain now
        (Ratchet.lastRemoteEphemeralKey (SessionEntry.currentRatchet s)) in
    (match previousRatchet with
     | SessionEntry.Own _ =>
       SessionEntry.onChain
         (Ratchet.lastRemoteEphemeralKey (SessionEntry.currentRatchet s))
         (fillMessageKeys previousCounter;; close_chain)
     | SessionEntry.Inherited =>
       (* [fillMessageKeys] reads [chainKey.counter] of the function *)
       throw (TypeError "Cannot read properties of undefined")
     | SessionEntry.Undefined => ret tt
     end);;
    calculateRatchet remoteKey false;;
    let* s := get in
    let ourPub := pubKey (Ratchet.ephemeralKeyPair (SessionEntry.currentRatchet s)) in
    let* prevCounter := SessionEntry.getChain now ourPub in
    (match prevCounter with
     | SessionEntry.Own pc =>
       modify (SessionEntry.set_currentRatchet (fun r =>
         {| Ratchet.ephemeralKeyPair := Ratchet.ephemeralKeyPair r;
            Ratchet.lastRemoteEphemeralKey := Ratchet.lastRemoteEphemeralKey r;
            Ratchet.previousCounter := ChainKey.counter (Chain.chainKey pc);
            Ratchet.rootKey := Ratchet.rootKey r |}));;
       SessionEntry.deleteChain now ourPub
     | SessionEntry.Inherited =>
       (* [prevCounter.chainKey] is undefined *)
       throw (TypeError "Cannot read properties of undefined")
     | SessionEntry.Undefined => ret tt
     end);;
    modify (SessionEntry.set_currentRatchet (fun r =>
      {| Ratchet.ephemeralKeyPair := fresh;
         Ratchet.lastRemoteEphemeralKey := Ratchet.lastRemoteEphemeralKey r;
         Ratchet.previousCounter := Ratchet.previousCounter r;
         Ratchet.rootKey := Ratchet.rootKey r |}));;
    calculateRatchet remoteKey true;;
    modify (SessionEntry.set_currentRatchet (fun r =>
      {| Ratchet.ephemeralKeyPair := Ratchet.ephemeralKeyPair r;
         Ratchet.lastRemoteEphemeralKey := remoteKey;
         Ratchet.previousCounter := Ratchet.previousCounter r;
         Ratchet.rootKey := Ratchet.rootKey r |}))
  end.

End Ratchet.

(** *** doDecryptWhisperMessage *)

(** [hasOwnProperty], the read and the [delete] of the message key. *)
Definition take_messageKey (counter : Z) : M Chain.t bytes :=
  fun chain =>
    match Chain.messageKeys chain !! counter with
    | None =>
      (Err (MessageCounterError "Key used already or never filled"), chain)
    | Some messageKey =>
      (Ok messageKey, Chain.set_messageKeys (delete counter) chain)
    end.

(** The MAC input is laid out in a zeroed buffer with [set]. *)
Definition build_macInput (first second messageProto : bytes) (offset : nat)
  : result bytes :=
  let macInput := Buffer_alloc (length messageProto + offset * 2 + 1) in
  match buffer_set macInput first 0 with
  | Err e => Err e
  | Ok macInput =>
    match buffer_set macInput second offset with
    | Err e => Err e
    | Ok macInput =>
      match _encodeTupleByte VERSION VERSION with
      | Err e => Err e
      | Ok v =>
        let macInput := buffer_put macInput (offset * 2) v in
        buffer_set macInput messageProto (offset * 2 + 1)
      end
    end
  end.

Section Decrypt.
Context `{Protobufs} (st : Storage) (now : Z).

Definition incompatible_version (messageBuffer : bytes) : bool :=
  let versions := _decodeTupleByte (head messageBuffer) in
  (snd versions >? 3) || (fst versions <? 3).

(** The statements of [doDecryptWhisperMessage] that follow the [delete] of
    the message key. *)
Definition decrypt_with_key (message : WhisperMessage.t)
  (messageProto messageBuffer messageKey : bytes) : M SessionEntry.t bytes :=
  let* keys :=
    lift_result (Crypto.deriveSecrets messageKey (Buffer_alloc 32)
                   (Buffer_from_string "WhisperMessageKeys") None) in
  let ourIdentityKey := getOurIdentity st in
  let* s := get in
  let* macInput :=
    lift_result (build_macInput
      (IndexInfo.remoteIdentityKey (SessionEntry.indexInfo s))
      (pubKey ourIdentityKey) messageProto 33) in
  let* macKey := lift_result (at_index keys 1) in
  lift_result (Crypto.verifyMAC macInput macKey
                 (slice_last 8 messageBuffer) 8);;
  let* cipherKey := lift_result (at_index keys 0) in
  let* ivSource := lift_result (at_index keys 2) in
  let* plaintext :=
    lift_result (Crypto.decrypt cipherKey
                   (WhisperMessage.ciphertext message)
                   (take 16 ivSource)) in
  modify (SessionEntry.set_pendingPreKey None);;
  ret plaintext.

Definition doDecryptWhisperMessage (fresh : KeyPair) (messageBuffer : bytes)
  : M SessionEntry.t bytes :=
  if incompatible_version messageBuffer
  then throw (JsError "Incompatible version number on WhisperMessage")
  else
    let messageProto := slice_1_to_minus 8 messageBuffer in
    match WhisperMessage_decode messageProto with
    | None => throw (ExternalError "WhisperMessage.decode")
    | Some message =>
      let ephemeralKey := WhisperMessage.ephemeralKey message in
      let counter := WhisperMessage.counter message in
      maybeStepRatchet now fresh ephemeralKey
        (WhisperMessage.previousCounter message);;
      let* chain := SessionEntry.getChain now ephemeralKey in
      match chain with
      | SessionEntry.Undefined =>
        throw (TypeError "Cannot read properties of undefined")
      | SessionEntry.Inherited =>
        (* no [chainType]; [fillMessageKeys] reads [chainKey.counter] *)
        throw (TypeError "Cannot read properties of undefined")
      | SessionEntry.Own chain =>
        if bool_decide (Chain.chainType chain = SENDING)
        then throw (JsError "Tried to decrypt on a sending chain")
        else
          SessionEntry.onChain ephemeralKey (fillMessageKeys counter);;
          let* messageKey :=
            SessionEntry.onChain ephemeralKey (take_messageKey counter) in
          decrypt_with_key message messageProto messageBuffer messageKey
      end
    end.

(** The [for] loop of [decryptWithSessions]: the first session that decrypts
    wins.  [fresh i] is the key pair drawn during the [i]-th attempt.  The
    result is the reference of the session and the plaintext. *)
Fixpoint try_sessions (fresh : nat -> KeyPair) (i : nat) (data : bytes)
  (sessions : list string) : M SessionRecord.t (string * bytes) :=
  match sessions with
  | [] => throw (SessionError "No matching sessions found for message")
  | session :: rest =>
    fun r =>
      match SessionRecord.onSession session
              (doDecryptWhisperMessage (fresh i) data) r with
      | (Ok plaintext, r') =>
        (SessionRecord.onSession session
           (modify (SessionEntry.set_indexInfo (IndexInfo.set_used now)));;
         ret (session, plaintext)) r'
      | (Err _, r') => try_sessions fresh (S i) data rest r'
      end
  end.

Definition decryptWithSessions (fresh : nat -> KeyPair) (data : bytes)
  (sessions : list string) : M SessionRecord.t (string * bytes) :=
  match sessions with
  | [] => throw (SessionError "No sessions available")
  | _ => try_sessions fresh 0 data sessions
  end.

End Decrypt.

(** *** The cipher object and its jobs *)

(** The cipher object.  [_cachedRecord] is [None] for [null];
    [storeSession_log] lists the records passed to [storage.storeSession],
    latest first.  [engine] is the [cryptoEngine] singleton of
    crypto_engine.js, which the [require] at the head of session_cipher.js
    binds. *)
Record state := {
  addr_id : string;
  ourIdentityKey : option KeyPair;     (* _encryptionContext.ourIdentityKey *)
  lastUsedCounter : Z;                 (* _encryptionContext.lastUsedCounter *)
  encryptCount : Z;                    (* _metrics *)
  decryptCount : Z;
  cacheHits : Z;
  cacheMisses : Z;
  engine : CryptoEngine.Engine;
  _cachedRecord : option SessionRecord.t;
  _lastRecordUpdate : Z;
  storeSession_log : list SessionRecord.t
}.

Definition set_ourIdentityKey (v : option KeyPair) (w : state) : state :=
  {| addr_id := addr_id w; ourIdentityKey := v;
     lastUsedCounter := lastUsedCounter w; encryptCount := encryptCount w;
     decryptCount := decryptCount w; cacheHits := cacheHits w;
     cacheMisses := cacheMisses w; engine := engine w;
     _cachedRecord := _cachedRecord w;
     _lastRecordUpdate := _lastRecordUpdate w;
     storeSession_log := storeSession_log w |}.
Definition set_lastUsedCounter (v : Z) (w : state) : state :=
  {| addr_id := addr_id w; ourIdentityKey := ourIdentityKey w;
     lastUsedCounter := v; encryptCount := encryptCount w;
     decryptCount := decryptCount w; cacheHits := cacheHits w;
     cacheMisses := cacheMisses w; engine := engine w;
     _cachedRecord := _cachedRecord w;
     _lastRecordUpdate := _lastRecordUpdate w;
     storeSession_log := storeSession_log w |}.
Definition incr_encryptCount (w : state) : state :=
  {| addr_id := addr_id w; ourIdentityKey := ourIdentityKey w;
     lastUsedCounter := lastUsedCounter w; encryptCount := encryptCount w + 1;
     decryptCount := decryptCount w; cacheHits := cacheHits w;
     cacheMisses := cacheMisses w; engine := engine w;
     _cachedRecord := _cachedRecord w;
     _lastRecordUpdate := _lastRecordUpdate w;
     storeSession_log := storeSession_log w |}.
Definition incr_decryptCount (w : state) : state :=
  {| addr_id := addr_id w; ourIdentityKey := ourIdentityKey w;
     lastUsedCounter := lastUsedCounter w; encryptCount := encryptCount w;
     decryptCount := decryptCount w + 1; cacheHits := cacheHits w;
     cacheMisses := cacheMisses w; engine := engine w;
     _cachedRecord := _cachedRecord w;
     _lastRecordUpdate := _lastRecordUpdate w;
     storeSession_log := storeSession_log w |}.
Definition incr_cacheHits (w : state) : state :=
  {| addr_id := addr_id w; ourIdentityKey := ourIdentityKey w;
     lastUsedCounter := lastUsedCounter w; encryptCount := encryptCount w;
     decryptCount := decryptCount w; cacheHits := cacheHits w + 1;
     cacheMisses := cacheMisses w; engine := engine w;
     _cachedRecord := _cachedRecord w;
     _lastRecordUpdate := _lastRecordUpdate w;
     storeSession_log := storeSession_log w |}.
Definition incr_cacheMisses (w : state) : state :=
  {| addr_id := addr_id w; ourIdentityKey := ourIdentityKey w;
     lastUsedCounter := lastUsedCounter w; encryptCount := encryptCount w;
     decryptCount := decryptCount w; cacheHits := cacheHits w;
     cacheMisses := cacheMisses w + 1; engine := engine w;
     _cachedRecord := _cachedRecord w;
     _lastRecordUpdate := _lastRecordUpdate w;
     storeSession_log := storeSession_log w |}.
Definition set_engine (e : CryptoEngine.Engine) (w : state) : state :=
  {| addr_id := addr_id w; ourIdentityKey := ourIdentityKey w;
     lastUsedCounter := lastUsedCounter w; encryptCount := encryptCount w;
     decryptCount := decryptCount w; cacheHits := cacheHits w;
     cacheMisses := cacheMisses w; engine := e;
     _cachedRecord := _cachedRecord w;
     _lastRecordUpdate := _lastRecordUpdate w;
     storeSession_log := storeSession_log w |}.
Definition set_cachedRecord (r : option SessionRecord.t) (w : state) : state :=
  {| addr_id := addr_id w; ourIdentityKey := ourIdentityKey w;
     lastUsedCounter := lastUsedCounter w; encryptCount := encryptCount w;
     decryptCount := decryptCount w; cacheHits := cacheHits w;
     cacheMisses := cacheMisses w; engine := engine w; _cachedRecord := r;
     _lastRecordUpdate := _lastRecordUpdate w;
     storeSession_log := storeSession_log w |}.
Definition set_lastRecordUpdate (v : Z) (w : state) : state :=
  {| addr_id := addr_id w; ourIdentityKey := ourIdentityKey w;
     lastUsedCounter := lastUsedCounter w; encryptCount := encryptCount w;
     decryptCount := decryptCount w; cacheHits := cacheHits w;
     cacheMisses := cacheMisses w; engine := engine w;
     _cachedRecord := _cachedRecord w; _lastRecordUpdate := v;
     storeSession_log := storeSession_log w |}.
Definition log_storeSession (r : SessionRecord.t) (w : state) : state :=
  {| addr_id := addr_id w; ourIdentityKey := ourIdentityKey w;
     lastUsedCounter := lastUsedCounter w; encryptCount := encryptCount w;
     decryptCount := decryptCount w; cacheHits := cacheHits w;
     cacheMisses := cacheMisses w; engine := engine w;
     _cachedRecord := _cachedRecord w;
     _lastRecordUpdate := _lastRecordUpdate w;
     storeSession_log := r :: storeSession_log w |}.

Definition onEngine {A} (m : M CryptoEngine.Engine A) : M state A :=
  fun w => let (a, e) := m (engine w) in (a, set_engine e w).

(** Run a method of the record object that [getRecord()] returned to the
    job: the object that [_cachedRecord] holds by then. *)
Definition onRecord {A} (m : M SessionRecord.t A) : M state A :=
  fun w =>
    match _cachedRecord w with
    | None => (Err (TypeError "Cannot read properties of null"), w)
    | Some r => let (a, r') := m r in (a, set_cachedRecord (Some r') w)
    end.

Definition onSession {A} (session : string) (m : M SessionEntry.t A)
  : M state A :=
  onRecord (SessionRecord.onSession session m).

(** The bodies of the queued jobs; [now] is what [Date.now()] reads while
    the job runs. *)
Section Jobs.
Context `{Protobufs} (st : Storage) (now : Z).

Definition getOurIdentityKey : M state KeyPair :=
  let* w := get in
  match ourIdentityKey w with
  | Some k => ret k
  | None =>
    modify (set_ourIdentityKey (Some (getOurIdentity st)));;
    ret (getOurIdentity st)
  end.

(** The record it returns is the one in [_cachedRecord] on both paths. *)
Definition getRecord (forceRefresh : bool)
  : M state (option SessionRecord.t) :=
  let* w := get in
  if negb forceRefresh &&
     match _cachedRecord w with Some _ => true | None => false end &&
     (now - _lastRecordUpdate w <? 1000)
  then
    modify incr_cacheHits;;
    ret (_cachedRecord w)
  else
    modify incr_cacheMisses;;
    let* record := lift_result (loadSession st) in
    match record with
    | LoadedOther =>
      throw (TypeError "SessionRecord type expected from loadSession")
    | LoadedNothing =>
      modify (set_cachedRecord None);;
      modify (set_lastRecordUpdate now);;
      ret None
    | LoadedRecord r =>
      modify (set_cachedRecord (Some r));;
      modify (set_lastRecordUpdate now);;
      ret (Some r)
    end.

(** [record] is the object in [_cachedRecord], so [this._cachedRecord =
    record] changes nothing. *)
Definition storeRecord : M state unit :=
  onRecord (SessionRecord.removeOldSessions now);;
  let* w := get in
  match _cachedRecord w with
  | Some r =>
    modify (log_storeSession r);;
    lift_result (storeSession st r);;
    modify (set_lastRecordUpdate now)
  | None => ret tt
  end.

Record encrypted := {
  type : Z;
  body : bytes;
  registrationId : option Z
}.

(** The inner frame: [result] of the source. *)
Definition build_frame (msgBuf mac : bytes) : result bytes :=
  let result := Buffer_alloc (length msgBuf + 9) in
  match _encodeTupleByte VERSION VERSION with
  | Err e => Err e
  | Ok v =>
    let result := buffer_put result 0 v in
    match buffer_set result msgBuf 1 with
    | Err e => Err e
    | Ok result => buffer_set result (take 8 mac) (length msgBuf + 1)
    end
  end.

(** [if (session.pendingPreKey.preKeyId)]: 0 is falsy. *)
Definition truthy_id (id : option Z) : option Z :=
  match id with
  | Some n => if n =? 0 then None else Some n
  | None => None
  end.

Definition wrap (ourIdentityKey : KeyPair) (session : SessionEntry.t)
  (result : bytes) : M state (Z * bytes) :=
  match SessionEntry.pendingPreKey session with
  | Some pending =>
    let preKeyMsg :=
      {| PreKeyWhisperMessage.identityKey := pubKey ourIdentityKey;
         PreKeyWhisperMessage.registrationId := getOurRegistrationId st;
         PreKeyWhisperMessage.baseKey := PendingPreKey.baseKey pending;
         PreKeyWhisperMessage.signedPreKeyId := PendingPreKey.signedKeyId pending;
         PreKeyWhisperMessage.preKeyId := truthy_id (PendingPreKey.preKeyId pending);
         PreKeyWhisperMessage.message := result |} in
    let* v := lift_result (_encodeTupleByte VERSION VERSION) in
    ret (3, byte_of_Z v :: PreKeyWhisperMessage_encode preKeyMsg)
  | None => ret (1, result)
  end.

(** The statements of [encrypt] from [WhisperMessage.create()] to the
    inner frame [result]: the message and the frame. *)
Definition seal (ourIdentityKey : KeyPair) (s : SessionEntry.t)
  (counter : Z) (keys : list bytes) (data : bytes)
  : M CryptoEngine.Engine (WhisperMessage.t * bytes) :=
  let* cipherKey := lift_result (at_index keys 0) in
  let* ivSource := lift_result (at_index keys 2) in
  let* ciphertext := CryptoEngine.encrypt cipherKey data (take 16 ivSource) in
  let msg :=
    {| WhisperMessage.ephemeralKey :=
         pubKey (Ratchet.ephemeralKeyPair (SessionEntry.currentRatchet s));
       WhisperMessage.counter := counter;
       WhisperMessage.previousCounter :=
         Ratchet.previousCounter (SessionEntry.currentRatchet s);
       WhisperMessage.ciphertext := ciphertext |} in
  let msgBuf := WhisperMessage_encode msg in
  let* macInput :=
    lift_result (build_macInput (pubKey ourIdentityKey)
      (IndexInfo.remoteIdentityKey (SessionEntry.indexInfo s))
      msgBuf CONSTANTS.KEY_SIZES.PUBLIC_KEY) in
  let* macKey := lift_result (at_index keys 1) in
  let* mac := CryptoEngine.calculateMAC macKey macInput in
  let* result := lift_result (build_frame msgBuf mac) in
  ret (msg, result).

(** [encrypt] from the trust check on, for the open [session]. *)
Definition encrypt_with (ourIdentityKey : KeyPair) (session : string)
  (data : bytes) : M state encrypted :=
  let* s := onSession session get in
  let remoteIdentityKey :=
    IndexInfo.remoteIdentityKey (SessionEntry.indexInfo s) in
  let* w := get in
  if negb (isTrustedIdentity st (addr_id w) remoteIdentityKey)
  then throw (UntrustedIdentityKeyError (addr_id w) remoteIdentityKey)
  else
    let ourPub :=
      pubKey (Ratchet.ephemeralKeyPair (SessionEntry.currentRatchet s)) in
    let* chain := onSession session (SessionEntry.getChain now ourPub) in
    match chain with
    | SessionEntry.Undefined =>
      throw (TypeError "Cannot read properties of undefined")
    | SessionEntry.Inherited =>
      (* no [chainType]; the argument [chain.chainKey.counter + 1] throws *)
      throw (TypeError "Cannot read properties of undefined")
    | SessionEntry.Own chain =>
      if bool_decide (Chain.chainType chain = RECEIVING)
      then throw (JsError "Tried to encrypt on a receiving chain")
      else
        onSession session (SessionEntry.onChain ourPub
          (fillMessageKeys (ChainKey.counter (Chain.chainKey chain) + 1)));;
        let* chain := onSession session (SessionEntry.onChain ourPub get) in
        let counter := ChainKey.counter (Chain.chainKey chain) in
        let* keys :=
          match Chain.messageKeys chain !! counter with
          | None => throw (TypeError "input must be a Buffer, got: undefined")
          | Some messageKey =>
            onEngine (CryptoEngine.deriveSecrets messageKey
                        (Buffer_alloc 32)
                        (Buffer_from_string CONSTANTS.MESSAGE_KEYS.DERIVE_INFO)
                        None)
          end in
        onSession session (SessionEntry.onChain ourPub
          (modify (Chain.set_messageKeys (delete counter))));;
        (* storeRecord leaves the session object as it is *)
        let* s := onSession session get in
        let* sealed := onEngine (seal ourIdentityKey s counter keys data) in
        storeRecord;;
        modify (set_lastUsedCounter counter);;
        let* tb := wrap ourIdentityKey s (snd sealed) in
        ret {| type := fst tb; body := snd tb;
               registrationId := SessionEntry.registrationId s |}
    end.

Definition encrypt (data : bytes) : M state encrypted :=
  let* ourIdentityKey := getOurIdentityKey in
  modify incr_encryptCount;;
  let* record := getRecord false in
  match record with
  | None => throw (SessionError "No sessions")
  | Some _ =>
    let* session := onRecord SessionRecord.getOpenSession in
    match session with
    | None => throw (SessionError "No open session")
    | Some session => encrypt_with ourIdentityKey session data
    end
  end.

Definition decryptWhisperMessage (fresh : nat -> KeyPair) (data : bytes)
  : M state bytes :=
  modify incr_decryptCount;;
  let* record := getRecord false in
  match record with
  | None => throw (SessionError "No session record")
  | Some _ =>
    let* sessions := onRecord SessionRecord.getSessions in
    let* result := onRecord (decryptWithSessions st now fresh data sessions) in
    let* s := onSession (fst result) get in
    let remoteIdentityKey :=
      IndexInfo.remoteIdentityKey (SessionEntry.indexInfo s) in
    let* w := get in
    if negb (isTrustedIdentity st (addr_id w) remoteIdentityKey)
    then throw (UntrustedIdentityKeyError (addr_id w) remoteIdentityKey)
    else
      storeRecord;;
      ret (snd result)
  end.

End Jobs.

End WithPrimitives.
End SessionCipher.

(** ** session_cipher.js: [hasOpenSession] and [closeOpenSession] *)

Module CipherSessions.
Import SessionRecord SessionRecordBatch SessionCipher.

(** The cipher with the batch queue of its record. *)
Record state := {
  cipher : SessionCipher.state;
  queue : list queued;
  queueSize : Z
}.

Definition onCipher {A} (m : M SessionCipher.state A) : M state A :=
  fun w =>
    let (a, c) := m (cipher w) in
    (a, {| cipher := c; queue := queue w; queueSize := queueSize w |}).

(** Run a method of the record object that [getRecord()] returned. *)
Definition onBatchedRecord {A} (m : M SessionRecordBatch.t A) : M state A :=
  fun w =>
    match _cachedRecord (cipher w) with
    | None => (Err (TypeError "Cannot read properties of null"), w)
    | Some r =>
      let (a, r') := m {| base := r; _batchOperations := queue w;
                          _batchSize := queueSize w |} in
      (a, {| cipher := set_cachedRecord (Some (base r')) (cipher w);
             queue := _batchOperations r'; queueSize := _batchSize r' |})
    end.

Section Jobs.
Context (st : Storage) (now : Z).

Definition hasOpenSession : M SessionCipher.state bool :=
  let* record := getRecord st now false in
  match record with
  | None => ret false
  | Some _ => onRecord haveOpenSession
  end.

Definition closeOpenSession : M state unit :=
  let* record := onCipher (getRecord st now false) in
  match record with
  | None => ret tt
  | Some _ =>
    let* openSession := onCipher (onRecord getOpenSession) in
    match openSession with
    | None => ret tt
    | Some session =>
      onBatchedRecord (closeSession now session);;
      onCipher (storeRecord st now)
    end
  end.

End Jobs.

End CipherSessions.

(** ** A storage that keeps the persisted form

    The storage backend is a collaborator.  The one described here keeps the
    document that [record.serialize()] returns when a record is stored, and
    answers [loadSession] with [SessionRecord.deserialize] of the document
    it keeps.  [caches] holds the [_serializedCache] of the session objects
    of the cipher's cached record, by session key. *)

Module Persisted.
Import SessionRecord SessionRecordBatch.

Record t := {
  cipher : SessionCipher.state;
  caches : gmap string Serialized.Entry.t;
  document : option Serialized.Record.t
}.

Section WithCollaborators.
Context `{Primitives} `{Protobufs} `{Base64}.

(** [loadSession(addr)] at time [now]; data that [deserialize] of this
    embedding does not read is a rejection. *)
Definition load (now : Z) (document : option Serialized.Record.t)
  : result loaded :=
  match document with
  | None => Ok LoadedNothing
  | Some data =>
    match SessionRecordSerialize.deserialize now data with
    | Ok (Some r) => Ok (LoadedRecord (base r))
    | Ok None => Err (ExternalError "deserialize")
    | Err e => Err e
    end
  end.

(** The storage as a job that runs at [now] meets it; [st] answers the
    calls that are not about the session. *)
Definition storage (st : Storage) (now : Z) (v : t) : Storage :=
  {| isTrustedIdentity := isTrustedIdentity st;
     getOurIdentity := getOurIdentity st;
     getOurRegistrationId := getOurRegistrationId st;
     loadSession := load now (document v);
     storeSession := fun _ => Ok tt |}.

(** [storeSession(addr, record)]: the document that [record.serialize()]
    returns, and the caches that the call leaves in the session objects.
    The batch queue of the record is empty. *)
Definition keep (r : SessionRecord.t) (caches : gmap string Serialized.Entry.t)
  : option Serialized.Record.t * gmap string Serialized.Entry.t :=
  let (res, r') :=
    SessionRecordSerialize.serialize
      {| SessionRecordSerialize.record :=
           {| base := r; _batchOperations := []; _batchSize := 10 |};
         SessionRecordSerialize.caches := caches |} in
  (match res with Ok data => Some data | Err _ => None end,
   SessionRecordSerialize.caches r').

(** [encrypt] with this storage.  The session objects of a record that the
    call has loaded are new and have no cache; [encrypt] calls neither
    [addChain] nor [deleteChain], which reset the cache of a session, and it
    queues no batch operation.  The record that the call has passed to
    [storeSession] is the head of the log. *)
Definition encrypt (st : Storage) (now : Z) (data : bytes)
  : t -> result SessionCipher.encrypted * t :=
  fun v =>
    let (res, c) :=
      SessionCipher.encrypt (storage st now v) now data (cipher v) in
    let caches0 :=
      if SessionCipher.cacheMisses c =? SessionCipher.cacheMisses (cipher v)
      then caches v else ∅ in
    match SessionCipher.storeSession_log c with
    | r :: log =>
      if (length log =? length (SessionCipher.storeSession_log (cipher v)))%nat
      then
        let (document', caches') := keep r caches0 in
        (res, {| cipher := c; caches := caches'; document := document' |})
      else (res, {| cipher := c; caches := caches0; document := document v |})
    | [] => (res, {| cipher := c; caches := caches0; document := document v |})
    end.

End WithCollaborators.

End Persisted.

(** ** A small instance of the collaborators

    Used to run the embedding on concrete sessions.  The digest is the first
    32 bytes of key and data, zero padded; the cipher is the identity on data
    with node's length checks; the codec packs the key in one byte. *)

Module Sample.

Definition hmac (k d : bytes) : bytes := take 32 (k ++ d ++ repeat x00 32).

Lemma hmac_length k d : length (hmac k d) = 32%nat.
Proof.
  unfold hmac. rewrite length_take, !length_app, repeat_length. lia.
Qed.

Definition aes (key data iv : bytes) : option bytes :=
  if (length key =? 32)%nat && (length iv =? 16)%nat then Some data else None.

Definition agree (pub priv : bytes) : option bytes :=
  Some (take 32 (pub ++ priv ++ repeat x00 32)).

Definition primitives : Primitives :=
  {| hmac_sha256 := hmac;
     hmac_sha256_length := hmac_length;
     aes_256_cbc_encrypt := aes;
     aes_256_cbc_decrypt := aes;
     calculateAgreement := agree |}.

Definition encode (m : WhisperMessage.t) : bytes :=
  WhisperMessage.ephemeralKey m ++
  [byte_of_Z (WhisperMessage.counter m);
   byte_of_Z (WhisperMessage.previousCounter m)] ++
  WhisperMessage.ciphertext m.

Definition decode (b : bytes) : option WhisperMessage.t :=
  match b with
  | e :: c :: p :: ct =>
    Some {| WhisperMessage.ephemeralKey := [e];
            WhisperMessage.counter := Z_of_byte c;
            WhisperMessage.previousCounter := Z_of_byte p;
            WhisperMessage.ciphertext := ct |}
  | _ => None
  end.

Definition protobufs : Protobufs :=
  {| WhisperMessage_encode := encode;
     WhisperMessage_decode := decode;
     PreKeyWhisperMessage_encode := PreKeyWhisperMessage.message |}.

Definition zeros32 : bytes := repeat x00 32.

Definition identity : KeyPair :=
  {| pubKey := repeat x05 33; privKey := repeat x07 32 |}.

(** A storage that holds no session and takes what it is given. *)
Definition storage (trusted : bool) : Storage :=
  {| isTrustedIdentity := fun _ _ => trusted;
     getOurIdentity := identity;
     getOurRegistrationId := 4660;
     loadSession := Ok LoadedNothing;
     storeSession := fun _ => Ok tt |}.

(** A storage whose session calls settle as given. *)
Definition storage_with (held : result loaded) (stored : result unit)
  : Storage :=
  {| isTrustedIdentity := fun _ _ => true;
     getOurIdentity := identity;
     getOurRegistrationId := 4660;
     loadSession := held;
     storeSession := fun _ => stored |}.

(** A chain at counter [-1] whose key is [k]. *)
Definition chain (ty : ChainType) (k : option bytes) : Chain.t :=
  {| Chain.chainKey := {| ChainKey.counter := -1; ChainKey.key := k |};
     Chain.chainType := ty;
     Chain.messageKeys := ∅ |}.

(** A session with a receiving chain under the remote key [0x41] and a
    sending chain under our ephemeral key [0x42]. *)
Definition session (closed : Z) (regId : option Z) : SessionEntry.t :=
  {| SessionEntry._chains :=
       <[ [x41] := chain RECEIVING (Some zeros32) ]>
         (<[ [x42] := chain SENDING (Some zeros32) ]> ∅);
     SessionEntry.registrationId := regId;
     SessionEntry.currentRatchet :=
       {| Ratchet.ephemeralKeyPair := {| pubKey := [x42]; privKey := zeros32 |};
          Ratchet.lastRemoteEphemeralKey := [x41];
          Ratchet.previousCounter := 0;
          Ratchet.rootKey := zeros32 |};
     SessionEntry.indexInfo :=
       {| IndexInfo.baseKey := [x01];
          IndexInfo.baseKeyType := THEIRS;
          IndexInfo.closed := closed;
          IndexInfo.used := 10;
          IndexInfo.created := 10;
          IndexInfo.remoteIdentityKey := repeat x06 33 |};
     SessionEntry.pendingPreKey := None;
     SessionEntry._lastAccessed := 10;
     SessionEntry._chainCount := 2;
     SessionEntry._serializationVersion := 0 |}.

(** A record made at time 0. *)
Definition record (l : list (string * SessionEntry.t)) : SessionRecord.t :=
  SessionRecord.set_sessions (fun _ => l) (SessionRecord.new_SessionRecord 0).

(** A cipher that has [r] in its cache since time 0; with [None] it is as
    the constructor leaves it. *)
Definition cipher (r : option SessionRecord.t) : SessionCipher.state :=
  {| SessionCipher.addr_id := "bob";
     SessionCipher.ourIdentityKey := None;
     SessionCipher.lastUsedCounter := -1;
     SessionCipher.encryptCount := 0;
     SessionCipher.decryptCount := 0;
     SessionCipher.cacheHits := 0;
     SessionCipher.cacheMisses := 0;
     SessionCipher.engine := CryptoEngine.new_Engine;
     SessionCipher._cachedRecord := r;
     SessionCipher._lastRecordUpdate := 0;
     SessionCipher.storeSession_log := [] |}.

(** A frame for the receiving chain, counter 0, ciphertext [0x68 0x69]; the
    truncated MAC of the sample digest is eight zero bytes. *)
Definition frame (mac : bytes) : bytes :=
  [x33] ++ [x41; x00; x00; x68; x69] ++ mac.

(** The other end of [session]: the receiving chain under the key [0x42],
    the identity key of [identity] as the remote one. *)
Definition peer_session : SessionEntry.t :=
  {| SessionEntry._chains := <[ [x42] := chain RECEIVING (Some zeros32) ]> ∅;
     SessionEntry.registrationId := Some 2;
     SessionEntry.currentRatchet :=
       {| Ratchet.ephemeralKeyPair := {| pubKey := [x41]; privKey := zeros32 |};
          Ratchet.lastRemoteEphemeralKey := [x42];
          Ratchet.previousCounter := 0;
          Ratchet.rootKey := zeros32 |};
     SessionEntry.indexInfo :=
       {| IndexInfo.baseKey := [x01];
          IndexInfo.baseKeyType := OURS;
          IndexInfo.closed := -1;
          IndexInfo.used := 10;
          IndexInfo.created := 10;
          IndexInfo.remoteIdentityKey := repeat x05 33 |};
     SessionEntry.pendingPreKey := None;
     SessionEntry._lastAccessed := 10;
     SessionEntry._chainCount := 1;
     SessionEntry._serializationVersion := 0 |}.

(** The storage of the other end: its identity key is the remote identity
    key of [session]. *)
Definition peer_storage : Storage :=
  {| isTrustedIdentity := fun _ _ => true;
     getOurIdentity := {| pubKey := repeat x06 33; privKey := repeat x08 32 |};
     getOurRegistrationId := 22136;
     loadSession := Ok LoadedNothing;
     storeSession := fun _ => Ok tt |}.

(** A text codec with the laws of [Base64]: one character per byte. *)
Definition text (b : bytes) : string :=
  string_of_list_ascii (map ascii_of_byte b).
Definition untext (s : string) : bytes :=
  map byte_of_ascii (list_ascii_of_string s).

Lemma untext_text b : untext (text b) = b.
Proof.
  unfold untext, text. rewrite list_ascii_of_string_of_list_ascii.
  rewrite map_map. induction b as [|x b IH]; simpl; [reflexivity|].
  rewrite byte_of_ascii_of_byte, IH. reflexivity.
Qed.

Lemma text_empty b : text b = EmptyString <-> b = [].
Proof. destruct b; split; try reflexivity; discriminate. Qed.

Definition base64 : Base64 :=
  {| toString_base64 := text; Buffer_from_base64 := untext;
     base64_round_trip := untext_text; base64_empty := text_empty |}.

(** A record with an empty batch queue. *)
Definition batched (l : list (string * SessionEntry.t))
  : SessionRecordBatch.t :=
  {| SessionRecordBatch.base := record l;
     SessionRecordBatch._batchOperations := [];
     SessionRecordBatch._batchSize := 10 |}.

(** Stored data from before the version field: the sample session without
    a registration id, in data that has one. *)
Definition legacy_data : Serialized.Record.t :=
  {| Serialized.Record._sessions :=
       Some [("s0", @SessionEntrySerialize.serialize_data base64
                      (session (-1) None))];
     Serialized.Record.version := None;
     Serialized.Record.registrationId := Some 7 |}.

End Sample.

(** * The vocabulary of the statements

    The predicates, the views of the state and the sample runs that the
    properties below are stated with.  [spec_chainKeyStep] and [spec_hkdf]
    follow the words of the specification, to be compared with the functions
    of the embedding; the definitions named [..._as_stated] are sentences of
    the specification as they stand. *)

Module Spec.

(** ** The chain key schedule *)

Section Schedule.
Import SessionCipher.
Context `{Primitives}.

(** The chain key step in the words of the specification, on the triple
    (counter, chain key, message keys): the seed HMAC(key, 0x01) is filed
    under counter+1, the key becomes HMAC(key, 0x02), the counter grows by
    one. *)
Definition spec_chainKeyStep (st : Z * bytes * gmap Z bytes)
  : Z * bytes * gmap Z bytes :=
  let '(counter, key, messageKeys) := st in
  (counter + 1,
   hmac_sha256 key [x02],
   <[counter + 1 := hmac_sha256 key [x01]]> messageKeys).

(** The triple of a chain object. *)
Definition chain_view (chain : Chain.t) : Z * option bytes * gmap Z bytes :=
  (ChainKey.counter (Chain.chainKey chain),
   ChainKey.key (Chain.chainKey chain),
   Chain.messageKeys chain).

(** The triple of a chain whose key is defined. *)
Definition some_key (st : Z * bytes * gmap Z bytes)
  : Z * option bytes * gmap Z bytes :=
  let '(counter, key, messageKeys) := st in (counter, Some key, messageKeys).

End Schedule.

(** ** The guards of fillMessageKeys *)

Section Guards.
Import SessionCipher.

(** C8 as the specification states it: the third guard is claimed for every
    closed chain whose counter still has to advance. *)
Definition guards_as_stated : Prop :=
  forall (P : Primitives) (counter : Z) (chain : Chain.t),
    (ChainKey.counter (Chain.chainKey chain) >= counter ->
     fillMessageKeys counter chain = (Ok tt, chain)) /\
    (counter - ChainKey.counter (Chain.chainKey chain) > 2000 ->
     exists msg, fst (fillMessageKeys counter chain) = Err (SessionError msg)) /\
    (ChainKey.key (Chain.chainKey chain) = None ->
     ChainKey.counter (Chain.chainKey chain) < counter ->
     fst (fillMessageKeys counter chain) = Err (SessionError "Chain closed")).

End Guards.

(** ** HKDF and the memoization map *)

Section Hkdf.
Import CryptoEngine.
Context `{Primitives}.

(** The expand phase in the words of the specification:
    T(1) = HMAC(PRK, info || 0x01) and
    T(i) = HMAC(PRK, T(i-1) || info || byte(i)). *)
Definition spec_T1 (PRK info : bytes) : bytes := hmac_sha256 PRK (info ++ [x01]).

Definition spec_T (PRK prev info : bytes) (i : byte) : bytes :=
  hmac_sha256 PRK (prev ++ info ++ [i]).

(** PRK = HMAC(salt, input), and the first [chunks] blocks. *)
Definition spec_hkdf (input salt info : bytes) (chunks : Z) : list bytes :=
  let PRK := hmac_sha256 salt input in
  let T1 := spec_T1 PRK info in
  let T2 := spec_T PRK T1 info x02 in
  let T3 := spec_T PRK T2 info x03 in
  take (Z.to_nat chunks) [T1; T2; T3].

(** Every entry of the memoization map is the value the engine would
    compute for the arguments rendered in its key. *)
Definition cache_ok (e : Engine) : Prop :=
  (forall key data v,
     _memoCache e !! _generateCacheKey "mac" [PBuffer key; PBuffer data] = Some v ->
     v = MemoBuffer (hmac_sha256 key data)) /\
  (forall input salt info chunks v,
     _memoCache e !!
       _generateCacheKey "derive"
         [PBuffer input; PBuffer salt; PBuffer info; PNumber chunks] = Some v ->
     v = MemoArray (spec_hkdf input salt info chunks)).

(** The three keys of a message: the HKDF blocks of its seed. *)
Definition message_keys (seed : bytes) : list bytes :=
  spec_hkdf seed (Buffer_alloc 32)
    (Buffer_from_string "WhisperMessageKeys") 3.

(** The second of them authenticates the frame. *)
Definition macKey_of (seed : bytes) : bytes := nth 1 (message_keys seed) [].

End Hkdf.

(** ** The states of the engine *)

Section Reachable.
Import CryptoEngine.
Context `{Primitives}.

(** The states of the engine singleton: the fresh engine and what its
    methods leave, whether they return or throw. *)
Inductive reachable : Engine -> Prop :=
| reachable_new : reachable new_Engine
| reachable_calculateMAC e key data :
    reachable e -> reachable (snd (calculateMAC key data e))
| reachable_deriveSecrets e input salt info chunks :
    reachable e -> reachable (snd (deriveSecrets input salt info chunks e))
| reachable_verifyMAC e data key mac len :
    reachable e -> reachable (snd (verifyMAC data key mac len e))
| reachable_encrypt e key data iv :
    reachable e -> reachable (snd (encrypt key data iv e))
| reachable_decrypt e key data iv :
    reachable e -> reachable (snd (decrypt key data iv e))
| reachable_clearCache e :
    reachable e -> reachable (snd (clearCache e)).

End Reachable.

(** ** Cache keys *)

Section CacheKeys.

(** The digit that a character of [toString('hex')] stands for. *)
Definition hex_value (c : ascii) : N :=
  (if Ascii.eqb c "0" then 0 else if Ascii.eqb c "1" then 1
   else if Ascii.eqb c "2" then 2 else if Ascii.eqb c "3" then 3
   else if Ascii.eqb c "4" then 4 else if Ascii.eqb c "5" then 5
   else if Ascii.eqb c "6" then 6 else if Ascii.eqb c "7" then 7
   else if Ascii.eqb c "8" then 8 else if Ascii.eqb c "9" then 9
   else if Ascii.eqb c "a" then 10 else if Ascii.eqb c "b" then 11
   else if Ascii.eqb c "c" then 12 else if Ascii.eqb c "d" then 13
   else if Ascii.eqb c "e" then 14 else 15)%N.

End CacheKeys.

(** ** Old sessions *)

(** An entry of [record.sessions]: the key and the session object. *)
Abbreviation entry := (string * SessionEntry.t)%type.

Section OldSessions.
Import SessionRecord.

(** [indexInfo.closed] of an entry; [-1] marks an open session. *)
Definition closed_of (e : entry) : Z :=
  IndexInfo.closed (SessionEntry.indexInfo (snd e)).

Definition is_closed (e : entry) : Prop := closed_of e <> -1.

(** [e] is a closed entry of [l] and no closed entry of [l] was closed
    earlier. *)
Definition oldest_in (e : entry) (l : list entry) : Prop :=
  e ∈ l /\ is_closed e /\
  forall e', e' ∈ l -> is_closed e' -> closed_of e <= closed_of e'.

(** What the inner loop of [removeOldSessions] holds in [oldestKey] after
    it has gone through [l]. *)
Definition oldest_inv (acc : option entry) (l : list entry) : Prop :=
  match acc with
  | Some o => oldest_in o l
  | None => forall e', e' ∈ l -> ~ is_closed e'
  end.

(** [removes l d l']: deleting the entries [d] one after the other, each the
    oldest closed entry of what is left, turns [l] into [l']. *)
Inductive removes : list entry -> list entry -> list entry -> Prop :=
| removes_nil l : removes l [] l
| removes_cons l e d l' :
    oldest_in e l ->
    removes (delete_session (fst e) l) d l' ->
    removes l (e :: d) l'.

(** Sample records: session [i] is filed under "s<i>" and was closed at the
    [i]-th time of the list ([-1]: still open). *)
Definition sessions_closed_at (ts : list Z) : list entry :=
  imap (fun i c => ("s" +:+ pretty i, Sample.session c (Some 1))) ts.



(** [indexInfo.used] of an entry. *)
Definition used_of (e : entry) : Z :=
  IndexInfo.used (SessionEntry.indexInfo (snd e)).

(** At most one session of the record is open. *)
Definition at_most_one_open (l : list (string * SessionEntry.t)) : Prop :=
  forall x y, x ∈ l -> y ∈ l ->
    isClosed (snd x) = false -> isClosed (snd y) = false -> x = y.

End OldSessions.

(** ** Computations *)

Section Computations.

(** [m] never throws an error outside [P]. *)
Definition throws {S A} (P : error -> Prop) (m : M S A) : Prop :=
  forall s e s', m s = (Err e, s') -> P e.

(** [m] leaves the component [f] of the state as it is. *)
Definition keeps {S A X} (f : S -> X) (m : M S A) : Prop :=
  forall s r s', m s = (r, s') -> f s' = f s.

(** An error other than the one of [verifyMAC]. *)
Definition not_mac (e : error) : Prop := e <> Crypto.mac_failure.

(** The error of a frame whose message key is not in the chain. *)
Definition counter_error : error :=
  MessageCounterError "Key used already or never filled".

End Computations.

(** ** Frames *)

Section Frames.
Import SessionCipher.
Context `{Primitives} `{Protobufs}.

(** What a call of [doDecryptWhisperMessage] that gets past the version
    check finds in the frame. *)
Definition header (messageBuffer : bytes) : option WhisperMessage.t :=
  if incompatible_version messageBuffer then None
  else WhisperMessage_decode (slice_1_to_minus 8 messageBuffer).

(** The chain of the frame has given out the key of the frame's counter. *)
Definition consumed (s : SessionEntry.t) (message : WhisperMessage.t) : Prop :=
  exists chain,
    SessionEntry._chains s !! WhisperMessage.ephemeralKey message = Some chain /\
    Chain.chainType chain <> SENDING /\
    ChainKey.counter (Chain.chainKey chain) >= WhisperMessage.counter message /\
    Chain.messageKeys chain !! WhisperMessage.counter message = None.

(** The session object when [encrypt] has stepped its sending chain [chain]
    (key [kk]) and taken the new message key. *)
Definition after_encrypt (now : Z) (s : SessionEntry.t) (chain : Chain.t)
  (kk : bytes) : SessionEntry.t :=
  SessionEntry.set_chains
    (insert (pubKey (Ratchet.ephemeralKeyPair (SessionEntry.currentRatchet s)))
       (Chain.set_messageKeys
          (delete (ChainKey.counter (Chain.chainKey chain) + 1))
          (chain_step kk chain)))
    (SessionEntry.set_lastAccessed now s).

(** The type and the body that [encrypt] returns for a frame. *)
Definition wrapped (st : Storage) (ourIdentityKey : KeyPair)
  (s : SessionEntry.t) (frame : bytes) : Z * bytes :=
  match SessionEntry.pendingPreKey s with
  | Some pending =>
    (3, x33 :: PreKeyWhisperMessage_encode
          {| PreKeyWhisperMessage.identityKey := pubKey ourIdentityKey;
             PreKeyWhisperMessage.registrationId := getOurRegistrationId st;
             PreKeyWhisperMessage.baseKey := PendingPreKey.baseKey pending;
             PreKeyWhisperMessage.signedPreKeyId := PendingPreKey.signedKeyId pending;
             PreKeyWhisperMessage.preKeyId := truthy_id (PendingPreKey.preKeyId pending);
             PreKeyWhisperMessage.message := frame |})
  | None => (1, frame)
  end.

(** The identity key pair that [getOurIdentityKey] resolves to. *)
Definition our_identity (st : Storage) (w : state) : KeyPair :=
  match ourIdentityKey w with
  | Some k => k
  | None => getOurIdentity st
  end.

(** [getRecord()] answers from the cache: a record is cached and less than
    a second has passed since it was loaded or stored. *)
Definition cache_hit (now : Z) (w : state) : bool :=
  match _cachedRecord w with
  | Some _ => now - _lastRecordUpdate w <? 1000
  | None => false
  end.

(** The record that [getRecord()] hands to a job that starts at [now]:
    the cached one, or else the one that storage loads. *)
Definition served (st : Storage) (now : Z) (w : state)
  : option SessionRecord.t :=
  if cache_hit now w then _cachedRecord w
  else match loadSession st with
       | Ok (LoadedRecord r) => Some r
       | _ => None
       end.

(** [w1] is [w] but for the cache of the record and its two counters. *)
Definition same_cipher (w w1 : state) : Prop :=
  addr_id w1 = addr_id w /\ ourIdentityKey w1 = ourIdentityKey w /\
  lastUsedCounter w1 = lastUsedCounter w /\
  encryptCount w1 = encryptCount w /\ decryptCount w1 = decryptCount w /\
  engine w1 = engine w /\ storeSession_log w1 = storeSession_log w.

(** The frame that [out] returns holds the encoding of [msg]. *)
Definition carries (out : encrypted) (msg : WhisperMessage.t) : Prop :=
  exists mac, length mac = 8%nat /\
    let frame := [x33] ++ WhisperMessage_encode msg ++ mac in
    (type out = 1 /\ body out = frame) \/
    (type out = 3 /\
     exists pk, body out = x33 :: PreKeyWhisperMessage_encode pk /\
                PreKeyWhisperMessage.message pk = frame).

(** The root key and the chain key that a ratchet step derives from a
    shared secret. *)
Definition ratchet_keys (sharedSecret rootKey : bytes) : bytes * bytes :=
  let PRK := hmac_sha256 rootKey sharedSecret in
  let T1 := spec_T1 PRK (Buffer_from_string "WhisperRatchet") in
  (T1, spec_T PRK T1 (Buffer_from_string "WhisperRatchet") x02).

(** The chain that a ratchet step files. *)
Definition fresh_chain (ty : ChainType) (key : bytes) : Chain.t :=
  {| Chain.messageKeys := ∅;
     Chain.chainKey := {| ChainKey.counter := -1; ChainKey.key := Some key |};
     Chain.chainType := ty |}.

(** The sending end [sA] (identity [ourA], sending chain [chainA]) and the
    receiving end [sB] (storage [stB], receiving chain [chainB]) of one
    ratchet: each holds the identity key of the other, and the two chains,
    filed under the sender's ephemeral key, are at the same chain key. *)
Definition peers (ourA : KeyPair) (sA : SessionEntry.t) (chainA : Chain.t)
  (stB : Storage) (sB : SessionEntry.t) (chainB : Chain.t) : Prop :=
  let ourPub :=
    pubKey (Ratchet.ephemeralKeyPair (SessionEntry.currentRatchet sA)) in
  IndexInfo.remoteIdentityKey (SessionEntry.indexInfo sB) = pubKey ourA /\
  pubKey (getOurIdentity stB) =
    IndexInfo.remoteIdentityKey (SessionEntry.indexInfo sA) /\
  length (pubKey ourA) = 33%nat /\
  length (IndexInfo.remoteIdentityKey (SessionEntry.indexInfo sA)) = 33%nat /\
  SessionEntry._chains sA !! ourPub = Some chainA /\
  SessionEntry._chains sB !! ourPub = Some chainB /\
  Chain.chainType chainB = RECEIVING /\
  Chain.chainKey chainB = Chain.chainKey chainA.

End Frames.

(** ** The batch queue and the stored form *)

Section Stored.
Import SessionRecord SessionRecordBatch.

(** The operations that wait in the queue or were counted when the queue
    was processed. *)
Definition queue_total (r : t) : Z :=
  Z.of_nat (length (_batchOperations r)) +
  batchOperations (_performanceMetrics (base r)).

Definition queue_below (r : t) : Prop :=
  Z.of_nat (length (_batchOperations r)) < _batchSize r.

(** No chain of the entry has the empty buffer as its chain key. *)
Definition keys_not_empty (s : SessionEntry.t) : Prop :=
  forall k c, SessionEntry._chains s !! k = Some c ->
    ChainKey.key (Chain.chainKey c) <> Some [].

(** An entry that [deserialize] reads back as it was written. *)
Definition reads_back (s : SessionEntry.t) : Prop :=
  keys_not_empty s /\
  SessionEntry._lastAccessed s <> 0 /\
  (SessionEntry._chainCount s = 0 -> SessionEntry._chains s = ∅).

End Stored.

(** ** Sample runs and the sentences they refute *)

Section Samples.
Import SessionRecord SessionCipher.

(** The sample session is handed the sample frame with MAC [mac]. *)
Definition sample_run (mac : bytes) : result bytes * SessionEntry.t :=
  @doDecryptWhisperMessage Sample.primitives Sample.protobufs
    (Sample.storage true) 20 Sample.identity (Sample.frame mac)
    (Sample.session (-1) (Some 1)).

(** C1 as the specification states it: after a MAC failure the message key
    of the frame's counter is still in the chain, and the unmodified frame
    (any frame with the same header that the session would have decrypted)
    decrypts. *)
Definition mac_failure_keeps_key_as_stated : Prop :=
  forall (P : Primitives) (PB : Protobufs) (st : Storage) (now : Z)
    (fresh : KeyPair) (messageBuffer : bytes) (s s' : SessionEntry.t)
    (message : WhisperMessage.t),
    header messageBuffer = Some message ->
    doDecryptWhisperMessage st now fresh messageBuffer s =
      (Err Crypto.mac_failure, s') ->
    (exists chain,
       SessionEntry._chains s' !! WhisperMessage.ephemeralKey message =
         Some chain /\
       is_Some (Chain.messageKeys chain !! WhisperMessage.counter message)) /\
    (forall unmodified plaintext,
       header unmodified = Some message ->
       fst (doDecryptWhisperMessage st now fresh unmodified s) = Ok plaintext ->
       fst (doDecryptWhisperMessage st now fresh unmodified s') = Ok plaintext).


(** A cipher whose record holds the sample session, open, as "s0". *)
Definition sample_state : state :=
  Sample.cipher (Some (Sample.record [("s0", Sample.session (-1) (Some 1))])).



(** Two [encrypt] calls in a row on the sample cipher, 10 ms apart. *)
Definition sample_encrypt1 : result encrypted * state :=
  @encrypt Sample.primitives Sample.protobufs (Sample.storage true) 20
    [x68; x69] sample_state.

Definition sample_encrypt2 : result encrypted * state :=
  @encrypt Sample.primitives Sample.protobufs (Sample.storage true) 30
    [x68; x69] (snd sample_encrypt1).

(** The two ends of a ratchet step.  The sender has drawn the ephemeral key
    pair (0x44, 0x46), the receiver holds (0x44 0x45, 0x45 0x46): with the
    sample agreement either private key and the other public key give the
    secret 0x44 0x45 0x46 0x00 ...  Neither session has a chain under the
    sender's key 0x44. *)
Definition sample_sender : SessionEntry.t :=
  SessionEntry.set_currentRatchet
    (fun r =>
       {| Ratchet.ephemeralKeyPair := {| pubKey := [x44]; privKey := [x46] |};
          Ratchet.lastRemoteEphemeralKey := [x44; x45];
          Ratchet.previousCounter := Ratchet.previousCounter r;
          Ratchet.rootKey := Ratchet.rootKey r |})
    (Sample.session (-1) (Some 1)).

Definition sample_receiver : SessionEntry.t :=
  SessionEntry.set_currentRatchet
    (fun r =>
       {| Ratchet.ephemeralKeyPair :=
            {| pubKey := [x44; x45]; privKey := [x45; x46] |};
          Ratchet.lastRemoteEphemeralKey :=
            Ratchet.lastRemoteEphemeralKey r;
          Ratchet.previousCounter := Ratchet.previousCounter r;
          Ratchet.rootKey := Ratchet.rootKey r |})
    Sample.peer_session.

(** A new cipher and a storage that keeps the persisted form of the sample
    record. *)
Definition sample_persisted : Persisted.t :=
  {| Persisted.cipher := Sample.cipher None;
     Persisted.caches := ∅;
     Persisted.document :=
       fst (@Persisted.keep Sample.base64
              (Sample.record [("s0", Sample.session (-1) (Some 1))]) ∅) |}.

(** Three [encrypt] calls in a row on that cipher: the second less than a
    second after the first, the third more than a second after the
    second. *)
Definition persisted_encrypt (now : Z) (v : Persisted.t)
  : result encrypted * Persisted.t :=
  @Persisted.encrypt Sample.primitives Sample.protobufs Sample.base64
    (Sample.storage true) now [x68; x69] v.

Definition persisted_encrypt1 : result encrypted * Persisted.t :=
  persisted_encrypt 5000 sample_persisted.

Definition persisted_encrypt2 : result encrypted * Persisted.t :=
  persisted_encrypt 5500 (snd persisted_encrypt1).

Definition persisted_encrypt3 : result encrypted * Persisted.t :=
  persisted_encrypt 7000 (snd persisted_encrypt2).

(** The counter of the message in the frame that [encrypt] returned. *)
Definition sent_counter (res : result encrypted) : option Z :=
  match res with
  | Ok out =>
    WhisperMessage.counter <$> @header Sample.protobufs (body out)
  | Err _ => None
  end.

End Samples.

End Spec.

Import Spec.

(** * Properties *)

(** ** fillMessageKeys *)

Module FillMessageKeys.
Import SessionCipher.

Section WithPrimitives.
Context `{Primitives}.

Lemma fillMessageKeys_unfold counter chain :
  fillMessageKeys counter chain =
  if Z_ge_dec (ChainKey.counter (Chain.chainKey chain)) counter
  then (Ok tt, chain)
  else if Z_gt_dec (counter - ChainKey.counter (Chain.chainKey chain)) 2000
  then (Err (SessionError "Over 2000 messages into the future!"), chain)
  else match ChainKey.key (Chain.chainKey chain) with
       | None => (Err (SessionError "Chain closed"), chain)
       | Some k => fillMessageKeys counter (chain_step k chain)
       end.
Proof.
  simp fillMessageKeys.
  destruct (Z_ge_dec _ _); simpl; [reflexivity|].
  destruct (Z_gt_dec _ _); simpl; [reflexivity|].
  destruct (ChainKey.key _); reflexivity.
Qed.

(** A chain that has reached the target is left alone. *)
Lemma fillMessageKeys_reached counter chain :
  ChainKey.counter (Chain.chainKey chain) >= counter ->
  fillMessageKeys counter chain = (Ok tt, chain).
Proof.
  intros Hge. rewrite fillMessageKeys_unfold.
  destruct (Z_ge_dec _ _); [reflexivity | lia].
Qed.

Lemma iter_counter n c k m :
  fst (fst (Nat.iter n spec_chainKeyStep (c, k, m))) = c + Z.of_nat n.
Proof.
  induction n as [|n IH].
  - simpl. lia.
  - rewrite Nat.iter_succ.
    destruct (Nat.iter n spec_chainKeyStep (c, k, m)) as [[c' k'] m'].
    simpl in *. lia.
Qed.

Lemma fillMessageKeys_iter n : forall counter chain k,
  ChainKey.key (Chain.chainKey chain) = Some k ->
  counter - ChainKey.counter (Chain.chainKey chain) = Z.of_nat n ->
  Z.of_nat n <= 2000 ->
  exists chain',
    fillMessageKeys counter chain = (Ok tt, chain') /\
    chain_view chain' =
      some_key (Nat.iter n spec_chainKeyStep
                  (ChainKey.counter (Chain.chainKey chain), k,
                   Chain.messageKeys chain)) /\
    Chain.chainType chain' = Chain.chainType chain.
Proof.
  induction n as [|n IH]; intros counter chain k Hk Hn Hmax.
  - exists chain. rewrite fillMessageKeys_unfold.
    destruct (Z_ge_dec _ _); [|lia].
    unfold chain_view. rewrite Hk. simpl. auto.
  - rewrite fillMessageKeys_unfold.
    destruct (Z_ge_dec _ _); [lia|].
    destruct (Z_gt_dec _ _); [lia|].
    rewrite Hk.
    destruct (IH counter (chain_step k chain) (hmac_sha256 k [x02]))
      as (chain' & Hrun & Hview & Hty).
    + reflexivity.
    + simpl. lia.
    + lia.
    + exists chain'. split; [exact Hrun|].
      split; [|exact Hty].
      rewrite Hview. rewrite Nat.iter_succ_r. reflexivity.
Qed.

(** C2. The [fillMessageKeys] that the class ends up with (the second
    definition) runs the single-byte-HMAC schedule: on a chain with key [k]
    whose counter is below the target by at most 2000, it returns normally,
    the chain is the result of iterating the specification's chain key step
    (seed HMAC(key, 0x01) stored under counter+1, key replaced by
    HMAC(key, 0x02), counter + 1) exactly target - counter times, and the
    counter then equals the target. *)
Theorem fillMessageKeys_schedule (counter : Z) (chain : Chain.t) (k : bytes) :
  ChainKey.key (Chain.chainKey chain) = Some k ->
  ChainKey.counter (Chain.chainKey chain) < counter ->
  counter - ChainKey.counter (Chain.chainKey chain) <= 2000 ->
  exists chain',
    fillMessageKeys counter chain = (Ok tt, chain') /\
    chain_view chain' =
      some_key (Nat.iter
                  (Z.to_nat (counter - ChainKey.counter (Chain.chainKey chain)))
                  spec_chainKeyStep
                  (ChainKey.counter (Chain.chainKey chain), k,
                   Chain.messageKeys chain)) /\
    ChainKey.counter (Chain.chainKey chain') = counter /\
    Chain.chainType chain' = Chain.chainType chain.
Proof.
  intros Hk Hlt Hmax.
  destruct (fillMessageKeys_iter
              (Z.to_nat (counter - ChainKey.counter (Chain.chainKey chain)))
              counter chain k Hk) as (chain' & Hrun & Hview & Hty);
    [lia | lia |].
  exists chain'. repeat split; try assumption.
  pose proof (iter_counter
                (Z.to_nat (counter - ChainKey.counter (Chain.chainKey chain)))
                (ChainKey.counter (Chain.chainKey chain)) k
                (Chain.messageKeys chain)) as Hc.
  unfold chain_view in Hview.
  destruct (Nat.iter _ _ _) as [[c' k'] m'].
  simpl in *. inversion Hview; subst. lia.
Qed.

End WithPrimitives.

Lemma fillMessageKeys_schedule_witness :
  exists chain',
    @fillMessageKeys Sample.primitives 2
      (Sample.chain RECEIVING (Some Sample.zeros32)) = (Ok tt, chain') /\
    ChainKey.counter (Chain.chainKey chain') = 2.
Proof.
  destruct (@fillMessageKeys_schedule Sample.primitives 2
              (Sample.chain RECEIVING (Some Sample.zeros32)) Sample.zeros32)
    as (chain' & Hrun & _ & Hc & _);
    [reflexivity | simpl; lia | simpl; lia |].
  exists chain'. split; assumption.
Defined.

End FillMessageKeys.

Module FillMessageKeysGuards.
Import SessionCipher FillMessageKeys.

(** C8, counterexample: on a closed chain at counter -1 and target 2500 the
    distance check comes first, and the error is "Over 2000 messages into the
    future!", not "Chain closed". *)
Lemma guards_as_stated_fails : ~ guards_as_stated.
Proof.
  intros Hc.
  destruct (Hc Sample.primitives 2500 (Sample.chain RECEIVING None))
    as (_ & _ & Hclosed).
  specialize (Hclosed eq_refl ltac:(simpl; lia)).
  rewrite fillMessageKeys_unfold in Hclosed. simpl in Hclosed.
  discriminate Hclosed.
Qed.

(** C8, amended. [fillMessageKeys] returns with the chain unchanged when the
    counter has reached the target; it fails with [SessionError] ("Over 2000
    messages into the future!") when the target is more than 2000 ahead; and
    it fails with [SessionError("Chain closed")] when the key has been erased
    and the counter is behind the target by at most 2000.  In both failures
    the chain is unchanged. *)
Theorem fillMessageKeys_guards `{Primitives} (counter : Z) (chain : Chain.t) :
  (ChainKey.counter (Chain.chainKey chain) >= counter ->
   fillMessageKeys counter chain = (Ok tt, chain)) /\
  (counter - ChainKey.counter (Chain.chainKey chain) > 2000 ->
   fillMessageKeys counter chain =
     (Err (SessionError "Over 2000 messages into the future!"), chain)) /\
  (ChainKey.key (Chain.chainKey chain) = None ->
   ChainKey.counter (Chain.chainKey chain) < counter ->
   counter - ChainKey.counter (Chain.chainKey chain) <= 2000 ->
   fillMessageKeys counter chain = (Err (SessionError "Chain closed"), chain)).
Proof.
  repeat split; intros.
  - apply fillMessageKeys_reached. assumption.
  - rewrite fillMessageKeys_unfold. destruct (Z_ge_dec _ _); [lia|].
    destruct (Z_gt_dec _ _); [reflexivity | lia].
  - rewrite fillMessageKeys_unfold.
    destruct (Z_ge_dec _ _); [lia|].
    destruct (Z_gt_dec _ _); [lia|].
    match goal with Hk : ChainKey.key _ = None |- _ => rewrite Hk end.
    reflexivity.
Qed.

Lemma fillMessageKeys_guards_witness :
  @fillMessageKeys Sample.primitives 0 (Sample.chain RECEIVING None) =
    (Err (SessionError "Chain closed"), Sample.chain RECEIVING None) /\
  @fillMessageKeys Sample.primitives 2500 (Sample.chain RECEIVING None) =
    (Err (SessionError "Over 2000 messages into the future!"),
     Sample.chain RECEIVING None) /\
  @fillMessageKeys Sample.primitives (-1) (Sample.chain RECEIVING None) =
    (Ok tt, Sample.chain RECEIVING None).
Proof.
  pose proof (@fillMessageKeys_guards Sample.primitives 0
                (Sample.chain RECEIVING None)) as (_ & _ & H0).
  pose proof (@fillMessageKeys_guards Sample.primitives 2500
                (Sample.chain RECEIVING None)) as (_ & H1 & _).
  pose proof (@fillMessageKeys_guards Sample.primitives (-1)
                (Sample.chain RECEIVING None)) as (H2 & _ & _).
  split; [apply H0; [reflexivity | simpl; lia | simpl; lia]|].
  split; [apply H1; simpl; lia | apply H2; simpl; lia].
Defined.

End FillMessageKeysGuards.

(** ** HKDF: crypto.js [deriveSecrets] *)

Module Hkdf.

Lemma buffer_set_prefix (p rest src : bytes) :
  length src = length p ->
  buffer_set (p ++ rest) src 0 = Ok (src ++ rest).
Proof.
  intros Hlen. unfold buffer_set.
  rewrite length_app. simpl.
  destruct (Nat.leb_spec (length src) (length p + length rest)%nat); [|exfalso; lia].
  rewrite Hlen, drop_app_length. reflexivity.
Qed.

Lemma buffer_set_zeros (info : bytes) (n : nat) :
  buffer_set (Buffer_alloc (length info + 1 + n)) info n =
    Ok (Buffer_alloc n ++ info ++ [x00]).
Proof.
  unfold buffer_set, Buffer_alloc.
  rewrite repeat_length.
  destruct (Nat.leb_spec (n + length info)%nat (length info + 1 + n)%nat). 2:{ exfalso; lia. }
  f_equal.
  assert ((length info + 1 + n)%nat = (n + (length info + 1))%nat) as Hq. { lia. } rewrite Hq.
  rewrite repeat_app.
  rewrite take_app_length'; [|by rewrite repeat_length].
  f_equal. f_equal.
  rewrite drop_app_ge; rewrite repeat_length; [|lia].
  replace (n + length info - n)%nat with (length info) by lia.
  rewrite repeat_app. rewrite drop_app_length'; [|by rewrite repeat_length].
  reflexivity.
Qed.

Lemma buffer_put_last (a : bytes) (x : byte) (v : Z) :
  buffer_put (a ++ [x]) (length (a ++ [x]) - 1) v = a ++ [byte_of_Z v].
Proof.
  unfold buffer_put. rewrite length_app. simpl.
  replace (length a + 1 - 1)%nat with (length a + 0)%nat by lia.
  rewrite insert_app_r. reflexivity.
Qed.

Lemma buffer_put_last3 (t info : bytes) (x : byte) (v : Z) :
  buffer_put (t ++ info ++ [x]) (length (t ++ info ++ [x]) - 1) v =
    t ++ info ++ [byte_of_Z v].
Proof. rewrite (app_assoc t info [x]), buffer_put_last, <- app_assoc. reflexivity. Qed.

Section WithPrimitives.
Context `{Primitives}.

Lemma deriveSecrets_hkdf input salt info chunks :
  length salt = 32%nat -> 1 <= chunks <= 3 ->
  Crypto.deriveSecrets input salt info (Some chunks) =
    Ok (spec_hkdf input salt info chunks).
Proof.
  intros Hsalt Hc. unfold Crypto.deriveSecrets.
  rewrite Hsalt. simpl negb. cbv iota.
  destruct (Z.eqb_spec chunks 0); [lia|].
  replace ((chunks >=? 1) && (chunks <=? 3)) with true
    by (symmetry; apply andb_true_iff; split; lia).
  simpl negb. cbv iota.
  rewrite (buffer_set_zeros info 32).
  rewrite (app_assoc _ info [x00]), buffer_put_last, <- app_assoc.
  unfold slice_from. rewrite drop_app_length'; [|reflexivity].
  unfold Crypto.calculateMAC. cbn [List.last].
  assert (chunks = 1 \/ chunks = 2 \/ chunks = 3) as [->|[->| ->]] by lia;
    cbn [Z.gtb Z.compare Pos.compare Pos.compare_cont].
  - reflexivity.
  - rewrite buffer_set_prefix
      by (rewrite hmac_sha256_length; reflexivity).
    rewrite buffer_put_last3.
    reflexivity.
  - rewrite buffer_set_prefix
      by (rewrite hmac_sha256_length; reflexivity).
    rewrite buffer_put_last3.
    cbn [app List.last].
    rewrite buffer_set_prefix
      by (rewrite !hmac_sha256_length; reflexivity).
    rewrite buffer_put_last3.
    reflexivity.
Qed.
End WithPrimitives.
End Hkdf.

(** ** The keys of the memoization map *)

Module EngineKeys.
Import CryptoEngine.

Lemma hex_value_digit (n : N) : (n < 16)%N -> hex_value (hex_digit n) = n.
Proof.
  intros Hn. destruct n as [|p]; [reflexivity|].
  do 4 (destruct p as [p|p|]; try reflexivity); exfalso; lia.
Qed.

Lemma hex_digit_not_bar (n : N) : hex_digit n <> "|"%char.
Proof.
  destruct n as [|p]; [discriminate|].
  do 4 (destruct p as [p|p|]; try discriminate).
Qed.

Lemma byte_nibbles_inj (x y : byte) :
  hex_digit (Byte.to_N x / 16) = hex_digit (Byte.to_N y / 16) ->
  hex_digit (Byte.to_N x mod 16) = hex_digit (Byte.to_N y mod 16) ->
  x = y.
Proof.
  intros Hhi Hlo.
  pose proof (Byte.to_N_bounded x) as Hx.
  pose proof (Byte.to_N_bounded y) as Hy.
  apply (f_equal hex_value) in Hhi, Hlo.
  rewrite !hex_value_digit in Hhi, Hlo
    by (try apply N.mod_lt; try apply N.Div0.div_lt_upper_bound; lia).
  assert (Byte.to_N x = Byte.to_N y) as Heq.
  { rewrite (N.div_mod (Byte.to_N x) 16), (N.div_mod (Byte.to_N y) 16) by lia.
    congruence. }
  apply (f_equal Byte.of_N) in Heq. rewrite !Byte.of_to_N in Heq.
  congruence.
Qed.

(** A hex rendering ends at the first bar. *)
Lemma hex_split (a b : bytes) (r1 r2 : string) :
  toString_hex a +:+ "|" +:+ r1 = toString_hex b +:+ "|" +:+ r2 ->
  a = b /\ r1 = r2.
Proof.
  revert b. induction a as [|x a IH]; intros [|y b] Heq; simpl in Heq.
  - injection Heq as Heq. auto.
  - injection Heq as Hc _. symmetry in Hc. destruct (hex_digit_not_bar _ Hc).
  - injection Heq as Hc _. destruct (hex_digit_not_bar _ Hc).
  - injection Heq as Hhi Hlo Hrest.
    destruct (IH b Hrest) as [-> ->].
    rewrite (byte_nibbles_inj x y Hhi Hlo). auto.
Qed.

Lemma mac_key_inj (k d k' d' : bytes) :
  _generateCacheKey "mac" [PBuffer k; PBuffer d] =
  _generateCacheKey "mac" [PBuffer k'; PBuffer d'] ->
  k = k' /\ d = d'.
Proof.
  unfold _generateCacheKey. simpl. intros Heq.
  injection Heq as Heq.
  apply hex_split in Heq as [-> Hd].
  split; [reflexivity|].
  assert (toString_hex d +:+ "|" +:+ "" = toString_hex d' +:+ "|" +:+ "") as Hd'
    by (rewrite Hd; reflexivity).
  apply hex_split in Hd' as [-> _]. reflexivity.
Qed.

Lemma derive_key_inj (i s f i' s' f' : bytes) (c c' : Z) :
  _generateCacheKey "derive" [PBuffer i; PBuffer s; PBuffer f; PNumber c] =
  _generateCacheKey "derive" [PBuffer i'; PBuffer s'; PBuffer f'; PNumber c'] ->
  i = i' /\ s = s' /\ f = f' /\ c = c'.
Proof.
  unfold _generateCacheKey. simpl. intros Heq.
  injection Heq as Heq.
  apply hex_split in Heq as [-> Heq].
  apply hex_split in Heq as [-> Heq].
  apply hex_split in Heq as [-> Heq].
  apply (inj pretty) in Heq. auto.
Qed.

Lemma mac_key_not_derive (k d i s f : bytes) (c : Z) :
  _generateCacheKey "mac" [PBuffer k; PBuffer d] <>
  _generateCacheKey "derive" [PBuffer i; PBuffer s; PBuffer f; PNumber c].
Proof. unfold _generateCacheKey. simpl. discriminate. Qed.

End EngineKeys.

(** ** The memoization of crypto_engine.js *)

Module EngineMemo.
Import CryptoEngine EngineKeys Hkdf.

Section WithPrimitives.
Context `{Primitives}.

Lemma cache_ok_new : cache_ok new_Engine.
Proof. split; intros *; simpl; rewrite lookup_empty; discriminate. Qed.

Lemma cache_ok_set_mac e key data :
  cache_ok e ->
  cache_ok {| _memoCache :=
                <[_generateCacheKey "mac" [PBuffer key; PBuffer data] :=
                    MemoBuffer (hmac_sha256 key data)]> (_memoCache e);
              _maxCacheSize := _maxCacheSize e |}.
Proof.
  intros [Hmac Hder]. split; simpl.
  - intros key' data' v. rewrite lookup_insert. case_decide as Heq.
    + apply mac_key_inj in Heq as [-> ->]. congruence.
    + apply Hmac.
  - intros input salt info chunks v. rewrite lookup_insert.
    case_decide as Heq.
    + destruct (mac_key_not_derive _ _ _ _ _ _ Heq).
    + apply Hder.
Qed.

Lemma cache_ok_set_derive e input salt info chunks :
  cache_ok e ->
  cache_ok {| _memoCache :=
                <[_generateCacheKey "derive"
                    [PBuffer input; PBuffer salt; PBuffer info; PNumber chunks] :=
                    MemoArray (spec_hkdf input salt info chunks)]> (_memoCache e);
              _maxCacheSize := _maxCacheSize e |}.
Proof.
  intros [Hmac Hder]. split; simpl.
  - intros key' data' v. rewrite lookup_insert. case_decide as Heq.
    + symmetry in Heq. destruct (mac_key_not_derive _ _ _ _ _ _ Heq).
    + apply Hmac.
  - intros input' salt' info' chunks' v. rewrite lookup_insert.
    case_decide as Heq.
    + apply derive_key_inj in Heq as (-> & -> & -> & ->). congruence.
    + apply Hder.
Qed.

(** Memoization is transparent: the engine's [calculateMAC] returns the
    digest and keeps the map consistent. *)
Lemma calculateMAC_ok e key data :
  cache_ok e ->
  exists e', calculateMAC key data e = (Ok (hmac_sha256 key data), e') /\
             cache_ok e'.
Proof.
  intros Hok. unfold calculateMAC, bind, get.
  destruct ((length key =? CONSTANTS.KEY_SIZES.MAC)%nat && (length data <? 1024)%nat).
  - destruct (_memoCache e !! _) as [v|] eqn:Hv.
    + rewrite (proj1 Hok _ _ _ Hv).
      exists e. split; [reflexivity | exact Hok].
    + eexists. split; [reflexivity|]. apply cache_ok_set_mac, Hok.
  - exists e. split; [reflexivity | exact Hok].
Qed.

Lemma expand_loop_unfold PRK chunks i infoArray signed :
  expand_loop PRK chunks i infoArray signed =
  if Z_le_dec i chunks then
    (let* infoArray := lift_result (buffer_set infoArray (List.last signed []) 0) in
     let infoArray := buffer_put infoArray (length infoArray - 1) i in
     let* t := calculateMAC PRK infoArray in
     expand_loop PRK chunks (i + 1) infoArray (signed ++ [t]))
  else ret signed.
Proof.
  simp expand_loop. destruct (Z_le_dec i chunks); reflexivity.
Qed.

Lemma expand_loop_hkdf e PRK info chunks :
  cache_ok e -> 1 <= chunks <= 3 ->
  exists e',
    expand_loop PRK chunks 2 (Buffer_alloc 32 ++ info ++ [x01])
      [spec_T1 PRK info] e =
      (Ok (take (Z.to_nat chunks)
             [spec_T1 PRK info;
              spec_T PRK (spec_T1 PRK info) info x02;
              spec_T PRK (spec_T PRK (spec_T1 PRK info) info x02) info x03]),
       e') /\
    cache_ok e'.
Proof.
  intros Hok Hc.
  assert (chunks = 1 \/ chunks = 2 \/ chunks = 3) as [->|[->| ->]] by lia.
  - rewrite expand_loop_unfold. destruct (Z_le_dec 2 1); [lia|].
    exists e. auto.
  - rewrite expand_loop_unfold. destruct (Z_le_dec 2 2); [|lia].
    unfold bind at 1. unfold lift_result at 1. cbn [List.last].
    rewrite buffer_set_prefix by apply hmac_sha256_length.
    rewrite buffer_put_last3. unfold bind at 1.
    destruct (calculateMAC_ok e PRK (spec_T1 PRK info ++ info ++ [byte_of_Z 2]) Hok)
      as (e1 & -> & Hok1).
    rewrite expand_loop_unfold. destruct (Z_le_dec (2 + 1) 2); [lia|].
    exists e1. auto.
  - rewrite expand_loop_unfold. destruct (Z_le_dec 2 3); [|lia].
    unfold bind at 1. unfold lift_result at 1. cbn [List.last].
    rewrite buffer_set_prefix by apply hmac_sha256_length.
    rewrite buffer_put_last3. unfold bind at 1.
    destruct (calculateMAC_ok e PRK (spec_T1 PRK info ++ info ++ [byte_of_Z 2]) Hok)
      as (e1 & -> & Hok1).
    rewrite expand_loop_unfold. destruct (Z_le_dec (2 + 1) 3); [|lia].
    unfold bind at 1. unfold lift_result at 1. cbn [List.last app].
    rewrite buffer_set_prefix
      by (unfold spec_T1; rewrite !hmac_sha256_length; reflexivity).
    rewrite buffer_put_last3. unfold bind at 1.
    destruct (calculateMAC_ok e1 PRK
                (hmac_sha256 PRK (spec_T1 PRK info ++ info ++ [byte_of_Z 2]) ++
                 info ++ [byte_of_Z (2 + 1)]) Hok1)
      as (e2 & -> & Hok2).
    rewrite expand_loop_unfold. destruct (Z_le_dec (2 + 1 + 1) 3); [lia|].
    exists e2. auto.
Qed.

(** The engine's [deriveSecrets] computes the HKDF blocks of the
    specification, from the map or afresh, and keeps the map consistent. *)
Lemma deriveSecrets_ok e input salt info chunks c :
  cache_ok e ->
  length salt = 32%nat ->
  (chunks = None /\ c = 3) \/ (chunks = Some c /\ 1 <= c <= 3) ->
  exists e',
    deriveSecrets input salt info chunks e =
      (Ok (spec_hkdf input salt info c), e') /\
    cache_ok e'.
Proof.
  intros Hok Hsalt Hc.
  assert (1 <= c <= 3) as Hrange by (destruct Hc as [[_ ->]|[_ ?]]; lia).
  unfold deriveSecrets.
  replace (match chunks with
           | Some c0 => c0
           | None => CONSTANTS.MESSAGE_KEYS.HKDF_CHUNKS
           end) with c
    by (destruct Hc as [[-> ->]|[-> _]]; reflexivity).
  unfold ValidationUtils.assertBufferLength. rewrite Hsalt.
  change (negb (32 =? CONSTANTS.KEY_SIZES.SALT)%nat) with false. cbv iota.
  unfold bind at 1. unfold lift_result at 1.
  replace ((c <? 1) || (c >? CONSTANTS.MESSAGE_KEYS.MAX_HKDF_CHUNKS)) with false
    by (symmetry; apply orb_false_iff; unfold CONSTANTS.MESSAGE_KEYS.MAX_HKDF_CHUNKS; lia).
  unfold bind at 1. unfold get at 1.
  destruct (_memoCache e !! _) as [v|] eqn:Hv.
  - rewrite (proj2 Hok _ _ _ _ _ Hv). exists e. split; [reflexivity | exact Hok].
  - unfold bind at 1.
    destruct (calculateMAC_ok e salt input Hok) as (e1 & -> & Hok1).
    unfold CONSTANTS.KEY_SIZES.MAC.
    rewrite (buffer_set_zeros info 32).
    unfold bind at 1. unfold lift_result at 1.
    rewrite buffer_put_last3.
    unfold slice_from. rewrite drop_app_length' by reflexivity.
    unfold bind at 1.
    destruct (calculateMAC_ok e1 (hmac_sha256 salt input) (info ++ [byte_of_Z 1]) Hok1)
      as (e2 & -> & Hok2).
    unfold bind at 1.
    destruct (expand_loop_hkdf e2 (hmac_sha256 salt input) info c Hok2 Hrange)
      as (e3 & Hloop & Hok3).
    change (byte_of_Z 1) with x01.
    change (hmac_sha256 (hmac_sha256 salt input) (info ++ [x01]))
      with (spec_T1 (hmac_sha256 salt input) info).
    rewrite Hloop.
    unfold bind, get, ret, memo_set, modify.
    destruct (size (_memoCache e3) <? _maxCacheSize e3)%nat.
    + eexists. split; [reflexivity|].
      apply (cache_ok_set_derive e3 input salt info c Hok3).
    + exists e3. split; [reflexivity | exact Hok3].
Qed.

Lemma engine_deriveSecrets_bad_salt e input salt info chunks :
  length salt <> 32%nat ->
  deriveSecrets input salt info chunks e =
    (Err (TypeError (ValidationUtils.length_message "salt" 32 (length salt))),
     e).
Proof.
  intros Hsalt.
  unfold deriveSecrets, ValidationUtils.assertBufferLength, bind, lift_result.
  destruct (Nat.eqb_spec (length salt) CONSTANTS.KEY_SIZES.SALT) as [Heq|_];
    [destruct (Hsalt Heq) | reflexivity].
Qed.

Lemma engine_deriveSecrets_bad_chunks e input salt info c :
  length salt = 32%nat -> c < 1 \/ c > 3 ->
  deriveSecrets input salt info (Some c) e =
    (Err (JsError "chunks must be between 1 and 3"), e).
Proof.
  intros Hsalt Hc.
  unfold deriveSecrets, ValidationUtils.assertBufferLength, bind, lift_result.
  rewrite Hsalt.
  change (negb (32 =? CONSTANTS.KEY_SIZES.SALT)%nat) with false. cbv iota.
  replace ((c <? 1) || (c >? CONSTANTS.MESSAGE_KEYS.MAX_HKDF_CHUNKS)) with true;
    [reflexivity|].
  symmetry. apply orb_true_iff. unfold CONSTANTS.MESSAGE_KEYS.MAX_HKDF_CHUNKS. lia.
Qed.

End WithPrimitives.
End EngineMemo.

(** ** The replaced definition of fillMessageKeys *)

Module ShadowedFillMessageKeys.
Import SessionCipher Hkdf EngineMemo.

Section WithPrimitives.
Context `{Primitives}.

(** One round of the replaced first definition: the message key filed under
    counter+1 is the array of three HKDF blocks of the chain key, and the
    chain key becomes HMAC(key, 0x01).  The live definition files
    HMAC(key, 0x01) as the seed and steps the key with 0x02
    ([FillMessageKeys.fillMessageKeys_schedule]). *)
Lemma fillMessageKeys_shadowed_round e c k mk :
  cache_ok e ->
  Z.of_nat (size mk) < 2000 ->
  exists e',
    fillMessageKeys_shadowed (c + 1)
      (e, {| Shadowed.counter := c; Shadowed.key := Some k;
             Shadowed.messageKeys := mk |}) =
    (Ok tt,
     (e', {| Shadowed.counter := c + 1;
             Shadowed.key := Some (hmac_sha256 k [x01]);
             Shadowed.messageKeys :=
               <[c + 1 := spec_hkdf k (Buffer_alloc 32)
                            (Buffer_from_string "WhisperMessageKeys") 3]> mk |}))
    /\ cache_ok e'.
Proof.
  intros Hok Hsize.
  unfold fillMessageKeys_shadowed. cbn [snd Shadowed.messageKeys Shadowed.counter Shadowed.key].
  unfold CONSTANTS.SESSION.MAX_MESSAGE_KEYS.
  destruct (Z.geb_spec (Z.of_nat (size mk)) 2000); [lia|].
  destruct (Z.geb_spec c (c + 1)); [lia|].
  destruct (Z.gtb_spec (c + 1 - c) 2000); [lia|].
  simp shadowed_loop. cbn [Shadowed.counter].
  destruct (Z_lt_dec c (c + 1)); [|lia].
  unfold shadowed_loop_unfold_clause_1.
  destruct (deriveSecrets_ok e k (Buffer_alloc 32)
              (Buffer_from_string CONSTANTS.MESSAGE_KEYS.DERIVE_INFO) None 3 Hok)
    as (e1 & Hd & Hok1); [reflexivity | left; auto |].
  rewrite Hd. unfold shadowed_loop_unfold_clause_1_clause_2.
  destruct (calculateMAC_ok e1 k [x01] Hok1) as (e2 & Hm & Hok2).
  rewrite Hm. unfold shadowed_loop_unfold_clause_1_clause_2_clause_2.
  simp shadowed_loop. cbn [Shadowed.counter].
  destruct (Z_lt_dec (c + 1) (c + 1)); [lia|].
  exists e2. split; [reflexivity | exact Hok2].
Qed.

End WithPrimitives.
End ShadowedFillMessageKeys.

(** ** deriveSecrets *)

Module DeriveSecrets.
Import Hkdf EngineMemo.

Section WithPrimitives.
Context `{Primitives}.

(** crypto.js: an omitted [chunks] means three blocks. *)
Lemma deriveSecrets_default input salt info :
  length salt = 32%nat ->
  Crypto.deriveSecrets input salt info None =
    Ok (spec_hkdf input salt info 3).
Proof.
  intros Hsalt.
  rewrite <- (deriveSecrets_hkdf input salt info 3 Hsalt) by lia.
  unfold Crypto.deriveSecrets. rewrite Hsalt. reflexivity.
Qed.

Lemma deriveSecrets_bad_salt input salt info chunks :
  length salt <> 32%nat ->
  Crypto.deriveSecrets input salt info chunks =
    Err (JsError "Got salt of incorrect length").
Proof.
  intros Hsalt. unfold Crypto.deriveSecrets.
  destruct (Nat.eqb_spec (length salt) 32) as [Heq|_];
    [destruct (Hsalt Heq) | reflexivity].
Qed.

Lemma deriveSecrets_bad_chunks input salt info c :
  length salt = 32%nat -> c < 0 \/ c > 3 ->
  Crypto.deriveSecrets input salt info (Some c) = Err AssertionError.
Proof.
  intros Hsalt Hc. unfold Crypto.deriveSecrets. rewrite Hsalt.
  simpl negb. cbv iota.
  destruct (Z.eqb_spec c 0); [exfalso; lia|].
  replace ((c >=? 1) && (c <=? 3)) with false; [reflexivity|].
  symmetry. apply andb_false_iff. lia.
Qed.

(** The part of C6 that holds of both implementations: with a 32-byte salt
    and 1 <= chunks <= 3 they return the HKDF blocks T(1)..T(chunks) of the
    specification (the engine from its map or afresh, given a consistent
    map), and they fail on a salt of another length. *)
Lemma deriveSecrets_blocks input salt info chunks e :
  cache_ok e ->
  (length salt = 32%nat -> 1 <= chunks <= 3 ->
   Crypto.deriveSecrets input salt info (Some chunks) =
     Ok (spec_hkdf input salt info chunks) /\
   length (spec_hkdf input salt info chunks) = Z.to_nat chunks /\
   Forall (fun b => length b = 32%nat) (spec_hkdf input salt info chunks) /\
   exists e',
     CryptoEngine.deriveSecrets input salt info (Some chunks) e =
       (Ok (spec_hkdf input salt info chunks), e') /\ cache_ok e') /\
  (length salt <> 32%nat ->
   is_Ok (Crypto.deriveSecrets input salt info (Some chunks)) = false /\
   is_Ok (fst (CryptoEngine.deriveSecrets input salt info (Some chunks) e)) = false).
Proof.
  intros Hok. split.
  - intros Hsalt Hc. split; [apply deriveSecrets_hkdf; assumption|].
    split; [|split].
    + unfold spec_hkdf. rewrite length_take. simpl. lia.
    + unfold spec_hkdf. apply Forall_take.
      repeat constructor; apply hmac_sha256_length.
    + apply deriveSecrets_ok; auto.
  - intros Hsalt.
    rewrite deriveSecrets_bad_salt, EngineMemo.engine_deriveSecrets_bad_salt by assumption.
    auto.
Qed.

(** C6. At [chunks = 0], outside 1..3, crypto.js's [deriveSecrets] does not
    fail: [chunks || 3] turns the 0 into 3 before the range assertion, and
    the call returns three blocks.  The engine's [deriveSecrets] rejects the
    same call. *)
Theorem deriveSecrets_zero_chunks (input salt info : bytes) :
  length salt = 32%nat ->
  Crypto.deriveSecrets input salt info (Some 0) =
    Ok (spec_hkdf input salt info 3) /\
  forall e,
    CryptoEngine.deriveSecrets input salt info (Some 0) e =
      (Err (JsError "chunks must be between 1 and 3"), e).
Proof.
  intros Hsalt. split.
  - rewrite <- (deriveSecrets_hkdf input salt info 3 Hsalt) by lia.
    unfold Crypto.deriveSecrets. rewrite Hsalt. reflexivity.
  - intros e. apply EngineMemo.engine_deriveSecrets_bad_chunks; [assumption | lia].
Qed.

End WithPrimitives.

Lemma deriveSecrets_zero_chunks_witness :
  length Sample.zeros32 = 32%nat /\
  @Crypto.deriveSecrets Sample.primitives [x01] Sample.zeros32 [x02] (Some 0) =
    Ok (@spec_hkdf Sample.primitives [x01] Sample.zeros32 [x02] 3).
Proof.
  split; [reflexivity|].
  apply (@deriveSecrets_zero_chunks Sample.primitives [x01] Sample.zeros32 [x02]).
  reflexivity.
Defined.

End DeriveSecrets.

(** ** removeOldSessions and haveOpenSession *)

Module RemoveOldSessions.
Import SessionRecord.

Lemma older_inv acc e l :
  oldest_inv acc l -> oldest_inv (older acc e) (l ++ [e]).
Proof.
  intros Hacc. unfold older. fold (closed_of e).
  destruct (Z.eqb_spec (closed_of e) (-1)) as [Hopen|Hclosed]; simpl.
  - destruct acc as [o|]; simpl in *.
    + destruct Hacc as (Hin & Hc & Hmin).
      split; [set_solver|]. split; [assumption|].
      intros e' [Hin'| ->%list_elem_of_singleton]%elem_of_app Hc';
        [auto | contradiction].
    + intros e' [Hin'| ->%list_elem_of_singleton]%elem_of_app;
        [auto | intros Hc; apply Hc, Hopen].
  - destruct acc as [o|]; simpl in *.
    + fold (closed_of o). destruct Hacc as (Hin & Hc & Hmin).
      destruct (Z.ltb_spec (closed_of e) (closed_of o)) as [Hlt|Hge]; simpl.
      * split; [set_solver|]. split; [assumption|].
        intros e' [Hin'| ->%list_elem_of_singleton]%elem_of_app Hc';
          [specialize (Hmin e' Hin' Hc'); lia | lia].
      * split; [set_solver|]. split; [assumption|].
        intros e' [Hin'| ->%list_elem_of_singleton]%elem_of_app Hc';
          [auto | lia].
    + split; [set_solver|]. split; [assumption|].
      intros e' [Hin'| ->%list_elem_of_singleton]%elem_of_app Hc'; [|lia].
      destruct (Hacc e' Hin' Hc').
Qed.

Lemma fold_older_inv rest : forall acc l,
  oldest_inv acc l -> oldest_inv (fold_left older rest acc) (l ++ rest).
Proof.
  induction rest as [|e rest IH]; intros acc l Hacc; simpl.
  - rewrite app_nil_r. exact Hacc.
  - replace (l ++ e :: rest) with ((l ++ [e]) ++ rest)
      by (rewrite <- app_assoc; reflexivity).
    apply IH, older_inv, Hacc.
Qed.

Lemma find_oldest_spec l : oldest_inv (find_oldest l) l.
Proof.
  unfold find_oldest. apply (fold_older_inv l None []).
  intros e' Hin. inversion Hin.
Qed.

Lemma truthy_key_Some o e : truthy_key o = Some e -> o = Some e.
Proof.
  destruct o as [[k s]|]; simpl; [|discriminate].
  destruct (String.eqb k ""); [discriminate | auto].
Qed.

(** *** Deleting an entry *)

Lemma delete_session_subset k (l : list entry) e :
  e ∈ delete_session k l -> e ∈ l.
Proof.
  induction l as [|[k' s'] l IH]; simpl; [auto|].
  destruct (String.eqb k' k); [set_solver|].
  intros [->|Hin]%elem_of_cons; set_solver.
Qed.

Lemma delete_session_keys k (l : list entry) :
  NoDup (map fst l) -> NoDup (map fst (delete_session k l)).
Proof.
  induction l as [|[k' s'] l IH]; simpl; [auto|].
  intros [Hnotin Hnd]%NoDup_cons.
  destruct (String.eqb k' k); [assumption|].
  simpl. apply NoDup_cons. split; [|auto].
  intros Hin. apply Hnotin.
  apply list_elem_of_fmap in Hin as (e & -> & He).
  apply list_elem_of_fmap. exists e. split; [reflexivity|].
  eapply delete_session_subset, He.
Qed.

Lemma delete_session_elem (l : list entry) e x :
  NoDup (map fst l) -> e ∈ l ->
  x ∈ delete_session (fst e) l <-> x ∈ l /\ x <> e.
Proof.
  induction l as [|[k' s'] l IH]; simpl; intros Hnd He.
  - inversion He.
  - apply NoDup_cons in Hnd as [Hnotin Hnd].
    destruct (String.eqb_spec k' (fst e)) as [Hk|Hk].
    + assert (e = (k', s')) as ->.
      { apply elem_of_cons in He as [->|He]; [reflexivity|].
        exfalso. apply Hnotin. apply list_elem_of_fmap.
        exists e. auto. }
      split.
      * intros Hx. split; [apply elem_of_cons; right; exact Hx|]. intros ->.
        apply Hnotin. apply list_elem_of_fmap. exists (k', s'). auto.
      * intros [[->|Hx]%elem_of_cons Hne]; [congruence | assumption].
    + assert (e ∈ l) as He'.
      { apply elem_of_cons in He as [->|He]; [contradiction | assumption]. }
      rewrite elem_of_cons, (IH Hnd He'), elem_of_cons.
      split.
      * intros [->|[Hx Hne]]; [|auto].
        split; [auto|]. intros <-. contradiction.
      * intros [[->|Hx] Hne]; auto.
Qed.

Lemma delete_session_length (l : list entry) e :
  e ∈ l -> length l = S (length (delete_session (fst e) l)).
Proof.
  induction l as [|[k' s'] l IH]; simpl; intros He.
  - inversion He.
  - destruct (String.eqb_spec k' (fst e)) as [Hk|Hk]; [reflexivity|].
    simpl. f_equal. apply IH.
    apply elem_of_cons in He as [->|He]; [contradiction | assumption].
Qed.

(** *** The loop *)

Lemma cleanup_loop_removes fuel : forall st,
  cl_sessions st = sessionEntries st ->
  exists d,
    removes (sessionEntries st) d (sessionEntries (cleanup_loop fuel st)) /\
    cl_sessions (cleanup_loop fuel st) = sessionEntries (cleanup_loop fuel st) /\
    deleted (cleanup_loop fuel st) = deleted st ++ d /\
    removedCount (cleanup_loop fuel st) = removedCount st + Z.of_nat (length d).
Proof.
  induction fuel as [|fuel IH]; intros st Heq; simpl.
  - exists []. rewrite app_nil_r.
    destruct (_ >? _); [destruct (truthy_key _)|]; simpl;
      (split; [apply removes_nil | split; [assumption | split; [reflexivity | simpl; lia]]]).
  - destruct (_ >? _);
      [destruct (truthy_key _) as [oldest|] eqn:Hold|]; simpl.
    2,3: exists []; rewrite app_nil_r;
      (split; [apply removes_nil | split; [assumption | split; [reflexivity | simpl; lia]]]).
    apply truthy_key_Some in Hold.
    pose proof (find_oldest_spec (sessionEntries st)) as Hspec.
    rewrite Hold in Hspec. simpl in Hspec.
    destruct (IH (cleanup_step st oldest)) as (d & Hrem & Hsame & Hdel & Hcount).
    { simpl. rewrite Heq. reflexivity. }
    exists (oldest :: d). split; [|split; [|split]].
    + econstructor; [exact Hspec | exact Hrem].
    + exact Hsame.
    + rewrite Hdel. simpl. rewrite <- app_assoc. reflexivity.
    + rewrite Hcount. simpl removedCount. simpl length. lia.
Qed.

(** The fuel of [run_cleanup] is never used up: more fuel gives the same
    result. *)
Lemma cleanup_loop_fuel fuel : forall st,
  (length (sessionEntries st) <= fuel)%nat ->
  cleanup_loop (S fuel) st = cleanup_loop fuel st.
Proof.
  induction fuel as [|fuel IH]; intros st Hlen.
  - assert (sessionEntries st = []) as Hnil
      by (destruct (sessionEntries st); [reflexivity | simpl in Hlen; lia]).
    simpl. rewrite Hnil. simpl. reflexivity.
  - change (cleanup_loop (S (S fuel)) st) with
      (if Z.of_nat (length (sessionEntries st)) - removedCount st >? CLOSED_SESSIONS_MAX
       then match truthy_key (find_oldest (sessionEntries st)) with
            | Some oldest => cleanup_loop (S fuel) (cleanup_step st oldest)
            | None => st
            end
       else st).
    change (cleanup_loop (S fuel) st) with
      (if Z.of_nat (length (sessionEntries st)) - removedCount st >? CLOSED_SESSIONS_MAX
       then match truthy_key (find_oldest (sessionEntries st)) with
            | Some oldest => cleanup_loop fuel (cleanup_step st oldest)
            | None => st
            end
       else st).
    destruct (_ >? _); [|reflexivity].
    destruct (truthy_key _) as [oldest|] eqn:Hold; [|reflexivity].
    apply IH. simpl.
    apply truthy_key_Some in Hold.
    pose proof (find_oldest_spec (sessionEntries st)) as Hspec.
    rewrite Hold in Hspec. destruct Hspec as (Hin & _).
    rewrite (delete_session_length _ _ Hin) in Hlen. lia.
Qed.

Lemma cleanup_loop_stop fuel st :
  Z.of_nat (length (sessionEntries st)) - removedCount st <= CLOSED_SESSIONS_MAX ->
  cleanup_loop fuel st = st.
Proof.
  intros Hle. destruct fuel; simpl;
    destruct (Z.gtb_spec (Z.of_nat (length (sessionEntries st)) - removedCount st)
                CLOSED_SESSIONS_MAX); try reflexivity; lia.
Qed.

(** *** What a run of deletions guarantees *)

Lemma removes_spec l d l' :
  NoDup (map fst l) -> removes l d l' ->
  (forall e, e ∈ d -> e ∈ l /\ is_closed e) /\
  StronglySorted (fun a b => closed_of a <= closed_of b) d /\
  (forall e, e ∈ l' <-> e ∈ l /\ e ∉ d) /\
  (forall o e, o ∈ d -> e ∈ l' -> is_closed e -> closed_of o <= closed_of e) /\
  NoDup (map fst l').
Proof.
  intros Hnd Hrem. induction Hrem as [l|l e d l' Hold Hrem IH].
  - split; [intros e He; inversion He|].
    split; [constructor|].
    split; [intros e; split; [intros He; split; [auto | intros Hd; inversion Hd] | tauto]|].
    split; [intros o e Ho; inversion Ho | assumption].
  - destruct Hold as (Hin & Hc & Hmin).
    destruct (IH (delete_session_keys _ _ Hnd))
      as (Hd & Hsorted & Hrest & Hleast & Hnd').
    assert (forall x, x ∈ d -> x ∈ l /\ x <> e /\ is_closed x) as Hd'.
    { intros x Hx. destruct (Hd x Hx) as [Hx' Hxc].
      apply (delete_session_elem l e x Hnd Hin) in Hx' as [? ?]. auto. }
    split; [|split; [|split; [|split]]].
    + intros x [->|Hx]%elem_of_cons; [auto|].
      destruct (Hd' x Hx) as (? & ? & ?). auto.
    + constructor; [exact Hsorted|].
      apply List.Forall_forall. intros x Hx. apply list_elem_of_In in Hx.
      destruct (Hd' x Hx) as (? & ? & ?). auto.
    + intros x. rewrite Hrest, (delete_session_elem l e x Hnd Hin), not_elem_of_cons.
      tauto.
    + intros o x [->|Ho]%elem_of_cons Hx Hxc; [|eauto].
      apply Hrest in Hx as [Hx _].
      apply (delete_session_elem l e x Hnd Hin) in Hx as [Hx _]. auto.
    + exact Hnd'.
Qed.






(** After the interval, 42 sessions of which 41 are closed: the loop counts
    each deletion twice ([sessionEntries.length] shrinks and [removedCount]
    grows), deletes one session and leaves 41. *)
Lemma removeOldSessions_42 :
  let r := Sample.record (sessions_closed_at (-1 :: map Z.of_nat (seq 1 41))) in
  fst (removeOldSessions 300000 r) = Ok 1 /\
  length (sessions (snd (removeOldSessions 300000 r))) = 41%nat.
Proof. vm_compute. auto. Qed.





End RemoveOldSessions.

Module HaveOpenSession.
Import SessionRecord.

Lemma lookup_session_elem (l : list (string * SessionEntry.t)) k s :
  NoDup (map fst l) -> (k, s) ∈ l -> lookup_session k l = Some s.
Proof.
  induction l as [|[k' s'] l IH]; simpl; intros Hnd Hin.
  - inversion Hin.
  - apply NoDup_cons in Hnd as [Hnotin Hnd].
    apply elem_of_cons in Hin as [[= -> ->]|Hin].
    + rewrite String.eqb_refl. reflexivity.
    + destruct (String.eqb_spec k' k) as [->|_]; [|auto].
      exfalso. apply Hnotin. apply list_elem_of_fmap. exists (k, s). auto.
Qed.

(** The branch of [haveOpenSession] that runs when the cache is empty: true
    exactly when the first open session has a numeric [registrationId]. *)
Lemma haveOpenSession_uncached (r : t) :
  NoDup (map fst (sessions r)) ->
  _openSessionCache r = CacheNull ->
  fst (haveOpenSession r) =
    Ok (match find (fun p => negb (isClosed (snd p))) (sessions r) with
        | Some (_, s) => bool_decide (is_Some (SessionEntry.registrationId s))
        | None => false
        end).
Proof.
  intros Hnd Hnull.
  unfold haveOpenSession, bump, bind, modify, get. simpl. rewrite Hnull.
  unfold getOpenSession, bind, get, cached_open_session. simpl. rewrite Hnull.
  destruct (find _ (sessions r)) as [[k s]|] eqn:Hfind; simpl; [|reflexivity].
  apply find_some in Hfind as [Hin _]. apply list_elem_of_In in Hin.
  rewrite (lookup_session_elem _ _ _ Hnd Hin). reflexivity.
Qed.

(** C10. A record whose only session is open and has no numeric
    [registrationId]: [haveOpenSession] on the fresh record answers false;
    [getOpenSession] returns the session and caches it; after that
    [haveOpenSession] answers true for the same sessions, because its cache
    branch returns [_openSessionCache !== false] without looking at
    [registrationId].  The first [haveOpenSession] fills the cache as well,
    so asking twice gives false and then true. *)
Theorem haveOpenSession_after_getOpenSession :
  let r := Sample.record [("s0", Sample.session (-1) None)] in
  fst (haveOpenSession r) = Ok false /\
  fst (getOpenSession r) = Ok (Some "s0") /\
  sessions (snd (getOpenSession r)) = sessions r /\
  fst (haveOpenSession (snd (getOpenSession r))) = Ok true /\
  sessions (snd (haveOpenSession r)) = sessions r /\
  fst (haveOpenSession (snd (haveOpenSession r))) = Ok true.
Proof. vm_compute. auto 10. Qed.

End HaveOpenSession.

(** ** Reasoning about computations *)

Module Monad.

Lemma bind_inv {S A B} (m : M S A) (k : A -> M S B) s r s' :
  bind m k s = (r, s') ->
  (exists e, m s = (Err e, s') /\ r = Err e) \/
  (exists a s1, m s = (Ok a, s1) /\ k a s1 = (r, s')).
Proof.
  unfold bind. destruct (m s) as [[a|e] s1]; intros Heq.
  - right. eauto.
  - left. injection Heq as <- <-. eauto.
Qed.

Lemma bind_Ok {S A B} (m : M S A) (k : A -> M S B) s a s1 :
  m s = (Ok a, s1) -> bind m k s = k a s1.
Proof. intros Heq. unfold bind. rewrite Heq. reflexivity. Qed.

Lemma bind_Err {S A B} (m : M S A) (k : A -> M S B) s e s1 :
  m s = (Err e, s1) -> bind m k s = (Err e, s1).
Proof. intros Heq. unfold bind. rewrite Heq. reflexivity. Qed.

Section Throws.
Context {S : Type} (P : error -> Prop).

Lemma throws_ret {A} (a : A) : throws P (ret (S := S) a).
Proof. intros s e s' Heq. discriminate Heq. Qed.

Lemma throws_get : throws P (get (S := S)).
Proof. intros s e s' Heq. discriminate Heq. Qed.

Lemma throws_gets {A} (f : S -> A) : throws P (gets f).
Proof. intros s e s' Heq. discriminate Heq. Qed.

Lemma throws_modify (f : S -> S) : throws P (modify f).
Proof. intros s e s' Heq. discriminate Heq. Qed.

Lemma throws_throw {A} e : P e -> throws P (throw (S := S) (A := A) e).
Proof. intros He s e' s' [= <- _]. exact He. Qed.

Lemma throws_lift {A} (r : result A) :
  (forall e, r = Err e -> P e) -> throws P (lift_result (S := S) r).
Proof. intros Hr s e s' [= -> _]. auto. Qed.

Lemma throws_bind {A B} (m : M S A) (k : A -> M S B) :
  throws P m -> (forall a, throws P (k a)) -> throws P (bind m k).
Proof.
  intros Hm Hk s e s' Heq.
  apply bind_inv in Heq as [(e' & Hms & [= ->])|(a & s1 & Hms & Hks)].
  - eapply Hm, Hms.
  - eapply Hk, Hks.
Qed.

End Throws.

Section Keeps.
Context {S X : Type} (f : S -> X).

Lemma keeps_ret {A} (a : A) : keeps f (ret a).
Proof. intros s r s' [= _ <-]. reflexivity. Qed.

Lemma keeps_get : keeps f get.
Proof. intros s r s' [= _ <-]. reflexivity. Qed.

Lemma keeps_throw {A} e : keeps f (throw (A := A) e).
Proof. intros s r s' [= _ <-]. reflexivity. Qed.

Lemma keeps_lift {A} (r : result A) : keeps f (lift_result r).
Proof. intros s r' s' [= _ <-]. reflexivity. Qed.

Lemma keeps_modify (g : S -> S) :
  (forall s, f (g s) = f s) -> keeps f (modify g).
Proof. intros Hg s r s' [= _ <-]. apply Hg. Qed.

Lemma keeps_bind {A B} (m : M S A) (k : A -> M S B) :
  keeps f m -> (forall a, keeps f (k a)) -> keeps f (bind m k).
Proof.
  intros Hm Hk s r s' Heq.
  apply bind_inv in Heq as [(e' & Hms & _)|(a & s1 & Hms & Hks)].
  - eapply Hm, Hms.
  - rewrite (Hk _ _ _ _ Hks). eapply Hm, Hms.
Qed.

End Keeps.

End Monad.

Module Decrypt.
Import Monad SessionCipher FillMessageKeys.

Ltac not_mac := unfold not_mac, Crypto.mac_failure; discriminate.

Lemma buffer_set_not_mac buf src off e :
  buffer_set buf src off = Err e -> not_mac e.
Proof.
  unfold buffer_set. destruct (_ <=? _)%nat; [discriminate|].
  intros [= <-]. not_mac.
Qed.

Section WithPrimitives.
Context `{Primitives} `{Protobufs}.

Lemma deriveSecrets_not_mac input salt info chunks e :
  Crypto.deriveSecrets input salt info chunks = Err e -> not_mac e.
Proof.
  unfold Crypto.deriveSecrets.
  repeat match goal with
         | |- context [match buffer_set ?a ?b ?c with _ => _ end] =>
           destruct (buffer_set a b c) eqn:?
         | |- context [if ?b then _ else _] => destruct b
         end;
    intros Heq; try discriminate Heq; injection Heq as <-;
    try not_mac; eapply buffer_set_not_mac; eassumption.
Qed.

Lemma fillMessageKeys_post_fuel counter (n : nat) : forall chain r chain',
  (Z.to_nat (counter - ChainKey.counter (Chain.chainKey chain)) <= n)%nat ->
  fillMessageKeys counter chain = (r, chain') ->
  Chain.chainType chain' = Chain.chainType chain /\
  match r with
  | Ok _ => ChainKey.counter (Chain.chainKey chain') >= counter
  | Err e => exists msg, e = SessionError msg
  end.
Proof.
  induction n as [|n IH]; intros chain r chain' Hn;
    rewrite fillMessageKeys_unfold;
    (destruct (Z_ge_dec _ _); [intros [= <- <-]; auto|]);
    (destruct (Z_gt_dec _ _); [intros [= <- <-]; eauto|]);
    (destruct (ChainKey.key _) as [k|]; [|intros [= <- <-]; eauto]).
  - exfalso. lia.
  - intros Hrun. apply IH in Hrun; [exact Hrun | simpl; lia].
Qed.

Lemma fillMessageKeys_post counter chain r chain' :
  fillMessageKeys counter chain = (r, chain') ->
  Chain.chainType chain' = Chain.chainType chain /\
  match r with
  | Ok _ => ChainKey.counter (Chain.chainKey chain') >= counter
  | Err e => exists msg, e = SessionError msg
  end.
Proof. eapply fillMessageKeys_post_fuel. reflexivity. Qed.

Lemma fillMessageKeys_not_mac counter :
  throws not_mac (fillMessageKeys counter).
Proof.
  intros chain e chain' Hrun.
  apply fillMessageKeys_post in Hrun as [_ [msg ->]]. not_mac.
Qed.

Lemma onChain_throws {A} key (m : M Chain.t A) :
  throws not_mac m -> throws not_mac (SessionEntry.onChain key m).
Proof.
  intros Hm s e s'. unfold SessionEntry.onChain.
  destruct (SessionEntry._chains s !! key) as [c|]; [|intros [= <- _]; not_mac].
  destruct (m c) as [r c'] eqn:Hmc. intros [= -> _]. eapply Hm, Hmc.
Qed.

Lemma getChain_throws now key :
  throws not_mac (SessionEntry.getChain now key).
Proof.
  unfold SessionEntry.getChain.
  apply throws_bind; [apply throws_modify | intros; apply throws_gets].
Qed.

Lemma addChain_throws now key value :
  throws not_mac (SessionEntry.addChain now key value).
Proof.
  unfold SessionEntry.addChain.
  apply throws_bind; [apply throws_get|]. intros s. cbv beta.
  destruct (SessionEntry._chains s !! key).
  - apply throws_throw. not_mac.
  - repeat (apply throws_bind; [apply throws_modify | intros]).
    apply throws_modify.
Qed.

Lemma deleteChain_throws now key :
  throws not_mac (SessionEntry.deleteChain now key).
Proof.
  unfold SessionEntry.deleteChain.
  apply throws_bind; [apply throws_get|]. intros s. cbv beta.
  destruct (SessionEntry._chains s !! key).
  - repeat (apply throws_bind; [apply throws_modify | intros]).
    apply throws_modify.
  - apply throws_throw. not_mac.
Qed.

Lemma calculateRatchet_throws now remoteKey sending :
  throws not_mac (calculateRatchet now remoteKey sending).
Proof.
  unfold calculateRatchet.
  apply throws_bind; [apply throws_get|]. intros s. cbv beta zeta.
  destruct (calculateAgreement _ _); [|apply throws_throw; not_mac].
  apply throws_bind; [apply throws_lift, deriveSecrets_not_mac|]. intros mk.
  apply throws_bind; [apply addChain_throws | intros; apply throws_modify].
Qed.

Lemma maybeStepRatchet_throws now fresh remoteKey previousCounter :
  throws not_mac (maybeStepRatchet now fresh remoteKey previousCounter).
Proof.
  unfold maybeStepRatchet.
  apply throws_bind; [apply getChain_throws|]. intros [| |c];
    [|apply throws_ret..].
  apply throws_bind; [apply throws_get|]. intros s. cbv beta zeta.
  apply throws_bind; [apply getChain_throws|]. intros prev.
  apply throws_bind.
  { destruct prev; [apply throws_ret | apply throws_throw; not_mac|].
    apply onChain_throws, throws_bind;
      [apply fillMessageKeys_not_mac | intros; apply throws_modify]. }
  intros _.
  apply throws_bind; [apply calculateRatchet_throws|]. intros _.
  apply throws_bind; [apply throws_get|]. intros s1. cbv beta zeta.
  apply throws_bind; [apply getChain_throws|]. intros pc.
  apply throws_bind.
  { destruct pc; [apply throws_ret | apply throws_throw; not_mac|].
    apply throws_bind; [apply throws_modify | intros; apply deleteChain_throws]. }
  intros _.
  apply throws_bind; [apply throws_modify|]. intros _.
  apply throws_bind; [apply calculateRatchet_throws|]. intros _.
  apply throws_modify.
Qed.

Section Decrypt.
Context (st : Storage) (now : Z).

Lemma decrypt_with_key_chains message messageProto messageBuffer messageKey :
  keeps SessionEntry._chains
    (decrypt_with_key st message messageProto messageBuffer messageKey).
Proof.
  unfold decrypt_with_key.
  repeat (apply keeps_bind; [first [apply keeps_lift | apply keeps_get]|]; intros).
  apply keeps_bind; [|intros; apply keeps_ret].
  apply keeps_modify. reflexivity.
Qed.

(** A call that returns, or that fails on the MAC, has taken the message key
    out of the chain before. *)
Lemma doDecrypt_consumes fresh messageBuffer s r s' :
  doDecryptWhisperMessage st now fresh messageBuffer s = (r, s') ->
  is_Ok r = true \/ r = Err Crypto.mac_failure ->
  exists message, header messageBuffer = Some message /\ consumed s' message.
Proof.
  unfold doDecryptWhisperMessage, header. intros Hrun Hr.
  assert (forall e, r = Err e -> ~ not_mac e) as Hmac.
  { intros e ->. destruct Hr as [Hr|[= ->]]; [discriminate Hr|].
    intros Hne. apply Hne. reflexivity. }
  destruct (incompatible_version messageBuffer).
  { injection Hrun as <- <-. exfalso. eapply Hmac; [reflexivity | not_mac]. }
  destruct (WhisperMessage_decode _) as [message|].
  2:{ injection Hrun as <- <-. exfalso. eapply Hmac; [reflexivity | not_mac]. }
  exists message. split; [reflexivity|].
  apply bind_inv in Hrun as [(e & Hstep & ->)|(? & s1 & Hstep & Hrun)].
  { exfalso. eapply Hmac; [reflexivity|].
    eapply maybeStepRatchet_throws, Hstep. }
  apply bind_inv in Hrun as [(e & Hget & ->)|(chain & s2 & Hget & Hrun)].
  { exfalso. eapply Hmac; [reflexivity|]. eapply getChain_throws, Hget. }
  injection Hget as <- <-.
  destruct (SessionEntry._chains _ !! _) as [chain|] eqn:Hchain; simpl in Hrun.
  2:{ destruct (bool_decide (_ ∈ _)); injection Hrun as <- <-; exfalso;
      (eapply Hmac; [reflexivity | not_mac]). }
  destruct (bool_decide (Chain.chainType chain = SENDING)) eqn:Hty.
  { injection Hrun as <- <-. exfalso. eapply Hmac; [reflexivity | not_mac]. }
  apply bool_decide_eq_false in Hty.
  apply bind_inv in Hrun as [(e & Hfill & ->)|([] & s3 & Hfill & Hrun)].
  { exfalso. eapply Hmac; [reflexivity|].
    eapply onChain_throws, Hfill. apply fillMessageKeys_not_mac. }
  unfold SessionEntry.onChain in Hfill. simpl in Hfill. rewrite Hchain in Hfill.
  destruct (fillMessageKeys _ chain) as [rf c1] eqn:Hf.
  injection Hfill as -> <-.
  apply fillMessageKeys_post in Hf as [Hty1 Hcnt].
  apply bind_inv in Hrun as [(e & Htake & ->)|(mk & s4 & Htake & Hrun)].
  { exfalso. eapply Hmac; [reflexivity|].
    unfold SessionEntry.onChain in Htake. simpl in Htake.
    rewrite lookup_insert_eq in Htake. unfold take_messageKey in Htake.
    destruct (Chain.messageKeys c1 !! _); [discriminate Htake|].
    injection Htake as <- _. not_mac. }
  unfold SessionEntry.onChain in Htake. simpl in Htake.
  rewrite lookup_insert_eq in Htake. unfold take_messageKey in Htake.
  destruct (Chain.messageKeys c1 !! _) as [mk'|]; [|discriminate Htake].
  injection Htake as -> <-.
  apply decrypt_with_key_chains in Hrun. simpl in Hrun.
  exists (Chain.set_messageKeys (delete (WhisperMessage.counter message)) c1).
  rewrite Hrun, lookup_insert_eq. simpl.
  split; [reflexivity|]. split; [congruence|]. split; [exact Hcnt|].
  apply lookup_delete_eq.
Qed.

(** A frame for a chain that has given out the key of its counter is
    rejected with [MessageCounterError]. *)
Lemma doDecrypt_replay fresh messageBuffer message s :
  header messageBuffer = Some message ->
  consumed s message ->
  fst (doDecryptWhisperMessage st now fresh messageBuffer s) =
    Err (MessageCounterError "Key used already or never filled").
Proof.
  unfold header, doDecryptWhisperMessage.
  intros Hhead (chain & Hchain & Hty & Hcnt & Hkey).
  destruct (incompatible_version messageBuffer); [discriminate Hhead|].
  rewrite Hhead.
  unfold maybeStepRatchet, SessionEntry.getChain, SessionEntry.onChain,
    bind, modify, gets, ret, throw. simpl. rewrite Hchain. simpl.
  rewrite Hchain.
  rewrite bool_decide_eq_false_2 by exact Hty.
  cbn [SessionEntry._chains SessionEntry.set_lastAccessed]. rewrite Hchain.
  rewrite (fillMessageKeys_reached _ chain Hcnt).
  cbn [SessionEntry._chains SessionEntry.set_chains]. rewrite lookup_insert_eq. unfold take_messageKey. rewrite Hkey.
  reflexivity.
Qed.

End Decrypt.

End WithPrimitives.
End Decrypt.

(** ** The layout of the MAC input and of the frame *)

Module Frame.
Import SessionCipher EngineMemo Hkdf.

Lemma buffer_set_middle (p q r src : bytes) :
  length src = length q ->
  buffer_set (p ++ q ++ r) src (length p) = Ok (p ++ src ++ r).
Proof.
  intros Hlen. unfold buffer_set. rewrite !length_app.
  destruct (Nat.leb_spec (length p + length src)
              (length p + (length q + length r))) as [_|Hlt];
    [|exfalso; lia].
  rewrite take_app_length.
  rewrite drop_app_ge by lia.
  replace (length p + length src - length p)%nat with (length q) by lia.
  rewrite drop_app_length. reflexivity.
Qed.

Lemma buffer_put_middle (p r : bytes) (x : byte) (v : Z) :
  buffer_put (p ++ x :: r) (length p) v = p ++ byte_of_Z v :: r.
Proof.
  unfold buffer_put.
  replace (length p) with (length p + 0)%nat at 1 by lia.
  rewrite insert_app_r. reflexivity.
Qed.

Lemma build_macInput_concat (first second messageProto : bytes) :
  length first = 33%nat -> length second = 33%nat ->
  build_macInput first second messageProto 33 =
    Ok (first ++ second ++ [x33] ++ messageProto).
Proof.
  intros H1 H2. unfold build_macInput, Buffer_alloc.
  replace (length messageProto + 33 * 2 + 1)%nat
    with (33 + (33 + (1 + length messageProto)))%nat by lia.
  rewrite !repeat_app.
  rewrite buffer_set_prefix by (rewrite repeat_length; exact H1).
  replace 33%nat with (length first) at 2 by exact H1.
  rewrite (buffer_set_middle first (repeat x00 33) _ second)
    by (rewrite repeat_length; exact H2).
  change (_encodeTupleByte VERSION VERSION) with (Ok 51).
  cbv iota beta.
  replace (33 * 2)%nat with (length (first ++ second))
    by (rewrite length_app; lia).
  rewrite (app_assoc first second).
  change (repeat x00 1 ++ repeat x00 (length messageProto))
    with (x00 :: repeat x00 (length messageProto)).
  rewrite buffer_put_middle.
  change (byte_of_Z 51) with x33.
  replace (length (first ++ second) + 1)%nat
    with (length ((first ++ second) ++ [x33]))
    by (rewrite !length_app; simpl; lia).
  replace ((first ++ second) ++ x33 :: repeat x00 (length messageProto))
    with (((first ++ second) ++ [x33]) ++ repeat x00 (length messageProto) ++ [])
    by (rewrite app_nil_r, <- app_assoc; reflexivity).
  rewrite buffer_set_middle by (rewrite repeat_length; reflexivity).
  rewrite app_nil_r, <- !app_assoc. reflexivity.
Qed.

Lemma build_frame_concat (msgBuf mac : bytes) :
  length mac = 32%nat ->
  build_frame msgBuf mac = Ok ([x33] ++ msgBuf ++ take 8 mac).
Proof.
  intros Hmac. unfold build_frame, Buffer_alloc.
  change (_encodeTupleByte VERSION VERSION) with (Ok 51).
  cbv iota beta.
  replace (length msgBuf + 9)%nat with (S (length msgBuf + 8)) by lia.
  cbn [repeat]. unfold buffer_put at 1. cbn [insert list_insert].
  change (byte_of_Z 51) with x33.
  rewrite repeat_app.
  pose proof (buffer_set_middle [x33] (repeat x00 (length msgBuf))
                (repeat x00 8) msgBuf) as E1.
  cbn [app length] in E1. rewrite E1 by (rewrite repeat_length; reflexivity).
  pose proof (buffer_set_middle (x33 :: msgBuf) (repeat x00 8) [] (take 8 mac))
    as E2.
  rewrite app_nil_r in E2. cbn [app length] in E2.
  replace (length msgBuf + 1)%nat with (S (length msgBuf)) by lia.
  rewrite E2 by (rewrite length_take, repeat_length, Hmac; reflexivity).
  rewrite app_nil_r. reflexivity.
Qed.

End Frame.

(** ** Replay and MAC failure in doDecryptWhisperMessage *)

Module Replay.
Import Monad SessionCipher Decrypt.

(** C7. After a successful [doDecryptWhisperMessage] of a frame that carries
    counter k, the chain of the frame is a receiving chain whose
    [messageKeys] has no entry at k, and a second call on the same frame with
    the same session fails with [MessageCounterError]. *)
Theorem decrypted_key_is_gone `{Primitives} `{Protobufs}
  (st : Storage) (now : Z) (fresh : KeyPair) (messageBuffer plaintext : bytes)
  (s s' : SessionEntry.t) :
  doDecryptWhisperMessage st now fresh messageBuffer s = (Ok plaintext, s') ->
  exists message chain,
    header messageBuffer = Some message /\
    SessionEntry._chains s' !! WhisperMessage.ephemeralKey message = Some chain /\
    Chain.chainType chain = RECEIVING /\
    Chain.messageKeys chain !! WhisperMessage.counter message = None /\
    forall st2 now2 fresh2,
      fst (doDecryptWhisperMessage st2 now2 fresh2 messageBuffer s') =
        Err counter_error.
Proof.
  intros Hrun.
  destruct (doDecrypt_consumes st now fresh messageBuffer s _ s' Hrun)
    as (message & Hhead & Hcons); [left; reflexivity|].
  pose proof Hcons as (chain & Hchain & Hty & Hcnt & Hkey).
  exists message, chain. repeat split; try assumption.
  - destruct (Chain.chainType chain); [contradiction | reflexivity].
  - intros st2 now2 fresh2. eapply doDecrypt_replay; eassumption.
Qed.

Lemma decrypted_key_is_gone_witness :
  fst (sample_run (repeat x00 8)) = Ok [x68; x69] /\
  fst (@doDecryptWhisperMessage Sample.primitives Sample.protobufs
         (Sample.storage true) 30 Sample.identity
         (Sample.frame (repeat x00 8)) (snd (sample_run (repeat x00 8)))) =
    Err counter_error.
Proof.
  assert (fst (sample_run (repeat x00 8)) = Ok [x68; x69]) as Hfst
    by (vm_compute; reflexivity).
  split; [exact Hfst|].
  destruct (sample_run (repeat x00 8)) as [r s'] eqn:Hrun.
  simpl in Hfst. subst r.
  destruct (@decrypted_key_is_gone Sample.primitives Sample.protobufs
              _ _ _ _ _ _ _ Hrun) as (m & c & _ & _ & _ & _ & Hagain).
  apply Hagain.
Defined.

(** C1, counterexample: the sample session at counter -1 and a frame for
    counter 0 whose MAC is eight 0xff bytes.  The call fails on the MAC, the
    chain has no key at 0 afterwards, and the frame with the right MAC, which
    the session decrypts to "hi" before, is rejected after. *)
Lemma mac_failure_keeps_key_fails : ~ mac_failure_keeps_key_as_stated.
Proof.
  intros Hc.
  destruct (Hc Sample.primitives Sample.protobufs (Sample.storage true) 20
              Sample.identity (Sample.frame (repeat xff 8))
              (Sample.session (-1) (Some 1))
              (snd (sample_run (repeat xff 8)))
              {| WhisperMessage.ephemeralKey := [x41];
                 WhisperMessage.counter := 0;
                 WhisperMessage.previousCounter := 0;
                 WhisperMessage.ciphertext := [x68; x69] |})
    as [_ Hretry].
  - vm_compute. reflexivity.
  - vm_compute. reflexivity.
  - specialize (Hretry (Sample.frame (repeat x00 8)) [x68; x69]).
    assert (Err counter_error = Ok [x68; x69] :> result bytes) as Hbad.
    { rewrite <- Hretry; [|vm_compute; reflexivity|vm_compute; reflexivity].
      vm_compute. reflexivity. }
    discriminate Hbad.
Qed.

(** C1, amended. When [doDecryptWhisperMessage] fails because the truncated
    MAC does not match, the message key of the frame's counter has been
    deleted from the chain's [messageKeys] of the session object (the key is
    taken before the MAC is checked), and a later call with the same session
    on any frame with the same ephemeral key and counter, the unmodified
    frame included, fails with [MessageCounterError]. *)
Theorem mac_failure_consumes_key `{Primitives} `{Protobufs}
  (st : Storage) (now : Z) (fresh : KeyPair) (messageBuffer : bytes)
  (s s' : SessionEntry.t) :
  doDecryptWhisperMessage st now fresh messageBuffer s =
    (Err Crypto.mac_failure, s') ->
  exists message chain,
    header messageBuffer = Some message /\
    SessionEntry._chains s' !! WhisperMessage.ephemeralKey message = Some chain /\
    Chain.messageKeys chain !! WhisperMessage.counter message = None /\
    forall st2 now2 fresh2 unmodified message2,
      header unmodified = Some message2 ->
      WhisperMessage.ephemeralKey message2 = WhisperMessage.ephemeralKey message ->
      WhisperMessage.counter message2 = WhisperMessage.counter message ->
      fst (doDecryptWhisperMessage st2 now2 fresh2 unmodified s') =
        Err counter_error.
Proof.
  intros Hrun.
  destruct (doDecrypt_consumes st now fresh messageBuffer s _ s' Hrun)
    as (message & Hhead & Hcons); [right; reflexivity|].
  pose proof Hcons as (chain & Hchain & Hty & Hcnt & Hkey).
  exists message, chain. repeat split; try assumption.
  intros st2 now2 fresh2 unmodified message2 Hhead2 Heph Hctr.
  eapply doDecrypt_replay; [exact Hhead2|].
  exists chain. rewrite Heph, Hctr. auto.
Qed.

Lemma mac_failure_consumes_key_witness :
  fst (sample_run (repeat xff 8)) = Err Crypto.mac_failure /\
  fst (@doDecryptWhisperMessage Sample.primitives Sample.protobufs
         (Sample.storage true) 30 Sample.identity
         (Sample.frame (repeat x00 8)) (snd (sample_run (repeat xff 8)))) =
    Err counter_error.
Proof.
  assert (fst (sample_run (repeat xff 8)) = Err Crypto.mac_failure) as Hfst
    by (vm_compute; reflexivity).
  split; [exact Hfst|].
  destruct (sample_run (repeat xff 8)) as [r s'] eqn:Hrun.
  simpl in Hfst. subst r.
  destruct (@mac_failure_consumes_key Sample.primitives Sample.protobufs
              _ _ _ _ _ _ Hrun) as (m & c & Hhead & _ & _ & Hagain).
  apply (Hagain _ _ _ _ m); [|reflexivity|reflexivity].
  rewrite <- Hhead. vm_compute. reflexivity.
Defined.

End Replay.

(** ** encrypt and decryptWhisperMessage *)

Module Sessions.
Import SessionRecord.

Lemma lookup_session_In (l : list (string * SessionEntry.t)) k s :
  lookup_session k l = Some s -> (k, s) ∈ l.
Proof.
  induction l as [|[k' s'] l IH]; simpl; [discriminate|].
  destruct (String.eqb_spec k' k) as [->|_].
  - intros [= ->]. apply elem_of_cons. auto.
  - intros Hl. apply elem_of_cons. auto.
Qed.

Lemma lookup_update_eq (l : list (string * SessionEntry.t)) k s s' :
  lookup_session k l = Some s ->
  lookup_session k (update_session k s' l) = Some s'.
Proof.
  induction l as [|[k' s0] l IH]; simpl; [discriminate|].
  destruct (String.eqb_spec k' k) as [->|Hne]; simpl.
  - rewrite String.eqb_refl. reflexivity.
  - destruct (String.eqb_spec k' k); [contradiction | exact IH].
Qed.

Lemma update_update (l : list (string * SessionEntry.t)) k s1 s2 :
  update_session k s2 (update_session k s1 l) = update_session k s2 l.
Proof.
  induction l as [|[k' s0] l IH]; simpl; [reflexivity|].
  destruct (String.eqb_spec k' k) as [->|Hne]; simpl.
  - rewrite String.eqb_refl. reflexivity.
  - destruct (String.eqb_spec k' k); [contradiction|]. rewrite IH. reflexivity.
Qed.

Lemma update_id (l : list (string * SessionEntry.t)) k s :
  lookup_session k l = Some s -> update_session k s l = l.
Proof.
  induction l as [|[k' s0] l IH]; simpl; [reflexivity|].
  destruct (String.eqb_spec k' k) as [->|Hne].
  - intros [= ->]. reflexivity.
  - intros Hl. rewrite (IH Hl). reflexivity.
Qed.

Lemma update_keys (l : list (string * SessionEntry.t)) k s :
  map fst (update_session k s l) = map fst l.
Proof.
  induction l as [|[k' s0] l IH]; simpl; [reflexivity|].
  destruct (String.eqb_spec k' k) as [->|Hne]; simpl; [reflexivity|].
  rewrite IH. reflexivity.
Qed.

Lemma update_elem (l : list (string * SessionEntry.t)) k s x :
  NoDup (map fst l) ->
  x ∈ update_session k s l -> x = (k, s) \/ (x ∈ l /\ fst x <> k).
Proof.
  induction l as [|[k' s0] l IH]; simpl; [intros _ Hx; inversion Hx|].
  intros [Hnotin Hnd]%NoDup_cons.
  destruct (String.eqb_spec k' k) as [->|Hne].
  - intros [->|Hx]%elem_of_cons; [auto|]. right.
    split; [apply elem_of_cons; auto|].
    intros Hk. apply Hnotin. apply list_elem_of_fmap. exists x. auto.
  - intros [->|Hx]%elem_of_cons.
    + right. split; [apply elem_of_cons; auto | exact Hne].
    + destruct (IH Hnd Hx) as [->|[Hin Hk]]; [auto|].
      right. split; [apply elem_of_cons; auto | exact Hk].
Qed.

Lemma set_sessions_id (r : t) k s :
  lookup_session k (sessions r) = Some s ->
  set_sessions (update_session k s) r = r.
Proof.
  intros Hl. destruct r. unfold set_sessions. simpl in *.
  rewrite (update_id _ _ _ Hl). reflexivity.
Qed.

Lemma set_sessions_twice (r : t) k s1 s2 :
  set_sessions (update_session k s2) (set_sessions (update_session k s1) r) =
  set_sessions (update_session k s2) r.
Proof. unfold set_sessions. simpl. rewrite update_update. reflexivity. Qed.

Lemma set_chains_insert_twice (s : SessionEntry.t) k c1 c2 :
  SessionEntry.set_chains (insert k c2) (SessionEntry.set_chains (insert k c1) s) =
  SessionEntry.set_chains (insert k c2) s.
Proof.
  unfold SessionEntry.set_chains. simpl. rewrite insert_insert_eq. reflexivity.
Qed.

Lemma getOpenSession_sessions (r : t) :
  sessions (snd (getOpenSession r)) = sessions r.
Proof.
  unfold getOpenSession, bind, get, ret, modify. simpl.
  destruct (cached_open_session r); [reflexivity|].
  destruct (find _ (sessions r)) as [[k s']|]; reflexivity.
Qed.

Lemma getOpenSession_open (r : t) ref :
  NoDup (map fst (sessions r)) ->
  fst (getOpenSession r) = Ok (Some ref) ->
  exists s, lookup_session ref (sessions r) = Some s /\ isClosed s = false.
Proof.
  intros Hnd.
  unfold getOpenSession, bind, get, ret, modify, cached_open_session. simpl.
  destruct (_openSessionCache r) as [| |c]; simpl.
  3: destruct (lookup_session c (sessions r)) as [s|] eqn:Hc;
       [destruct (isClosed s) eqn:Hs|]; simpl.
  4: { intros [= <-]. eauto. }
  all: destruct (find _ (sessions r)) as [[k s']|] eqn:Hfind; simpl;
    [|discriminate]; intros [= <-];
    apply find_some in Hfind as [Hin Hopen]; apply list_elem_of_In in Hin;
    exists s'; split;
      [apply HaveOpenSession.lookup_session_elem; assumption|];
    simpl in Hopen; destruct (isClosed s'); [discriminate | reflexivity].
Qed.

End Sessions.

Module Encrypt.
Import Monad SessionCipher SessionRecord Sessions EngineMemo Hkdf Frame.

Lemma bind_Ok_inv {S A B} (m : M S A) (k : A -> M S B) s b s' :
  bind m k s = (Ok b, s') ->
  exists a s1, m s = (Ok a, s1) /\ k a s1 = (Ok b, s').
Proof.
  intros Heq. apply bind_inv in Heq as [(e & _ & [=])|Hok]. exact Hok.
Qed.

(** A step on the session object behind [ref]. *)
Lemma onSession_Ok_inv {A} ref (m : M SessionEntry.t A) w a w' :
  SessionCipher.onSession ref m w = (Ok a, w') ->
  exists r s s',
    _cachedRecord w = Some r /\
    lookup_session ref (sessions r) = Some s /\
    m s = (Ok a, s') /\
    _cachedRecord w' = Some (set_sessions (update_session ref s') r) /\
    engine w' = engine w /\ addr_id w' = addr_id w /\
    storeSession_log w' = storeSession_log w.
Proof.
  unfold SessionCipher.onSession, onRecord, SessionRecord.onSession.
  destruct (_cachedRecord w) as [r|] eqn:Hr; [|discriminate].
  destruct (lookup_session ref (sessions r)) as [s|] eqn:Hl; [|discriminate].
  destruct (m s) as [r' s'] eqn:Hm. intros [= -> <-].
  exists r, s, s'. simpl. repeat split; try reflexivity; assumption.
Qed.

Lemma onEngine_Ok_inv {A} (m : M CryptoEngine.Engine A) w a w' :
  onEngine m w = (Ok a, w') ->
  exists e', m (engine w) = (Ok a, e') /\
    engine w' = e' /\ _cachedRecord w' = _cachedRecord w /\ addr_id w' = addr_id w /\
    storeSession_log w' = storeSession_log w.
Proof.
  unfold onEngine. destruct (m (engine w)) as [r e'] eqn:Hm.
  intros [= -> <-]. exists e'. simpl. repeat split; reflexivity.
Qed.

Section WithPrimitives.
Context `{Primitives} `{Protobufs} (st : Storage) (now : Z).

(** One step of the sending chain, as [encrypt] asks for it. *)
Lemma fillMessageKeys_one chain chain' :
  fillMessageKeys (ChainKey.counter (Chain.chainKey chain) + 1) chain =
    (Ok tt, chain') ->
  exists kk, ChainKey.key (Chain.chainKey chain) = Some kk /\
             chain' = chain_step kk chain.
Proof.
  rewrite FillMessageKeys.fillMessageKeys_unfold.
  destruct (Z_ge_dec _ _); [lia|].
  destruct (Z_gt_dec _ _); [lia|].
  destruct (ChainKey.key _) as [kk|]; [|discriminate].
  rewrite FillMessageKeys.fillMessageKeys_reached by (simpl; lia).
  intros [= <-]. eauto.
Qed.

Lemma wrap_run ourIdentityKey s frame w :
  wrap st ourIdentityKey s frame w = (Ok (wrapped st ourIdentityKey s frame), w).
Proof.
  unfold wrap, wrapped. destruct (SessionEntry.pendingPreKey s); reflexivity.
Qed.

(** [getRecord()] hands over the record that [served] names and leaves the
    rest of the cipher alone. *)
Lemma getRecord_Ok_inv w o w1 :
  getRecord st now false w = (Ok o, w1) ->
  served st now w = o /\ _cachedRecord w1 = o /\ same_cipher w w1.
Proof.
  unfold getRecord, served, cache_hit, same_cipher, bind, get, modify, ret,
    lift_result, throw.
  cbn [negb andb].
  destruct (_cachedRecord w) as [r|] eqn:Hr; cbn [andb];
    [destruct (now - _lastRecordUpdate w <? 1000);
       [intros [= <- <-]; cbn; rewrite Hr; repeat split|]|];
    (destruct (loadSession st) as [[|r'|]|e]; intros [= <- <-];
     cbn; repeat split).
Qed.

Lemma getRecord_served w r :
  served st now w = Some r ->
  exists w1, getRecord st now false w = (Ok (Some r), w1) /\
    _cachedRecord w1 = Some r /\ same_cipher w w1.
Proof.
  intros Hs.
  destruct (getRecord st now false w) as [[o|e] w1] eqn:Hrun.
  - apply getRecord_Ok_inv in Hrun as (Ho & Hc & Hsame).
    rewrite Hs in Ho. subst o. eauto.
  - exfalso. revert Hs Hrun.
    unfold getRecord, served, cache_hit, bind, get, modify, ret, lift_result,
      throw.
    cbn [negb andb].
    destruct (_cachedRecord w) as [r0|]; cbn [andb];
      [destruct (now - _lastRecordUpdate w <? 1000); [discriminate 2|]|];
      (destruct (loadSession st) as [[|r'|]|e']; discriminate).
Qed.

(** How [getRecord()] runs. *)
Lemma getRecord_cases w :
  (cache_hit now w = true /\
   getRecord st now false w =
     (Ok (_cachedRecord w), SessionCipher.incr_cacheHits w)) \/
  (cache_hit now w = false /\
   getRecord st now false w =
     match loadSession st with
     | Err e => (Err e, SessionCipher.incr_cacheMisses w)
     | Ok LoadedOther =>
       (Err (TypeError "SessionRecord type expected from loadSession"),
        SessionCipher.incr_cacheMisses w)
     | Ok LoadedNothing =>
       (Ok None,
        set_lastRecordUpdate now
          (set_cachedRecord None (SessionCipher.incr_cacheMisses w)))
     | Ok (LoadedRecord r) =>
       (Ok (Some r),
        set_lastRecordUpdate now
          (set_cachedRecord (Some r) (SessionCipher.incr_cacheMisses w)))
     end).
Proof.
  unfold getRecord, cache_hit, bind, get, modify, ret, lift_result, throw.
  cbn [negb andb].
  destruct (_cachedRecord w) as [r|]; cbn [andb];
    [destruct (now - _lastRecordUpdate w <? 1000); [left; auto|]|];
    right; (split; [reflexivity|]);
    destruct (loadSession st) as [[|r'|]|e]; reflexivity.
Qed.

Lemma storeRecord_Ok_inv w w' :
  storeRecord st now w = (Ok tt, w') ->
  exists r, _cachedRecord w = Some r /\
    _cachedRecord w' = Some (snd (removeOldSessions now r)) /\
    engine w' = engine w /\ addr_id w' = addr_id w /\
    lastUsedCounter w' = lastUsedCounter w /\
    storeSession st (snd (removeOldSessions now r)) = Ok tt /\
    storeSession_log w' =
      snd (removeOldSessions now r) :: storeSession_log w /\
    _lastRecordUpdate w' = now.
Proof.
  unfold storeRecord. intros Hrun.
  apply bind_Ok_inv in Hrun as (n & w1 & Hclean & Hrun).
  unfold onRecord in Hclean.
  destruct (_cachedRecord w) as [r|] eqn:Hr; [|discriminate].
  destruct (removeOldSessions now r) as [rn r'] eqn:Hrm.
  injection Hclean as -> <-.
  unfold bind, get, modify, lift_result in Hrun. simpl in Hrun.
  destruct (storeSession st r') as [[]|e] eqn:Hst; [|discriminate Hrun].
  injection Hrun as <-.
  exists r. rewrite Hrm. simpl. repeat split; auto.
Qed.

(** What a successful [encrypt_with] has done. *)
Lemma encrypt_with_inv ourId ref data w out w' :
  encrypt_with st now ourId ref data w = (Ok out, w') ->
  exists r s chain kk keys e1 msg frame e2 rf,
    _cachedRecord w = Some r /\
    lookup_session ref (sessions r) = Some s /\
    isTrustedIdentity st (addr_id w)
      (IndexInfo.remoteIdentityKey (SessionEntry.indexInfo s)) = true /\
    SessionEntry._chains s !!
      pubKey (Ratchet.ephemeralKeyPair (SessionEntry.currentRatchet s)) =
      Some chain /\
    Chain.chainType chain <> RECEIVING /\
    ChainKey.key (Chain.chainKey chain) = Some kk /\
    CryptoEngine.deriveSecrets (hmac_sha256 kk [x01]) (Buffer_alloc 32)
      (Buffer_from_string CONSTANTS.MESSAGE_KEYS.DERIVE_INFO) None (engine w) =
      (Ok keys, e1) /\
    seal ourId (after_encrypt now s chain kk)
      (ChainKey.counter (Chain.chainKey chain) + 1) keys data e1 =
      (Ok (msg, frame), e2) /\
    type out = fst (wrapped st ourId (after_encrypt now s chain kk) frame) /\
    body out = snd (wrapped st ourId (after_encrypt now s chain kk) frame) /\
    lastUsedCounter w' = ChainKey.counter (Chain.chainKey chain) + 1 /\
    sessions rf = update_session ref (after_encrypt now s chain kk) (sessions r) /\
    _cachedRecord w' = Some (snd (removeOldSessions now rf)) /\
    engine w' = e2 /\
    _lastRecordUpdate w' = now /\
    storeSession st (snd (removeOldSessions now rf)) = Ok tt.
Proof.
  unfold encrypt_with. intros Hrun.
  apply bind_Ok_inv in Hrun as (s & w1 & Hs & Hrun).
  apply onSession_Ok_inv in Hs
    as (r & s0 & s0' & Hr & Hl & [= <- <-] & Hr1 & He1 & Ha1 & _).
  rewrite (set_sessions_id _ _ _ Hl) in Hr1.
  apply bind_Ok_inv in Hrun as (w1' & w1'' & [= <- <-] & Hrun).
  rewrite Ha1 in Hrun.
  destruct (isTrustedIdentity st (addr_id w) _) eqn:Htrust;
    [|discriminate Hrun].
  simpl negb in Hrun. cbv iota in Hrun.
  apply bind_Ok_inv in Hrun as (chain & w2 & Hget & Hrun).
  apply onSession_Ok_inv in Hget
    as (r1 & s1 & s1' & Hr1' & Hl1 & Hgc & Hr2 & He2 & Ha2 & _).
  rewrite Hr1 in Hr1'. injection Hr1' as <-. simpl in Hl1.
  rewrite Hl in Hl1. injection Hl1 as <-.
  injection Hgc as <- <-.
  destruct (SessionEntry._chains _ !! _) as [chain|] eqn:Hchain;
    [|destruct (bool_decide (_ ∈ _)); discriminate Hrun].
  simpl in Hchain.
  destruct (bool_decide (Chain.chainType chain = RECEIVING)) eqn:Hty;
    [discriminate Hrun|].
  apply bool_decide_eq_false in Hty.
  apply bind_Ok_inv in Hrun as ([] & w3 & Hfill & Hrun).
  apply onSession_Ok_inv in Hfill
    as (r2 & s2 & s2' & Hr2' & Hl2 & Hf & Hr3 & He3 & Ha3 & _).
  rewrite Hr2 in Hr2'. injection Hr2' as <-. simpl in Hl2.
  rewrite (lookup_update_eq _ _ _ _ Hl) in Hl2. injection Hl2 as <-.
  unfold SessionEntry.onChain in Hf. simpl in Hf. rewrite Hchain in Hf.
  destruct (fillMessageKeys _ chain) as [rf c1] eqn:Hfm.
  injection Hf as -> <-.
  apply fillMessageKeys_one in Hfm as (kk & Hkk & ->).
  rewrite set_sessions_twice in Hr3.
  apply bind_Ok_inv in Hrun as (chain1 & w4 & Hget2 & Hrun).
  apply onSession_Ok_inv in Hget2
    as (r3 & s3 & s3' & Hr3' & Hl3 & Hg & Hr4 & He4 & Ha4 & _).
  rewrite Hr3 in Hr3'. injection Hr3' as <-. simpl in Hl3.
  rewrite (lookup_update_eq _ _ _ _ Hl) in Hl3. injection Hl3 as <-.
  unfold SessionEntry.onChain, get in Hg. simpl in Hg.
  rewrite lookup_insert_eq in Hg. injection Hg as <- <-.
  rewrite set_sessions_twice, set_chains_insert_twice in Hr4.
  simpl in Hrun. rewrite lookup_insert_eq in Hrun.
  apply bind_Ok_inv in Hrun as (keys & w5 & Hkeys & Hrun).
  apply onEngine_Ok_inv in Hkeys as (e1 & Hkeys & He5 & Hr5 & Ha5 & _).
  rewrite He4, He3, He2, He1 in Hkeys.
  apply bind_Ok_inv in Hrun as ([] & w6 & Hdel & Hrun).
  apply onSession_Ok_inv in Hdel
    as (r5 & s5 & s5' & Hr5' & Hl5 & Hd & Hr6 & He6 & Ha6 & _).
  rewrite Hr5, Hr4 in Hr5'. injection Hr5' as <-. simpl in Hl5.
  rewrite (lookup_update_eq _ _ _ _ Hl) in Hl5. injection Hl5 as <-.
  unfold SessionEntry.onChain, modify in Hd. simpl in Hd.
  rewrite lookup_insert_eq in Hd. injection Hd as <-.
  rewrite set_sessions_twice, set_chains_insert_twice in Hr6.
  apply bind_Ok_inv in Hrun as (s6 & w7 & Hs6 & Hrun).
  apply onSession_Ok_inv in Hs6
    as (r6 & s6' & s6'' & Hr6' & Hl6 & [= <- <-] & Hr7 & He7 & Ha7 & _).
  rewrite Hr6 in Hr6'. injection Hr6' as <-. simpl in Hl6.
  rewrite (lookup_update_eq _ _ _ _ Hl) in Hl6. injection Hl6 as <-.
  rewrite set_sessions_twice in Hr7.
  apply bind_Ok_inv in Hrun as ([msg frame] & w8 & Hseal & Hrun).
  apply onEngine_Ok_inv in Hseal as (e2 & Hseal & He8 & Hr8 & Ha8 & _).
  rewrite He7, He6, He5 in Hseal.
  apply bind_Ok_inv in Hrun as ([] & w9 & Hstore & Hrun).
  apply storeRecord_Ok_inv in Hstore
    as (r8 & Hr8' & Hr9 & He9 & Ha9 & _ & Hst & _ & Hupd).
  rewrite Hr8, Hr7 in Hr8'. injection Hr8' as <-.
  apply bind_Ok_inv in Hrun as ([] & w10 & [= <-] & Hrun).
  apply bind_Ok_inv in Hrun as (tb & w11 & Hwrap & Hrun).
  rewrite wrap_run in Hwrap. injection Hwrap as <- <-.
  injection Hrun as <- <-.
  exists r, s0, chain, kk, keys, e1, msg, frame, e2.
  eexists. repeat split; try eassumption; try reflexivity.
  simpl. rewrite He9, He8. reflexivity.
Qed.

Lemma engine_encrypt_state key data iv e r e' :
  CryptoEngine.encrypt key data iv e = (r, e') -> e' = e.
Proof.
  unfold CryptoEngine.encrypt, bind, lift_result.
  destruct (ValidationUtils.assertBufferLength key _ _);
    [|intros [= _ <-]; reflexivity].
  destruct (ValidationUtils.assertBufferLength iv _ _);
    intros [= _ <-]; reflexivity.
Qed.

Lemma seal_inv ourId s counter seed data e msg frame e' :
  cache_ok e ->
  seal ourId s counter (message_keys seed) data e = (Ok (msg, frame), e') ->
  exists macInput,
    WhisperMessage.ephemeralKey msg =
      pubKey (Ratchet.ephemeralKeyPair (SessionEntry.currentRatchet s)) /\
    WhisperMessage.counter msg = counter /\
    WhisperMessage.previousCounter msg =
      Ratchet.previousCounter (SessionEntry.currentRatchet s) /\
    build_macInput (pubKey ourId)
      (IndexInfo.remoteIdentityKey (SessionEntry.indexInfo s))
      (WhisperMessage_encode msg) 33 = Ok macInput /\
    frame = [x33] ++ WhisperMessage_encode msg ++
            take 8 (hmac_sha256 (macKey_of seed) macInput) /\
    cache_ok e'.
Proof.
  intros Hok. unfold seal. intros Hrun.
  apply bind_Ok_inv in Hrun as (cipherKey & e1 & [= <- <-] & Hrun).
  apply bind_Ok_inv in Hrun as (ivSource & e2 & [= <- <-] & Hrun).
  apply bind_Ok_inv in Hrun as (ciphertext & e3 & Henc & Hrun).
  apply engine_encrypt_state in Henc as ->.
  apply bind_Ok_inv in Hrun as (macInput & e4 & Hin & Hrun).
  unfold lift_result in Hin. injection Hin as Hin <-.
  apply bind_Ok_inv in Hrun as (macKey & e5 & [= <- <-] & Hrun).
  apply bind_Ok_inv in Hrun as (mac & e6 & Hmac & Hrun).
  destruct (calculateMAC_ok e (macKey_of seed) macInput Hok) as (e7 & Hmac' & Hok7).
  change (macKey_of seed) with
    (spec_T (hmac_sha256 (Buffer_alloc 32) seed)
       (spec_T1 (hmac_sha256 (Buffer_alloc 32) seed)
          (Buffer_from_string "WhisperMessageKeys"))
       (Buffer_from_string "WhisperMessageKeys") x02) in Hmac'.
  rewrite Hmac' in Hmac. injection Hmac as <- <-.
  apply bind_Ok_inv in Hrun as (result & e8 & Hframe & Hrun).
  unfold lift_result in Hframe. injection Hframe as Hframe <-.
  rewrite build_frame_concat in Hframe by apply hmac_sha256_length.
  injection Hframe as <-. injection Hrun as <- <- <-.
  exists macInput.
  repeat (split; [first [assumption | reflexivity]|]). exact Hok7.
Qed.

Lemma wrapped_cases ourId s frame :
  (fst (wrapped st ourId s frame) = 1 /\ snd (wrapped st ourId s frame) = frame) \/
  (fst (wrapped st ourId s frame) = 3 /\
   exists pk, snd (wrapped st ourId s frame) =
                x33 :: PreKeyWhisperMessage_encode pk /\
              PreKeyWhisperMessage.message pk = frame).
Proof.
  unfold wrapped. destruct (SessionEntry.pendingPreKey s); simpl; eauto.
Qed.

(** What a successful [encrypt] has done, given a consistent memoization
    map. *)
Lemma encrypt_success data w out w' :
  cache_ok (engine w) ->
  encrypt st now data w = (Ok out, w') ->
  exists r ref s chain kk msg macInput rf,
    served st now w = Some r /\
    fst (getOpenSession r) = Ok (Some ref) /\
    lookup_session ref (sessions r) = Some s /\
    SessionEntry._chains s !!
      pubKey (Ratchet.ephemeralKeyPair (SessionEntry.currentRatchet s)) =
      Some chain /\
    ChainKey.key (Chain.chainKey chain) = Some kk /\
    WhisperMessage.ephemeralKey msg =
      pubKey (Ratchet.ephemeralKeyPair (SessionEntry.currentRatchet s)) /\
    WhisperMessage.counter msg = ChainKey.counter (Chain.chainKey chain) + 1 /\
    build_macInput (pubKey (our_identity st w))
      (IndexInfo.remoteIdentityKey (SessionEntry.indexInfo s))
      (WhisperMessage_encode msg) 33 = Ok macInput /\
    (let frame :=
       [x33] ++ WhisperMessage_encode msg ++
       take 8 (hmac_sha256 (macKey_of (hmac_sha256 kk [x01])) macInput) in
     type out = fst (wrapped st (our_identity st w) (after_encrypt now s chain kk) frame) /\
     body out = snd (wrapped st (our_identity st w) (after_encrypt now s chain kk) frame)) /\
    lastUsedCounter w' = ChainKey.counter (Chain.chainKey chain) + 1 /\
    sessions rf = update_session ref (after_encrypt now s chain kk) (sessions r) /\
    _cachedRecord w' = Some (snd (removeOldSessions now rf)) /\
    cache_ok (engine w') /\
    _lastRecordUpdate w' = now /\
    storeSession st (snd (removeOldSessions now rf)) = Ok tt.
Proof.
  intros Hok. unfold encrypt. intros Hrun.
  apply bind_Ok_inv in Hrun as (ourId & w1 & Hid & Hrun).
  assert (ourId = our_identity st w /\ served st now w1 = served st now w /\
          engine w1 = engine w /\ addr_id w1 = addr_id w) as (-> & Hr1 & He1 & Ha1).
  { unfold getOurIdentityKey, bind, get, our_identity in *.
    destruct (ourIdentityKey w); injection Hid as <- <-; auto. }
  apply bind_Ok_inv in Hrun as ([] & w2 & [= <-] & Hrun).
  apply bind_Ok_inv in Hrun as (record & w2 & Hget & Hrun).
  apply getRecord_Ok_inv in Hget
    as (Hserved & Hr2 & _ & _ & _ & _ & _ & He2 & _).
  change (served st now (incr_encryptCount w1)) with (served st now w1)
    in Hserved.
  rewrite Hr1 in Hserved.
  destruct record as [r|]; [|discriminate Hrun].
  apply bind_Ok_inv in Hrun as (session & w3 & Hopen & Hrun).
  unfold onRecord in Hopen. rewrite Hr2 in Hopen.
  destruct (getOpenSession r) as [ro r0] eqn:Hgo. injection Hopen as -> <-.
  destruct session as [ref|]; [|discriminate Hrun].
  apply encrypt_with_inv in Hrun
    as (r0' & s & chain & kk & keys & e1 & msg & frame & e2 & rf &
        Hr0 & Hl & Htrust & Hchain & Hty & Hkk & Hkeys & Hseal &
        Htype & Hbody & Hlast & Hrf & Hrec & Heng & Hupd & Hst).
  simpl in Hr0. injection Hr0 as <-.
  pose proof (getOpenSession_sessions r) as Hsess. rewrite Hgo in Hsess.
  simpl in Hsess. rewrite Hsess in Hl, Hrf.
  cbn [engine set_cachedRecord incr_encryptCount] in Hkeys.
  rewrite He2 in Hkeys. cbn [engine incr_encryptCount] in Hkeys.
  rewrite He1 in Hkeys.
  destruct (deriveSecrets_ok (engine w) (hmac_sha256 kk [x01]) (Buffer_alloc 32)
              (Buffer_from_string CONSTANTS.MESSAGE_KEYS.DERIVE_INFO) None 3 Hok)
    as (e1' & Hkeys' & Hok1); [reflexivity | left; auto|].
  rewrite Hkeys' in Hkeys. injection Hkeys as <- <-.
  apply (seal_inv _ _ _ _ _ _ _ _ _ Hok1) in Hseal
    as (macInput & Heph & Hctr & _ & Hin & -> & Hok2).
  exists r, ref, s, chain, kk, msg, macInput, rf.
  rewrite Hgo. subst e2.
  repeat (split; [first [assumption | reflexivity | split; assumption]|]).
  exact Hst.
Qed.

End WithPrimitives.
End Encrypt.

Module EncryptFrame.
Import Monad SessionCipher SessionRecord Sessions EngineMemo Hkdf Frame Encrypt.

(** C5. For every successful [encrypt] call (identity keys of 33 bytes, a
    consistent memoization map), the inner frame, returned as the body for
    type 1 or as the [message] field of the PreKeyWhisperMessage for type 3,
    is the version byte 0x33, followed by the encoded WhisperMessage,
    followed by the first 8 bytes of HMAC-SHA256(macKey, ourIdentityPub ||
    theirIdentityPub || 0x33 || encodedWhisperMessage), where macKey is the
    second HKDF block of the message key seed HMAC(chainKey, 0x01) and the
    message carries our ephemeral key and the chain counter plus one. *)
Theorem encrypt_inner_frame `{Primitives} `{Protobufs}
  (st : Storage) (now : Z) (data : bytes) (w w' : state) (out : encrypted) :
  cache_ok (engine w) ->
  length (pubKey (our_identity st w)) = 33%nat ->
  (forall r k s, served st now w = Some r ->
     lookup_session k (sessions r) = Some s ->
     length (IndexInfo.remoteIdentityKey (SessionEntry.indexInfo s)) = 33%nat) ->
  encrypt st now data w = (Ok out, w') ->
  exists r ref s chain kk msg,
    served st now w = Some r /\
    fst (getOpenSession r) = Ok (Some ref) /\
    lookup_session ref (sessions r) = Some s /\
    SessionEntry._chains s !!
      pubKey (Ratchet.ephemeralKeyPair (SessionEntry.currentRatchet s)) =
      Some chain /\
    ChainKey.key (Chain.chainKey chain) = Some kk /\
    WhisperMessage.ephemeralKey msg =
      pubKey (Ratchet.ephemeralKeyPair (SessionEntry.currentRatchet s)) /\
    WhisperMessage.counter msg = ChainKey.counter (Chain.chainKey chain) + 1 /\
    let frame :=
      [x33] ++ WhisperMessage_encode msg ++
      take 8 (hmac_sha256 (macKey_of (hmac_sha256 kk [x01]))
                (pubKey (our_identity st w) ++
                 IndexInfo.remoteIdentityKey (SessionEntry.indexInfo s) ++
                 [x33] ++ WhisperMessage_encode msg)) in
    (type out = 1 /\ body out = frame) \/
    (type out = 3 /\
     exists pk, body out = x33 :: PreKeyWhisperMessage_encode pk /\
                PreKeyWhisperMessage.message pk = frame).
Proof.
  intros Hok Hour Htheir Hrun.
  apply encrypt_success in Hrun
    as (r & ref & s & chain & kk & msg & macInput & rf & Hr & Hopen & Hl &
        Hchain & Hkk & Heph & Hctr & Hin & [Htype Hbody] & _); [|exact Hok].
  rewrite build_macInput_concat in Hin
    by (first [exact Hour | eapply Htheir; eassumption]).
  injection Hin as <-.
  exists r, ref, s, chain, kk, msg.
  repeat (split; [assumption|]).
  cbv zeta. rewrite Htype, Hbody. apply wrapped_cases.
Qed.

Lemma sample_lengths r k s :
  served (Sample.storage true) 20 sample_state = Some r ->
  lookup_session k (sessions r) = Some s ->
  length (IndexInfo.remoteIdentityKey (SessionEntry.indexInfo s)) = 33%nat.
Proof.
  intros [= <-]. unfold Sample.record, set_sessions.
  cbn [sessions lookup_session].
  destruct (String.eqb "s0" k); [|discriminate].
  intros [= <-]. reflexivity.
Qed.

Lemma encrypt_inner_frame_witness :
  exists out kk msg,
    fst sample_encrypt1 = Ok out /\
    body out =
      [x33] ++ Sample.encode msg ++
      take 8 (Sample.hmac (@macKey_of Sample.primitives (Sample.hmac kk [x01]))
                (repeat x05 33 ++ repeat x06 33 ++ [x33] ++ Sample.encode msg)).
Proof.
  destruct sample_encrypt1 as [ro w'] eqn:Hrun.
  assert (exists out, ro = Ok out /\ type out = 1) as (out & -> & Hty).
  { apply (f_equal fst) in Hrun. vm_compute in Hrun. subst ro.
    eexists. split; reflexivity. }
  destruct (@encrypt_inner_frame Sample.primitives Sample.protobufs
              (Sample.storage true) 20 [x68; x69] sample_state w' out
              cache_ok_new eq_refl sample_lengths Hrun)
    as (r & ref & s & chain & kk & msg & Hr & _ & Hl & _ & _ & _ & _ & Hframe).
  injection Hr as <-. unfold Sample.record, set_sessions in Hl.
  cbn [sessions lookup_session] in Hl.
  destruct (String.eqb "s0" ref); [|discriminate Hl]. injection Hl as <-.
  exists out, kk, msg. split; [reflexivity|].
  destruct Hframe as [[_ Hbody]|[Hty3 _]]; [exact Hbody|].
  rewrite Hty in Hty3. discriminate Hty3.
Defined.

End EncryptFrame.

Module SuccessiveEncrypt.
Import Monad SessionCipher SessionRecord Sessions EngineMemo Hkdf Frame Encrypt.

Lemma removes_subset l d l' x :
  removes l d l' -> x ∈ l' -> x ∈ l.
Proof.
  intros Hrem. induction Hrem as [l|l e d l' _ _ IH]; [auto|].
  intros Hx. eapply RemoveOldSessions.delete_session_subset, IH, Hx.
Qed.

(** [removeOldSessions] only takes sessions away. *)
Lemma removeOldSessions_subset now (r : t) x :
  x ∈ sessions (snd (removeOldSessions now r)) -> x ∈ sessions r.
Proof.
  unfold removeOldSessions, bind, get, ret, modify, _invalidateCaches.
  destruct (_ <? _); [auto|].
  destruct (RemoveOldSessions.cleanup_loop_removes (length (sessions r))
              {| cl_sessions := sessions r; sessionEntries := sessions r;
                 removedCount := 0; deleted := [] |} eq_refl)
    as (d & Hrem & Hsame & _).
  fold (run_cleanup (sessions r)) in Hrem, Hsame. simpl in Hrem.
  rewrite <- Hsame in Hrem.
  destruct (_ >? 0); simpl; intros Hx; eapply removes_subset; eassumption.
Qed.

Lemma removeOldSessions_keys now (r : t) :
  NoDup (map fst (sessions r)) ->
  NoDup (map fst (sessions (snd (removeOldSessions now r)))).
Proof.
  intros Hnd.
  unfold removeOldSessions, bind, get, ret, modify, _invalidateCaches.
  destruct (_ <? _); [exact Hnd|].
  destruct (RemoveOldSessions.cleanup_loop_removes (length (sessions r))
              {| cl_sessions := sessions r; sessionEntries := sessions r;
                 removedCount := 0; deleted := [] |} eq_refl)
    as (d & Hrem & Hsame & _).
  fold (run_cleanup (sessions r)) in Hrem, Hsame. simpl in Hrem.
  rewrite <- Hsame in Hrem.
  destruct (RemoveOldSessions.removes_spec _ _ _ Hnd Hrem) as (_ & _ & _ & _ & Hnd').
  destruct (_ >? 0); simpl; exact Hnd'.
Qed.

(** X29. Two successive successful [encrypt] calls on the same cipher, the
    second starting less than a second after the first, so that [getRecord]
    hands it the cached record that the first one left, on a record with
    distinct keys and at most one open session: both messages are sent
    under the same ephemeral key, and the counter written into the second
    WhisperMessage is the counter of the first plus one. *)
Theorem encrypt_twice_from_cache `{Primitives} `{Protobufs}
  (st1 st2 : Storage) (now1 now2 : Z) (data1 data2 : bytes)
  (w w1 w2 : state) (r : t) (out1 out2 : encrypted) :
  served st1 now1 w = Some r ->
  NoDup (map fst (sessions r)) ->
  at_most_one_open (sessions r) ->
  cache_ok (engine w) ->
  encrypt st1 now1 data1 w = (Ok out1, w1) ->
  now2 - now1 < 1000 ->
  encrypt st2 now2 data2 w1 = (Ok out2, w2) ->
  exists msg1 msg2,
    carries out1 msg1 /\ carries out2 msg2 /\
    WhisperMessage.ephemeralKey msg2 = WhisperMessage.ephemeralKey msg1 /\
    WhisperMessage.counter msg2 = WhisperMessage.counter msg1 + 1 /\
    WhisperMessage.counter msg1 < WhisperMessage.counter msg2 /\
    lastUsedCounter w1 = WhisperMessage.counter msg1 /\
    lastUsedCounter w2 = WhisperMessage.counter msg2.
Proof.
  intros Hr Hnd Hone Hok Hrun1 Hsoon Hrun2.
  apply encrypt_success in Hrun1
    as (r' & ref & s & chain & kk & msg1 & macInput1 & rf & Hr' & Hopen & Hl &
        Hchain & Hkk & Heph1 & Hctr1 & _ & [Htype1 Hbody1] & Hlast1 & Hrf &
        Hrec1 & Hok1 & Hupd1 & _); [|exact Hok].
  rewrite Hr in Hr'. injection Hr' as <-.
  apply encrypt_success in Hrun2
    as (r1 & ref2 & s2 & chain2 & kk2 & msg2 & macInput2 & rf2 & Hr1 & Hopen2 &
        Hl2 & Hchain2 & Hkk2 & Heph2 & Hctr2 & _ & [Htype2 Hbody2] & Hlast2 &
        _ & _ & _); [|exact Hok1].
  unfold served, cache_hit in Hr1. rewrite Hrec1, Hupd1 in Hr1.
  rewrite (proj2 (Z.ltb_lt _ _) Hsoon) in Hr1. injection Hr1 as <-.
  assert (NoDup (map fst (sessions rf))) as Hndf
    by (rewrite Hrf, update_keys; exact Hnd).
  destruct (getOpenSession_open r ref Hnd Hopen) as (s' & Hl' & Hs).
  rewrite Hl in Hl'. injection Hl' as <-.
  destruct (getOpenSession_open _ ref2 (removeOldSessions_keys now1 rf Hndf) Hopen2)
    as (s2' & Hl2' & Hs2).
  rewrite Hl2 in Hl2'. injection Hl2' as <-.
  assert (s2 = after_encrypt now1 s chain kk) as ->.
  { apply lookup_session_In, removeOldSessions_subset in Hl2.
    rewrite Hrf in Hl2.
    apply (update_elem _ _ _ _ Hnd) in Hl2 as [[= _ ->]|[Hin Hne]];
      [reflexivity|].
    exfalso. apply Hne. simpl.
    apply lookup_session_In in Hl.
    specialize (Hone _ _ Hin Hl Hs2 Hs). injection Hone as -> _. reflexivity. }
  simpl in Hchain2. rewrite lookup_insert_eq in Hchain2.
  injection Hchain2 as <-. simpl in Hctr2, Heph2.
  exists msg1, msg2.
  simpl in Hlast2.
  split; [|split; [|repeat split; try congruence; lia]].
  - eexists. split; [|cbv zeta; rewrite Htype1, Hbody1; apply wrapped_cases].
    rewrite length_take, hmac_sha256_length. reflexivity.
  - eexists. split; [|cbv zeta; rewrite Htype2, Hbody2; apply wrapped_cases].
    rewrite length_take, hmac_sha256_length. reflexivity.
Qed.

Lemma encrypt_twice_from_cache_witness :
  exists out1 out2,
    fst sample_encrypt1 = Ok out1 /\ fst sample_encrypt2 = Ok out2 /\
    lastUsedCounter (snd sample_encrypt2) =
      lastUsedCounter (snd sample_encrypt1) + 1.
Proof.
  unfold sample_encrypt2.
  destruct sample_encrypt1 as [ro1 w1] eqn:Hrun1.
  assert (exists out, ro1 = Ok out) as (out1 & ->).
  { apply (f_equal fst) in Hrun1. vm_compute in Hrun1. subst ro1. eauto. }
  cbn [snd].
  destruct (@encrypt Sample.primitives Sample.protobufs (Sample.storage true) 30
              [x68; x69] w1) as [ro2 w2] eqn:Hrun2.
  assert (exists out, ro2 = Ok out) as (out2 & ->).
  { apply (f_equal fst) in Hrun2.
    apply (f_equal snd) in Hrun1. simpl in Hrun1. subst w1.
    vm_compute in Hrun2. subst ro2. eauto. }
  assert (at_most_one_open [("s0", Sample.session (-1) (Some 1))]) as Hone.
  { intros x y Hx Hy _ _.
    apply list_elem_of_singleton in Hx, Hy. congruence. }
  assert (NoDup (map fst [("s0", Sample.session (-1) (Some 1))])) as Hnd
    by (apply (bool_decide_unpack _); vm_compute; exact I).
  destruct (@encrypt_twice_from_cache
              Sample.primitives Sample.protobufs
              (Sample.storage true) (Sample.storage true) 20 30
              [x68; x69] [x68; x69] sample_state w1 w2
              (Sample.record [("s0", Sample.session (-1) (Some 1))])
              out1 out2 eq_refl Hnd Hone cache_ok_new Hrun1 eq_refl Hrun2)
    as (msg1 & msg2 & _ & _ & _ & Hctr & _ & Hl1 & Hl2).
  exists out1, out2. cbn [fst snd].
  split; [reflexivity|]. split; [reflexivity|].
  rewrite Hl1, Hl2. exact Hctr.
Defined.

(** C9. The counter of two successive successful [encrypt] calls is not
    always strictly greater.  A new cipher over a storage that keeps the
    persisted form of the sample record encrypts three times, at 5000, 5500
    and 7000 ms.  The first call loads the record and stores it: every
    session keeps the document entry it serialized to as its cache.  The
    second call is handed the cached record and sends counter 1, but
    [serialize] returns the cached entry, so storage keeps counter 0.  The
    third call loads that document and sends counter 1 again, in the frame
    that the second call returned.  (The cipher has missed its cache twice
    and hit it once.) *)
Theorem reloaded_encrypt_repeats_counter :
  sent_counter (fst persisted_encrypt1) = Some 0 /\
  sent_counter (fst persisted_encrypt2) = Some 1 /\
  sent_counter (fst persisted_encrypt3) = Some 1 /\
  fst persisted_encrypt3 = fst persisted_encrypt2 /\
  Persisted.document (snd persisted_encrypt2) =
    Persisted.document (snd persisted_encrypt1) /\
  lastUsedCounter (Persisted.cipher (snd persisted_encrypt2)) = 1 /\
  lastUsedCounter (Persisted.cipher (snd persisted_encrypt3)) = 1 /\
  SessionCipher.cacheMisses (Persisted.cipher (snd persisted_encrypt3)) = 2 /\
  SessionCipher.cacheHits (Persisted.cipher (snd persisted_encrypt3)) = 1.
Proof. vm_compute. repeat split; reflexivity. Qed.

End SuccessiveEncrypt.

Module Untrusted.
Import Monad SessionCipher SessionRecord Sessions Decrypt Encrypt.

Section WithPrimitives.
Context `{Primitives} `{Protobufs} (st : Storage) (now : Z).

(** The session that wins [decryptWithSessions] has been advanced in place:
    it has given out the message key of the frame and is stamped as used
    now. *)
Lemma try_sessions_Ok fresh data refs : forall i r ref plaintext r1,
  try_sessions st now fresh i data refs r = (Ok (ref, plaintext), r1) ->
  exists s message,
    lookup_session ref (sessions r1) = Some s /\
    IndexInfo.used (SessionEntry.indexInfo s) = now /\
    header data = Some message /\ consumed s message.
Proof.
  induction refs as [|session rest IH]; intros i r ref plaintext r1; simpl.
  - discriminate.
  - destruct (SessionRecord.onSession session _ r) as [[p|e] r'] eqn:Hdec;
      [|apply IH].
    unfold SessionRecord.onSession in Hdec.
    destruct (lookup_session session (sessions r)) as [s0|] eqn:Hl;
      [|discriminate Hdec].
    destruct (doDecryptWhisperMessage _ _ _ _ s0) as [rd s0'] eqn:Hrun.
    injection Hdec as -> <-.
    unfold bind, ret, SessionRecord.onSession, modify. simpl.
    rewrite (lookup_update_eq _ _ _ _ Hl). intros [= <- <- <-].
    destruct (doDecrypt_consumes _ _ _ _ _ _ _ Hrun)
      as (message & Hhead & Hcons); [left; reflexivity|].
    eexists. exists message. simpl. rewrite update_update.
    rewrite (lookup_update_eq _ _ _ _ Hl).
    split; [reflexivity|]. split; [reflexivity|]. split; [exact Hhead|].
    exact Hcons.
Qed.

Lemma decryptWithSessions_Ok fresh data refs r ref plaintext r1 :
  decryptWithSessions st now fresh data refs r = (Ok (ref, plaintext), r1) ->
  exists s message,
    lookup_session ref (sessions r1) = Some s /\
    IndexInfo.used (SessionEntry.indexInfo s) = now /\
    header data = Some message /\ consumed s message.
Proof.
  unfold decryptWithSessions. destruct refs; [discriminate|].
  apply try_sessions_Ok.
Qed.


End WithPrimitives.



End Untrusted.

(** * Further properties of the code *)

(** ** The version byte *)

Module TupleByte.
Import SessionCipher.

Lemma nibbles_checked :
  forallb (fun a => forallb (fun b =>
    match _encodeTupleByte (Z.of_nat a) (Z.of_nat b) with
    | Ok v =>
      (0 <=? v) && (v <=? 255) &&
      bool_decide (_decodeTupleByte (Some (byte_of_Z v)) =
                   (Z.of_nat a, Z.of_nat b))
    | Err _ => false
    end) (seq 0 16)) (seq 0 16) = true.
Proof. vm_compute. reflexivity. Qed.

Lemma bytes_checked :
  forallb (fun n =>
    let b := byte_of_Z (Z.of_nat n) in
    let (hi, lo) := _decodeTupleByte (Some b) in
    (0 <=? hi) && (hi <=? 15) && (0 <=? lo) && (lo <=? 15) &&
    (Z_of_byte b =? 16 * hi + lo) &&
    match _encodeTupleByte hi lo with
    | Ok v => v =? Z_of_byte b
    | Err _ => false
    end) (seq 0 256) = true.
Proof. vm_compute. reflexivity. Qed.

Lemma Z_of_byte_range b : 0 <= Z_of_byte b < 256.
Proof.
  unfold Z_of_byte. pose proof (Byte.to_N_bounded b). lia.
Qed.

Lemma byte_of_Z_of_byte b : byte_of_Z (Z_of_byte b) = b.
Proof.
  unfold byte_of_Z. pose proof (Z_of_byte_range b).
  rewrite Z.mod_small by lia. unfold Z_of_byte. rewrite N2Z.id.
  apply byte_of_to_N.
Qed.

(** X1. Two numbers between 0 and 15 pack into one byte, and
    [_decodeTupleByte] gives them back; a number above 15 is refused with a
    [TypeError]. *)
Theorem tuple_byte_round_trip (number1 number2 : Z) :
  (0 <= number1 <= 15 -> 0 <= number2 <= 15 ->
   exists v, _encodeTupleByte number1 number2 = Ok v /\ 0 <= v <= 255 /\
             _decodeTupleByte (Some (byte_of_Z v)) = (number1, number2)) /\
  (number1 > 15 \/ number2 > 15 ->
   _encodeTupleByte number1 number2 =
     Err (TypeError "Numbers must be 4 bits or less")).
Proof.
  split.
  - intros H1 H2.
    pose proof nibbles_checked as Hall.
    rewrite forallb_forall in Hall.
    specialize (Hall (Z.to_nat number1)).
    rewrite forallb_forall in Hall.
    specialize (Hall ltac:(apply in_seq; lia) (Z.to_nat number2)
                     ltac:(apply in_seq; lia)).
    rewrite !Z2Nat.id in Hall by lia.
    destruct (_encodeTupleByte number1 number2) as [v|]; [|discriminate Hall].
    apply andb_prop in Hall as [Hr Hd].
    apply andb_prop in Hr as [Hlo Hhi].
    apply bool_decide_eq_true in Hd.
    exists v. split; [reflexivity|]. split; [lia | exact Hd].
  - intros Hbig. unfold _encodeTupleByte.
    destruct (Z.gtb_spec number1 15); [reflexivity|].
    destruct (Z.gtb_spec number2 15); [reflexivity | lia].
Qed.

Lemma tuple_byte_round_trip_witness :
  exists v, _encodeTupleByte 3 3 = Ok v /\
            _decodeTupleByte (Some (byte_of_Z v)) = (3, 3).
Proof.
  destruct (tuple_byte_round_trip 3 3) as [Hok _].
  destruct Hok as (v & He & _ & Hd); [lia | lia |].
  exists v. split; assumption.
Defined.

(** X2. Every byte splits into two numbers between 0 and 15, high half
    first, that [_encodeTupleByte] packs into the same byte again. *)
Theorem tuple_byte_decode (b : byte) :
  let (hi, lo) := _decodeTupleByte (Some b) in
  0 <= hi <= 15 /\ 0 <= lo <= 15 /\
  Z_of_byte b = 16 * hi + lo /\
  _encodeTupleByte hi lo = Ok (Z_of_byte b).
Proof.
  pose proof bytes_checked as Hall.
  rewrite forallb_forall in Hall.
  pose proof (Z_of_byte_range b) as Hb.
  specialize (Hall (Z.to_nat (Z_of_byte b)) ltac:(apply in_seq; lia)).
  rewrite Z2Nat.id in Hall by lia. rewrite byte_of_Z_of_byte in Hall.
  cbv zeta in Hall.
  destruct (_decodeTupleByte (Some b)) as [hi lo] eqn:Hd.
  repeat (apply andb_prop in Hall as [Hall ?]).
  destruct (_encodeTupleByte hi lo) as [v|]; [|discriminate].
  repeat split; try lia. f_equal. lia.
Qed.

End TupleByte.

(** ** verifyMAC *)

Module VerifyMAC.

Section WithPrimitives.
Context `{Primitives}.

(** X3. [verifyMAC] of crypto.js returns normally exactly when the MAC has
    the stated length and equals the first [length] bytes of the HMAC of the
    data; a MAC of another length is refused before any digest is compared,
    and a stated length of 0 accepts the empty MAC for every key and data. *)
Theorem verifyMAC_accepts (data key mac : bytes) (len : nat) :
  (Crypto.verifyMAC data key mac len = Ok tt <->
   length mac = len /\ mac = take len (hmac_sha256 key data)) /\
  (length mac <> len ->
   exists msg, Crypto.verifyMAC data key mac len = Err (JsError msg) /\
               JsError msg <> Crypto.mac_failure) /\
  (length mac = len -> (len <= 32)%nat ->
   mac <> take len (hmac_sha256 key data) ->
   Crypto.verifyMAC data key mac len = Err Crypto.mac_failure) /\
  Crypto.verifyMAC data key [] 0 = Ok tt.
Proof.
  unfold Crypto.verifyMAC, Crypto.calculateMAC.
  split; [|split; [|split]].
  - destruct (Nat.eqb_spec (length mac) len) as [Hlen|Hlen]; simpl.
    + destruct (Nat.eqb_spec (length (take len (hmac_sha256 key data)))
                  (length mac)) as [Hc|Hc]; simpl.
      * case_bool_decide as Heq; simpl.
        -- split; [auto|reflexivity].
        -- split; [discriminate|]. intros [_ ->]. contradiction.
      * split; [discriminate|]. intros [_ Hm]. rewrite <- Hm in Hc.
        contradiction.
    + split; [discriminate|]. intros [? _]. contradiction.
  - intros Hlen.
    destruct (Nat.eqb_spec (length mac) len) as [?|_]; [contradiction|].
    simpl. eexists. split; [reflexivity|].
    unfold Crypto.mac_failure. simpl. discriminate.
  - intros Hlen Hle Hne.
    destruct (Nat.eqb_spec (length mac) len) as [_|?]; [|contradiction].
    simpl. rewrite length_take, hmac_sha256_length, Hlen.
    rewrite Nat.min_l by lia. rewrite Nat.eqb_refl. simpl.
    case_bool_decide as Heq; [|reflexivity].
    exfalso. apply Hne. symmetry. exact Heq.
  - reflexivity.
Qed.

End WithPrimitives.

Lemma verifyMAC_accepts_witness :
  @Crypto.verifyMAC Sample.primitives [x01] Sample.zeros32 (repeat x00 8) 8 =
    Ok tt.
Proof.
  destruct (@verifyMAC_accepts Sample.primitives [x01] Sample.zeros32
              (repeat x00 8) 8) as [[_ Hacc] _].
  apply Hacc. split; reflexivity.
Defined.

End VerifyMAC.

(** ** More on fillMessageKeys *)

Module FillGap.
Import SessionCipher FillMessageKeys.

Section WithPrimitives.
Context `{Primitives}.

Lemma fill_gap_fuel (n : nat) : forall counter chain chain',
  (Z.to_nat (counter - ChainKey.counter (Chain.chainKey chain)) <= n)%nat ->
  fillMessageKeys counter chain = (Ok tt, chain') ->
  let c := ChainKey.counter (Chain.chainKey chain) in
  ChainKey.counter (Chain.chainKey chain') = Z.max c counter /\
  (forall i, i <= c \/ counter < i ->
     Chain.messageKeys chain' !! i = Chain.messageKeys chain !! i) /\
  (forall i, c < i <= counter -> is_Some (Chain.messageKeys chain' !! i)).
Proof.
  induction n as [|n IH]; intros counter chain chain' Hn;
    rewrite fillMessageKeys_unfold;
    (destruct (Z_ge_dec _ _);
     [intros [= <-]; cbv zeta; split; [lia|]; split; [auto | intros; lia]|]);
    (destruct (Z_gt_dec _ _); [discriminate|]);
    (destruct (ChainKey.key _) as [k|]; [|discriminate]).
  - exfalso. lia.
  - intros Hrun. apply IH in Hrun; [|simpl; lia].
    cbv zeta in *. simpl in Hrun. destruct Hrun as (Hc & Hold & Hnew).
    split; [lia|]. split.
    + intros i Hi. rewrite Hold by lia. apply lookup_insert_ne. lia.
    + intros i Hi.
      destruct (Z.eq_dec i (ChainKey.counter (Chain.chainKey chain) + 1))
        as [->|Hne].
      * destruct (Z.eq_dec counter
                    (ChainKey.counter (Chain.chainKey chain) + 1)) as [Heq|Hlt].
        -- rewrite Hold by lia. rewrite lookup_insert_eq. eauto.
        -- destruct (Z_le_gt_dec (ChainKey.counter (Chain.chainKey chain) + 1)
                       (ChainKey.counter (Chain.chainKey chain) + 1)); [|lia].
           rewrite Hold by lia. rewrite lookup_insert_eq. eauto.
      * apply Hnew. lia.
Qed.

(** X4. When [fillMessageKeys] returns, the chain counter has reached the
    target (or stayed, if it was there already), every counter in between
    has a message key cached, and the keys cached for other counters are the
    ones that were there: keys of skipped messages are kept, none is
    dropped. *)
Theorem fillMessageKeys_fills_gap (counter : Z) (chain chain' : Chain.t) :
  fillMessageKeys counter chain = (Ok tt, chain') ->
  let c := ChainKey.counter (Chain.chainKey chain) in
  ChainKey.counter (Chain.chainKey chain') = Z.max c counter /\
  Chain.chainType chain' = Chain.chainType chain /\
  (forall i, i <= c \/ counter < i ->
     Chain.messageKeys chain' !! i = Chain.messageKeys chain !! i) /\
  (forall i, c < i <= counter -> is_Some (Chain.messageKeys chain' !! i)).
Proof.
  intros Hrun.
  pose proof (Decrypt.fillMessageKeys_post _ _ _ _ Hrun) as [Hty _].
  destruct (fill_gap_fuel _ counter chain chain' (le_n _) Hrun) as (Hc & Ho & Hn).
  cbv zeta. auto.
Qed.

(** X5. [fillMessageKeys] fails only with one of its two [SessionError]s,
    and a call that fails has not touched the chain: the steps happen only
    after both guards have passed for the whole distance. *)
Theorem fillMessageKeys_fails_untouched (counter : Z) (chain chain' : Chain.t)
  (e : error) :
  fillMessageKeys counter chain = (Err e, chain') ->
  chain' = chain /\
  ((e = SessionError "Over 2000 messages into the future!" /\
    counter - ChainKey.counter (Chain.chainKey chain) > 2000) \/
   (e = SessionError "Chain closed" /\
    ChainKey.key (Chain.chainKey chain) = None /\
    0 < counter - ChainKey.counter (Chain.chainKey chain) <= 2000)).
Proof.
  intros Hrun. pose proof Hrun as Hu. rewrite fillMessageKeys_unfold in Hu.
  destruct (Z_ge_dec _ _); [discriminate Hu|].
  destruct (Z_gt_dec _ _); [injection Hu as <- <-; auto|].
  destruct (ChainKey.key _) as [k|] eqn:Hk.
  - exfalso.
    destruct (fillMessageKeys_iter
                (Z.to_nat (counter - ChainKey.counter (Chain.chainKey chain)))
                counter chain k Hk) as (c' & Hok & _); [lia | lia |].
    rewrite Hok in Hrun. discriminate Hrun.
  - injection Hu as <- <-. split; [reflexivity|]. right.
    split; [reflexivity|]. split; [reflexivity | lia].
Qed.

End WithPrimitives.

Lemma fillMessageKeys_fills_gap_witness :
  exists chain',
    @fillMessageKeys Sample.primitives 2
      (Sample.chain RECEIVING (Some Sample.zeros32)) = (Ok tt, chain') /\
    is_Some (Chain.messageKeys chain' !! 1).
Proof.
  destruct (@fillMessageKeys Sample.primitives 2
              (Sample.chain RECEIVING (Some Sample.zeros32)))
    as [r chain'] eqn:Hrun.
  assert (r = Ok tt) as ->.
  { apply (f_equal fst) in Hrun. cbn [fst] in Hrun. rewrite <- Hrun.
    rewrite !fillMessageKeys_unfold. reflexivity. }
  exists chain'. split; [reflexivity|].
  destruct (@fillMessageKeys_fills_gap Sample.primitives 2 _ chain' Hrun)
    as (_ & _ & _ & Hnew).
  apply Hnew. simpl. lia.
Defined.

Lemma fillMessageKeys_fails_untouched_witness :
  snd (@fillMessageKeys Sample.primitives 5 (Sample.chain RECEIVING None)) =
    Sample.chain RECEIVING None.
Proof.
  destruct (@fillMessageKeys Sample.primitives 5 (Sample.chain RECEIVING None))
    as [r chain'] eqn:Hrun.
  assert (exists e, r = Err e) as (e & ->).
  { apply (f_equal fst) in Hrun. rewrite fillMessageKeys_unfold in Hrun.
    cbn in Hrun. subst r. eauto. }
  destruct (@fillMessageKeys_fails_untouched Sample.primitives 5 _ chain' e Hrun)
    as [-> _].
  reflexivity.
Defined.

End FillGap.

(** ** The chains of a session entry *)

Module ChainStore.
Import SessionEntry.

(** X6. [addChain] files a chain under a key that is free, and [getChain]
    then returns that chain while the chains under other keys stay; on a key
    that is taken [addChain] throws "Overwrite attempt" and leaves the entry
    as it was. *)
Theorem addChain_getChain (now now' : Z) (key : bytes) (value : Chain.t)
  (s : t) :
  (_chains s !! key = None ->
   exists s',
     addChain now key value s = (Ok tt, s') /\
     fst (getChain now' key s') = Ok (Own value) /\
     (forall key', key' <> key ->
        fst (getChain now' key' s') = fst (getChain now' key' s)) /\
     _chainCount s' = _chainCount s + 1 /\
     _serializationVersion s' = _serializationVersion s + 1) /\
  (is_Some (_chains s !! key) ->
   addChain now key value s = (Err (JsError "Overwrite attempt"), s)).
Proof.
  unfold addChain, getChain, bind, get, gets, modify, throw, _invalidateCache.
  split.
  - intros Hfree. rewrite Hfree. eexists. split; [reflexivity|].
    cbn. rewrite lookup_insert_eq. split; [reflexivity|].
    split; [|split; reflexivity].
    intros key' Hne. rewrite lookup_insert_ne by congruence. reflexivity.
  - intros [c Hc]. rewrite Hc. reflexivity.
Qed.

Lemma addChain_getChain_witness :
  exists s',
    addChain 20 [x43] (Sample.chain RECEIVING None)
      (Sample.session (-1) None) = (Ok tt, s') /\
    fst (getChain 30 [x43] s') = Ok (Own (Sample.chain RECEIVING None)).
Proof.
  destruct (addChain_getChain 20 30 [x43] (Sample.chain RECEIVING None)
              (Sample.session (-1) None)) as [Hfree _].
  destruct Hfree as (s' & Hadd & Hget & _); [reflexivity|].
  exists s'. split; assumption.
Defined.

(** X7. [deleteChain] of a key that is not filed throws
    [ReferenceError("Not Found")] and leaves the entry as it was; deleting a
    chain that [addChain] has just filed gives back the chains and the chain
    count from before, while [_serializationVersion] has grown by two. *)
Theorem deleteChain_addChain (now now' : Z) (key : bytes) (value : Chain.t)
  (s : t) :
  _chains s !! key = None ->
  deleteChain now key s = (Err (ReferenceError "Not Found"), s) /\
  exists s' s'',
    addChain now key value s = (Ok tt, s') /\
    deleteChain now' key s' = (Ok tt, s'') /\
    _chains s'' = _chains s /\
    _chainCount s'' = _chainCount s /\
    _serializationVersion s'' = _serializationVersion s + 2.
Proof.
  intros Hfree.
  unfold addChain, deleteChain, bind, get, gets, modify, throw,
    _invalidateCache.
  rewrite Hfree. split; [reflexivity|].
  eexists. eexists. split; [reflexivity|].
  cbn. rewrite lookup_insert_eq. split; [reflexivity|]. cbn.
  split; [|split; lia].
  rewrite delete_insert_eq. apply delete_id. exact Hfree.
Qed.

Lemma deleteChain_addChain_witness :
  deleteChain 20 [x43] (Sample.session (-1) None) =
    (Err (ReferenceError "Not Found"), Sample.session (-1) None).
Proof.
  apply (deleteChain_addChain 20 30 [x43] (Sample.chain RECEIVING None)
           (Sample.session (-1) None)).
  reflexivity.
Defined.

(** X8. [_chainCount] keeps counting the chains: if it equals the number of
    entries of [_chains] before [addChain], [getChain] or [deleteChain], it
    does so after, whether the call returns or throws. *)
Theorem chainCount_invariant (now : Z) (key : bytes) (value : Chain.t)
  (s : t) :
  _chainCount s = Z.of_nat (size (_chains s)) ->
  (let s' := snd (addChain now key value s) in
   _chainCount s' = Z.of_nat (size (_chains s'))) /\
  (let s' := snd (getChain now key s) in
   _chainCount s' = Z.of_nat (size (_chains s'))) /\
  (let s' := snd (deleteChain now key s) in
   _chainCount s' = Z.of_nat (size (_chains s'))).
Proof.
  intros Hcount.
  unfold addChain, getChain, deleteChain, bind, get, gets, modify, throw,
    _invalidateCache.
  split; [|split]; cbv zeta.
  - destruct (_chains s !! key) eqn:Hk; cbn; [exact Hcount|].
    rewrite map_size_insert_None by exact Hk. lia.
  - cbn. exact Hcount.
  - destruct (_chains s !! key) eqn:Hk; cbn; [|exact Hcount].
    rewrite map_size_delete, Hk.
    assert (size (_chains s) <> 0%nat).
    { intros Hz. apply map_size_empty_inv in Hz. rewrite Hz in Hk.
      rewrite lookup_empty in Hk. discriminate Hk. }
    lia.
Qed.

Lemma chainCount_invariant_witness :
  let s' := snd (addChain 20 [x43] (Sample.chain RECEIVING None)
                   (Sample.session (-1) None)) in
  _chainCount s' = Z.of_nat (size (_chains s')).
Proof.
  apply (chainCount_invariant 20 [x43] (Sample.chain RECEIVING None)
           (Sample.session (-1) None)).
  vm_compute. reflexivity.
Defined.

End ChainStore.

(** ** Looking up sessions *)

Module SessionLookup.
Import SessionRecord Sessions.

Lemma find_open_none (l : list (string * SessionEntry.t)) :
  find (fun p => negb (isClosed (snd p))) l = None ->
  forall e, e ∈ l -> isClosed (snd e) = true.
Proof.
  intros Hfind e He. apply list_elem_of_In in He.
  pose proof (find_none _ _ Hfind e He) as Hc. simpl in Hc.
  destruct (isClosed (snd e)); [reflexivity | discriminate Hc].
Qed.

(** X9. Whatever the open-session cache holds, [getOpenSession] returns an
    open session of the record when there is one and [null] only when every
    session is closed; it changes no session, and asking again gives the same
    answer. *)
Theorem getOpenSession_finds (r : t) :
  NoDup (map fst (sessions r)) ->
  sessions (snd (getOpenSession r)) = sessions r /\
  fst (getOpenSession (snd (getOpenSession r))) = fst (getOpenSession r) /\
  ((exists ref s,
      fst (getOpenSession r) = Ok (Some ref) /\
      lookup_session ref (sessions r) = Some s /\ isClosed s = false) \/
   (fst (getOpenSession r) = Ok None /\
    forall e, e ∈ sessions r -> isClosed (snd e) = true)).
Proof.
  intros Hnd. split; [apply getOpenSession_sessions|].
  unfold getOpenSession, bind, get, ret, modify.
  destruct (cached_open_session r) as [ref|] eqn:Hc.
  - cbn. rewrite Hc. split; [reflexivity|]. left.
    unfold cached_open_session in Hc.
    destruct (_openSessionCache r) as [| |ref']; try discriminate Hc.
    destruct (lookup_session ref' (sessions r)) as [s|] eqn:Hl;
      [|discriminate Hc].
    destruct (isClosed s) eqn:Hs; [discriminate Hc|].
    injection Hc as <-. eauto.
  - destruct (find _ (sessions r)) as [[key s]|] eqn:Hfind; cbn.
    + pose proof Hfind as Hf.
      apply find_some in Hf as [Hin Hopen]. apply list_elem_of_In in Hin.
      pose proof (HaveOpenSession.lookup_session_elem _ _ _ Hnd Hin) as Hl.
      cbn in Hopen. apply negb_true_iff in Hopen.
      unfold cached_open_session. cbn. rewrite Hl, Hopen. cbn.
      split; [reflexivity|]. left. eauto.
    + unfold cached_open_session. cbn. rewrite Hfind. cbn.
      split; [reflexivity|]. right. split; [reflexivity|].
      apply find_open_none. exact Hfind.
Qed.

Lemma getOpenSession_finds_witness :
  fst (getOpenSession (Sample.record [("s0", Sample.session 5 None);
                                      ("s1", Sample.session (-1) None)])) =
    Ok (Some "s1").
Proof.
  destruct (getOpenSession_finds
              (Sample.record [("s0", Sample.session 5 None);
                              ("s1", Sample.session (-1) None)]))
    as (_ & _ & [(ref & s & Hget & _)|[Hnone _]]).
  - apply (bool_decide_unpack _). vm_compute. exact I.
  - vm_compute. reflexivity.
  - vm_compute in Hnone. discriminate Hnone.
Defined.

(** *** The order of getSessions *)

Lemma insert_by_used_perm a l : insert_by_used a l ≡ₚ a :: l.
Proof.
  induction l as [|b l IH]; simpl; [reflexivity|].
  destruct (_ >? _); [|reflexivity].
  rewrite IH. apply Permutation_swap.
Qed.

Lemma sort_by_used_perm l : sort_by_used l ≡ₚ l.
Proof.
  unfold sort_by_used.
  induction l as [|a l IH]; simpl; [reflexivity|].
  rewrite insert_by_used_perm, IH. reflexivity.
Qed.

Lemma insert_by_used_sorted a l :
  StronglySorted (fun x y => used_of x >= used_of y) l ->
  StronglySorted (fun x y => used_of x >= used_of y) (insert_by_used a l).
Proof.
  induction 1 as [|b l Hs IH Hall]; simpl.
  - repeat constructor.
  - fold (used_of b). fold (used_of a).
    destruct (Z.gtb_spec (used_of b) (used_of a)).
    + constructor; [exact IH|].
      apply List.Forall_forall. intros x Hx.
      apply list_elem_of_In in Hx.
      rewrite insert_by_used_perm in Hx.
      apply elem_of_cons in Hx as [->|Hx]; [lia|].
      rewrite List.Forall_forall in Hall. apply Hall.
      apply list_elem_of_In. exact Hx.
    + constructor; [constructor; assumption|].
      constructor; [lia|].
      rewrite List.Forall_forall in Hall |- *.
      intros x Hx. specialize (Hall x Hx). lia.
Qed.

Lemma sort_by_used_sorted l :
  StronglySorted (fun x y => used_of x >= used_of y) (sort_by_used l).
Proof.
  unfold sort_by_used.
  induction l as [|a l IH]; simpl; [constructor|].
  apply insert_by_used_sorted, IH.
Qed.

(** X10. With no sorted list cached, [getSessions] returns every session of
    the record exactly once, the most recently used first, and caches that
    list; the next call returns the cached list as it is. *)
Theorem getSessions_most_recent_first (r : t) :
  _sortedSessionsCache r = None ->
  exists sorted r',
    getSessions r = (Ok (map fst sorted), r') /\
    sorted ≡ₚ sessions r /\
    StronglySorted (fun x y => used_of x >= used_of y) sorted /\
    sessions r' = sessions r /\
    fst (getSessions r') = Ok (map fst sorted).
Proof.
  intros Hnone. exists (sort_by_used (sessions r)).
  unfold getSessions, bump, bind, get, ret, modify. cbn. rewrite Hnone. cbn.
  eexists. split; [reflexivity|].
  split; [apply sort_by_used_perm|].
  split; [apply sort_by_used_sorted|].
  split; reflexivity.
Qed.

Lemma getSessions_most_recent_first_witness :
  let used v :=
    SessionEntry.set_indexInfo (IndexInfo.set_used v)
      (Sample.session 5 None) in
  let r := Sample.record [("s0", used 5); ("s1", used 9); ("s2", used 7)] in
  exists sorted r',
    getSessions r = (Ok (map fst sorted), r') /\
    sorted ≡ₚ sessions r /\
    StronglySorted (fun x y => used_of x >= used_of y) sorted /\
    map fst sorted = ["s1"; "s2"; "s0"]%string /\
    fst (getSessions r') = Ok ["s1"; "s2"; "s0"]%string.
Proof.
  intros used r.
  destruct (getSessions_most_recent_first r eq_refl)
    as (sorted & r' & Hget & Hperm & Hsorted & _ & Hagain).
  assert (fst (getSessions r) = Ok ["s1"; "s2"; "s0"]%string) as Hkeys
    by (vm_compute; reflexivity).
  rewrite Hget in Hkeys. injection Hkeys as Hkeys.
  exists sorted, r'. split; [exact Hget|]. split; [exact Hperm|].
  split; [exact Hsorted|]. split; [exact Hkeys|].
  rewrite Hagain, Hkeys. reflexivity.
Defined.

End SessionLookup.

(** ** The engine against crypto.js *)

Module EngineAgreement.
Import CryptoEngine EngineKeys EngineMemo Hkdf.

Section WithPrimitives.
Context `{Primitives}.

Lemma deriveSecrets_keeps_ok e input salt info chunks :
  cache_ok e -> cache_ok (snd (deriveSecrets input salt info chunks e)).
Proof.
  intros Hok.
  destruct (Nat.eq_dec (length salt) 32%nat) as [Hsalt|Hsalt].
  2:{ rewrite engine_deriveSecrets_bad_salt by exact Hsalt. exact Hok. }
  destruct chunks as [c|].
  - destruct (Z_lt_dec c 1) as [Hlo|Hlo].
    { rewrite engine_deriveSecrets_bad_chunks by (auto; lia). exact Hok. }
    destruct (Z_gt_dec c 3) as [Hhi|Hhi].
    { rewrite engine_deriveSecrets_bad_chunks by (auto; lia). exact Hok. }
    destruct (deriveSecrets_ok e input salt info (Some c) c Hok Hsalt)
      as (e' & -> & Hok'); [right; split; [reflexivity | lia]|].
    exact Hok'.
  - destruct (deriveSecrets_ok e input salt info None 3 Hok Hsalt)
      as (e' & -> & Hok'); [left; auto|].
    exact Hok'.
Qed.

Lemma verifyMAC_keeps_ok e data key mac len :
  cache_ok e -> cache_ok (snd (verifyMAC data key mac len e)).
Proof.
  intros Hok. unfold verifyMAC.
  destruct (negb (length mac =? len)%nat); [exact Hok|].
  unfold bind.
  destruct (calculateMAC_ok e key data Hok) as (e' & -> & Hok').
  destruct (negb (_ =? _)%nat); [exact Hok'|].
  destruct (negb (bool_decide _)); exact Hok'.
Qed.

Lemma reachable_ok e : reachable e -> cache_ok e.
Proof.
  induction 1 as [|e key data _ IH|e input salt info chunks _ IH
                  |e data key mac len _ IH|e key data iv _ IH
                  |e key data iv _ IH|e _ IH].
  - apply cache_ok_new.
  - destruct (calculateMAC_ok e key data IH) as (e' & -> & Hok'). exact Hok'.
  - apply deriveSecrets_keeps_ok, IH.
  - apply verifyMAC_keeps_ok, IH.
  - unfold encrypt, bind, lift_result.
    destruct (ValidationUtils.assertBufferLength key _ _); [|exact IH].
    destruct (ValidationUtils.assertBufferLength iv _ _); exact IH.
  - unfold decrypt, bind, lift_result.
    destruct (ValidationUtils.assertBufferLength key _ _); [|exact IH].
    destruct (ValidationUtils.assertBufferLength iv _ _); exact IH.
  - split; intros; cbn in *; rewrite lookup_empty in *; discriminate.
Qed.

(** X11. Memoization never changes a result: in every state that the
    engine reaches from a fresh one through its own methods,
    [calculateMAC] returns the digest that crypto.js's [calculateMAC]
    returns, and [deriveSecrets] with a 32-byte salt and 1 to 3 chunks (or
    none given) returns the blocks that crypto.js's [deriveSecrets]
    returns. *)
Theorem engine_agrees_with_crypto (e : Engine) (key data : bytes)
  (input salt info : bytes) (chunks : option Z) :
  reachable e ->
  fst (calculateMAC key data e) = Ok (Crypto.calculateMAC key data) /\
  (length salt = 32%nat ->
   match chunks with Some c => 1 <= c <= 3 | None => True end ->
   fst (deriveSecrets input salt info chunks e) =
     Crypto.deriveSecrets input salt info chunks).
Proof.
  intros Hreach. apply reachable_ok in Hreach. split.
  - destruct (calculateMAC_ok e key data Hreach) as (e' & -> & _). reflexivity.
  - intros Hsalt Hc. destruct chunks as [c|].
    + destruct (deriveSecrets_ok e input salt info (Some c) c Hreach Hsalt)
        as (e' & -> & _); [right; auto|].
      rewrite deriveSecrets_hkdf by assumption. reflexivity.
    + destruct (deriveSecrets_ok e input salt info None 3 Hreach Hsalt)
        as (e' & -> & _); [left; auto|].
      unfold Crypto.deriveSecrets. rewrite Hsalt.
      rewrite <- (deriveSecrets_hkdf input salt info 3 Hsalt) by lia.
      unfold Crypto.deriveSecrets. rewrite Hsalt. reflexivity.
Qed.

(** X12. The engine's [verifyMAC] accepts exactly the MACs that crypto.js's
    [verifyMAC] accepts, in every state the engine reaches; when the MAC
    has the stated length but the wrong bytes it fails with
    "MAC verification failed" where crypto.js fails with
    "Falha na verificação do MAC". *)
Theorem engine_verifyMAC_agrees (e : Engine) (data key mac : bytes)
  (len : nat) :
  reachable e ->
  (fst (verifyMAC data key mac len e) = Ok tt <->
   Crypto.verifyMAC data key mac len = Ok tt) /\
  (fst (verifyMAC data key mac len e) = Err mac_failure <->
   Crypto.verifyMAC data key mac len = Err Crypto.mac_failure).
Proof.
  intros Hreach. apply reachable_ok in Hreach.
  unfold verifyMAC, Crypto.verifyMAC, Crypto.calculateMAC.
  destruct (negb (length mac =? len)%nat).
  { cbn. unfold mac_failure, Crypto.mac_failure.
    split; split; intros Hx; discriminate Hx. }
  unfold bind.
  destruct (calculateMAC_ok e key data Hreach) as (e' & -> & _).
  destruct (negb (_ =? _)%nat).
  { cbn. split; split; intros Hx; discriminate Hx. }
  destruct (negb (bool_decide _)); cbn.
  - split; split; intros Hx; first [discriminate Hx | reflexivity].
  - split; split; intros Hx; first [discriminate Hx | reflexivity].
Qed.

(** X13. The engine's map has no bound of its own: [calculateMAC] with a
    32-byte key and less than 1024 bytes of data that is not in the map adds
    an entry whatever [_maxCacheSize] says; [clearCache] empties the map. *)
Theorem calculateMAC_grows_cache (e : Engine) (key data : bytes) :
  length key = 32%nat -> (length data < 1024)%nat ->
  _memoCache e !! _generateCacheKey "mac" [PBuffer key; PBuffer data] = None ->
  fst (getCacheStats (snd (calculateMAC key data e))) =
    Ok (S (size (_memoCache e)), _maxCacheSize e) /\
  fst (getCacheStats (snd (clearCache (snd (calculateMAC key data e))))) =
    Ok (0%nat, _maxCacheSize e).
Proof.
  intros Hkey Hdata Hnew.
  unfold calculateMAC, getCacheStats, clearCache, memo_set, bind, get, gets,
    modify, ret.
  rewrite Hkey.
  destruct (Nat.ltb_spec (length data) 1024) as [_|?]; [|lia].
  cbn [Nat.eqb CONSTANTS.KEY_SIZES.MAC andb].
  change ((32 =? CONSTANTS.KEY_SIZES.MAC)%nat) with true. cbn [andb].
  rewrite Hnew. cbn.
  rewrite map_size_insert_None by exact Hnew.
  split; reflexivity.
Qed.

End WithPrimitives.

Lemma engine_agrees_with_crypto_witness :
  fst (@deriveSecrets Sample.primitives [x01] Sample.zeros32 [x02] (Some 2)
         new_Engine) =
    @Crypto.deriveSecrets Sample.primitives [x01] Sample.zeros32 [x02] (Some 2).
Proof.
  apply (@engine_agrees_with_crypto Sample.primitives new_Engine [] []
           [x01] Sample.zeros32 [x02] (Some 2) reachable_new);
    [reflexivity | lia].
Defined.

Lemma engine_verifyMAC_agrees_witness :
  fst (@verifyMAC Sample.primitives [x01] Sample.zeros32 (repeat x00 8) 8
         new_Engine) = Ok tt.
Proof.
  apply (@engine_verifyMAC_agrees Sample.primitives new_Engine [x01]
           Sample.zeros32 (repeat x00 8) 8 reachable_new).
  reflexivity.
Defined.

Lemma calculateMAC_grows_cache_witness :
  fst (getCacheStats
         (snd (@calculateMAC Sample.primitives Sample.zeros32 [x01]
                 new_Engine))) = Ok (1%nat, 100%nat).
Proof.
  apply (@calculateMAC_grows_cache Sample.primitives new_Engine
           Sample.zeros32 [x01]); [reflexivity | simpl; lia | reflexivity].
Defined.

(** X14. Cache keys do not collide: two [calculateMAC] keys are equal only
    for the same key and data, two [deriveSecrets] keys only for the same
    input, salt, info and chunk count, and a key of one operation is never a
    key of the other. *)
Theorem cache_keys_do_not_collide :
  (forall k d k' d' : bytes,
     _generateCacheKey "mac" [PBuffer k; PBuffer d] =
     _generateCacheKey "mac" [PBuffer k'; PBuffer d'] -> k = k' /\ d = d') /\
  (forall (i s f i' s' f' : bytes) (c c' : Z),
     _generateCacheKey "derive" [PBuffer i; PBuffer s; PBuffer f; PNumber c] =
     _generateCacheKey "derive" [PBuffer i'; PBuffer s'; PBuffer f'; PNumber c'] ->
     i = i' /\ s = s' /\ f = f' /\ c = c') /\
  (forall (k d i s f : bytes) (c : Z),
     _generateCacheKey "mac" [PBuffer k; PBuffer d] <>
     _generateCacheKey "derive" [PBuffer i; PBuffer s; PBuffer f; PNumber c]).
Proof.
  split; [|split].
  - intros k d k' d'. apply mac_key_inj.
  - intros i s f i' s' f' c c'. apply derive_key_inj.
  - intros k d i s f c. apply mac_key_not_derive.
Qed.

End EngineAgreement.

(** ** A frame on its way from encrypt to doDecryptWhisperMessage *)

Module Delivery.
Import Monad SessionCipher SessionRecord Sessions EngineMemo Hkdf Frame Encrypt
  FillMessageKeys.

Section WithPrimitives.
Context `{Primitives} `{Protobufs}.

Lemma message_keys_at seed :
  exists k0 k1 k2,
    message_keys seed = [k0; k1; k2] /\ k1 = macKey_of seed.
Proof.
  unfold macKey_of, message_keys, spec_hkdf. cbn. eauto.
Qed.

Lemma frame_parts (msgBuf mac : bytes) :
  length mac = 8%nat ->
  incompatible_version ([x33] ++ msgBuf ++ mac) = false /\
  slice_1_to_minus 8 ([x33] ++ msgBuf ++ mac) = msgBuf /\
  slice_last 8 ([x33] ++ msgBuf ++ mac) = mac.
Proof.
  intros Hmac. split; [reflexivity|]. split.
  - unfold slice_1_to_minus. cbn [app length drop].
    rewrite length_app, Hmac.
    replace (S (length msgBuf + 8) - 8 - 1)%nat with (length msgBuf) by lia.
    apply take_app_length.
  - unfold slice_last. cbn [app length].
    rewrite length_app, Hmac.
    replace (S (length msgBuf + 8) - 8)%nat with (S (length msgBuf)) by lia.
    cbn [drop]. apply drop_app_length.
Qed.

(** A frame for the next counter of a receiving chain, with the MAC and the
    ciphertext made from the keys of that counter, is decrypted. *)
Lemma doDecrypt_next (st : Storage) (now : Z) (fresh : KeyPair)
  (s : SessionEntry.t) (chain : Chain.t) (kk : bytes)
  (msg : WhisperMessage.t) (data : bytes) :
  WhisperMessage_decode (WhisperMessage_encode msg) = Some msg ->
  SessionEntry._chains s !! WhisperMessage.ephemeralKey msg = Some chain ->
  Chain.chainType chain = RECEIVING ->
  ChainKey.key (Chain.chainKey chain) = Some kk ->
  WhisperMessage.counter msg = ChainKey.counter (Chain.chainKey chain) + 1 ->
  length (IndexInfo.remoteIdentityKey (SessionEntry.indexInfo s)) = 33%nat ->
  length (pubKey (getOurIdentity st)) = 33%nat ->
  (forall k0 k1 k2, message_keys (hmac_sha256 kk [x01]) = [k0; k1; k2] ->
     aes_256_cbc_decrypt k0 (WhisperMessage.ciphertext msg) (take 16 k2) =
       Some data) ->
  exists s',
    doDecryptWhisperMessage st now fresh
      ([x33] ++ WhisperMessage_encode msg ++
       take 8 (hmac_sha256 (macKey_of (hmac_sha256 kk [x01]))
                 (IndexInfo.remoteIdentityKey (SessionEntry.indexInfo s) ++
                  pubKey (getOurIdentity st) ++ [x33] ++
                  WhisperMessage_encode msg))) s = (Ok data, s') /\
    SessionEntry.pendingPreKey s' = None /\
    SessionEntry.indexInfo s' = SessionEntry.indexInfo s /\
    SessionEntry.currentRatchet s' = SessionEntry.currentRatchet s /\
    SessionEntry._chains s' =
      <[WhisperMessage.ephemeralKey msg :=
          Chain.set_messageKeys (delete (WhisperMessage.counter msg))
            (chain_step kk chain)]> (SessionEntry._chains s).
Proof.
  intros Hcodec Hchain Hty Hkk Hctr Hremote Hour Haes.
  destruct (frame_parts (WhisperMessage_encode msg)
              (take 8 (hmac_sha256 (macKey_of (hmac_sha256 kk [x01]))
                 (IndexInfo.remoteIdentityKey (SessionEntry.indexInfo s) ++
                  pubKey (getOurIdentity st) ++ [x33] ++
                  WhisperMessage_encode msg))))
    as (Hver & Hproto & Hmac).
  { rewrite length_take, hmac_sha256_length. reflexivity. }
  unfold doDecryptWhisperMessage. rewrite Hver, Hproto, Hcodec.
  unfold maybeStepRatchet, SessionEntry.getChain, SessionEntry.onChain,
    bind, modify, gets, ret, throw.
  cbn [SessionEntry._chains SessionEntry.set_lastAccessed fst snd].
  rewrite Hchain. cbn [SessionEntry._chains SessionEntry.set_lastAccessed].
  rewrite Hchain, Hty.
  rewrite bool_decide_eq_false_2 by discriminate.
  cbn [SessionEntry._chains SessionEntry.set_lastAccessed]. rewrite Hchain.
  rewrite Hctr.
  rewrite fillMessageKeys_unfold.
  destruct (Z_ge_dec _ _); [lia|]. destruct (Z_gt_dec _ _); [lia|].
  rewrite Hkk. rewrite fillMessageKeys_reached by (cbn; lia).
  cbn [SessionEntry._chains SessionEntry.set_chains].
  rewrite lookup_insert_eq.
  unfold take_messageKey. cbn [Chain.messageKeys chain_step].
  rewrite lookup_insert_eq.
  unfold decrypt_with_key, bind, lift_result, get, modify, ret.
  rewrite DeriveSecrets.deriveSecrets_default by reflexivity.
  fold (message_keys (Crypto.calculateMAC kk [x01])).
  unfold Crypto.calculateMAC.
  destruct (message_keys_at (hmac_sha256 kk [x01])) as (k0 & k1 & k2 & Hk & Hk1).
  rewrite Hk.
  cbn [SessionEntry.indexInfo SessionEntry.set_chains
       SessionEntry.set_lastAccessed].
  rewrite build_macInput_concat by assumption.
  cbn [at_index lookup list_lookup].
  unfold at_index. cbn [lookup list_lookup].
  rewrite Hmac. subst k1.
  unfold Crypto.verifyMAC, Crypto.calculateMAC.
  rewrite !length_take, !hmac_sha256_length.
  cbn [Nat.min Nat.eqb negb].
  rewrite bool_decide_eq_true_2 by reflexivity. cbn [negb].
  unfold Crypto.decrypt. rewrite (Haes k0 _ k2 Hk).
  eexists. split; [reflexivity|].
  cbn. split; [reflexivity|]. split; [reflexivity|]. split; [reflexivity|].
  rewrite insert_insert_eq. reflexivity.
Qed.

Section Sender.
Context (st : Storage) (now : Z).

Lemma seal_ciphertext ourId s counter keys data e msg frame e' :
  seal ourId s counter keys data e = (Ok (msg, frame), e') ->
  WhisperMessage.previousCounter msg =
    Ratchet.previousCounter (SessionEntry.currentRatchet s) /\
  exists cipherKey ivSource,
    keys !! 0%nat = Some cipherKey /\ keys !! 2%nat = Some ivSource /\
    aes_256_cbc_encrypt cipherKey data (take 16 ivSource) =
      Some (WhisperMessage.ciphertext msg).
Proof.
  unfold seal. intros Hrun.
  apply bind_Ok_inv in Hrun as (cipherKey & e1 & Hk0 & Hrun).
  apply bind_Ok_inv in Hrun as (ivSource & e2 & Hk2 & Hrun).
  apply bind_Ok_inv in Hrun as (ciphertext & e3 & Henc & Hrun).
  apply bind_Ok_inv in Hrun as (macInput & e4 & _ & Hrun).
  apply bind_Ok_inv in Hrun as (macKey & e5 & _ & Hrun).
  apply bind_Ok_inv in Hrun as (mac & e6 & _ & Hrun).
  apply bind_Ok_inv in Hrun as (result & e8 & _ & Hrun).
  injection Hrun as <- _ _. cbn. split; [reflexivity|].
  unfold lift_result, at_index in Hk0, Hk2.
  destruct (keys !! 0%nat) as [k0|]; [|discriminate Hk0].
  destruct (keys !! 2%nat) as [k2|]; [|discriminate Hk2].
  injection Hk0 as <- _. injection Hk2 as <- _.
  exists k0, k2. split; [reflexivity|]. split; [reflexivity|].
  unfold CryptoEngine.encrypt, bind, lift_result, Crypto.encrypt in Henc.
  destruct (ValidationUtils.assertBufferLength k0 _ _); [|discriminate Henc].
  destruct (ValidationUtils.assertBufferLength (take 16 k2) _ _);
    [|discriminate Henc].
  destruct (aes_256_cbc_encrypt k0 data (take 16 k2)); [|discriminate Henc].
  injection Henc as <- _. reflexivity.
Qed.

(** What a successful [encrypt] has sent: the message, its ciphertext and
    the session it leaves in the record. *)
Lemma encrypt_sealed data w out w' :
  cache_ok (engine w) ->
  encrypt st now data w = (Ok out, w') ->
  exists r ref s chain kk msg rf,
    served st now w = Some r /\
    fst (getOpenSession r) = Ok (Some ref) /\
    lookup_session ref (sessions r) = Some s /\
    SessionEntry._chains s !!
      pubKey (Ratchet.ephemeralKeyPair (SessionEntry.currentRatchet s)) =
      Some chain /\
    Chain.chainType chain <> RECEIVING /\
    ChainKey.key (Chain.chainKey chain) = Some kk /\
    isTrustedIdentity st (addr_id w)
      (IndexInfo.remoteIdentityKey (SessionEntry.indexInfo s)) = true /\
    WhisperMessage.ephemeralKey msg =
      pubKey (Ratchet.ephemeralKeyPair (SessionEntry.currentRatchet s)) /\
    WhisperMessage.counter msg = ChainKey.counter (Chain.chainKey chain) + 1 /\
    WhisperMessage.previousCounter msg =
      Ratchet.previousCounter (SessionEntry.currentRatchet s) /\
    (forall k0 k1 k2, message_keys (hmac_sha256 kk [x01]) = [k0; k1; k2] ->
       aes_256_cbc_encrypt k0 data (take 16 k2) =
         Some (WhisperMessage.ciphertext msg)) /\
    (exists macInput,
       build_macInput (pubKey (our_identity st w))
         (IndexInfo.remoteIdentityKey (SessionEntry.indexInfo s))
         (WhisperMessage_encode msg) 33 = Ok macInput /\
       let frame :=
         [x33] ++ WhisperMessage_encode msg ++
         take 8 (hmac_sha256 (macKey_of (hmac_sha256 kk [x01])) macInput) in
       type out =
         fst (wrapped st (our_identity st w) (after_encrypt now s chain kk) frame) /\
       body out =
         snd (wrapped st (our_identity st w) (after_encrypt now s chain kk) frame)) /\
    sessions rf = update_session ref (after_encrypt now s chain kk) (sessions r) /\
    _cachedRecord w' = Some (snd (removeOldSessions now rf)).
Proof.
  intros Hok. unfold encrypt. intros Hrun.
  apply bind_Ok_inv in Hrun as (ourId & w1 & Hid & Hrun).
  assert (ourId = our_identity st w /\ served st now w1 = served st now w /\
          engine w1 = engine w /\ addr_id w1 = addr_id w) as (-> & Hr1 & He1 & Ha1).
  { unfold getOurIdentityKey, bind, get, our_identity in *.
    destruct (ourIdentityKey w); injection Hid as <- <-; auto. }
  apply bind_Ok_inv in Hrun as ([] & w2 & [= <-] & Hrun).
  apply bind_Ok_inv in Hrun as (record & w2 & Hget & Hrun).
  apply getRecord_Ok_inv in Hget
    as (Hr & Hr2 & Ha2 & _ & _ & _ & _ & He2 & _).
  change (served st now (incr_encryptCount w1)) with (served st now w1) in Hr.
  rewrite Hr1 in Hr.
  cbn [addr_id engine incr_encryptCount] in Ha2, He2.
  destruct record as [r|]; [|discriminate Hrun].
  apply bind_Ok_inv in Hrun as (session & w3 & Hopen & Hrun).
  unfold onRecord in Hopen. rewrite Hr2 in Hopen.
  destruct (getOpenSession r) as [ro r0] eqn:Hgo. injection Hopen as -> <-.
  destruct session as [ref|]; [|discriminate Hrun].
  apply encrypt_with_inv in Hrun
    as (r0' & s & chain & kk & keys & e1 & msg & frame & e2 & rf &
        Hr0 & Hl & Htrust & Hchain & Hty & Hkk & Hkeys & Hseal &
        Htype & Hbody & Hlast & Hrf & Hrec & Heng & _).
  simpl in Hr0. injection Hr0 as <-.
  pose proof (getOpenSession_sessions r) as Hsess. rewrite Hgo in Hsess.
  simpl in Hsess. rewrite Hsess in Hl, Hrf.
  cbn [engine set_cachedRecord] in Hkeys. rewrite He2, He1 in Hkeys.
  destruct (deriveSecrets_ok (engine w) (hmac_sha256 kk [x01]) (Buffer_alloc 32)
              (Buffer_from_string CONSTANTS.MESSAGE_KEYS.DERIVE_INFO) None 3 Hok)
    as (e1' & Hkeys' & Hok1); [reflexivity | left; auto|].
  rewrite Hkeys' in Hkeys. injection Hkeys as <- <-.
  pose proof (seal_ciphertext _ _ _ _ _ _ _ _ _ Hseal)
    as (Hprev & k0 & k2 & Hk0 & Hk2 & Hct).
  apply (seal_inv _ _ _ _ _ _ _ _ _ Hok1) in Hseal
    as (macInput & Heph & Hctr & _ & Hin & -> & Hok2).
  cbn [addr_id set_cachedRecord] in Htrust. rewrite Ha2, Ha1 in Htrust.
  exists r, ref, s, chain, kk, msg, rf.
  rewrite Hgo.
  repeat (split; [first [assumption | reflexivity]|]).
  split.
  { intros k0' k1' k2' Hk.
    change (spec_hkdf (hmac_sha256 kk [x01]) (Buffer_alloc 32)
              (Buffer_from_string CONSTANTS.MESSAGE_KEYS.DERIVE_INFO) 3)
      with (message_keys (hmac_sha256 kk [x01])) in Hk0, Hk2.
    rewrite Hk in Hk0, Hk2. injection Hk0 as <-. injection Hk2 as <-.
    exact Hct. }
  split.
  { exists macInput. split; [exact Hin|]. cbv zeta. split; assumption. }
  split; assumption.
Qed.

Lemma removeOldSessions_keeps_open (rf : t) ref s :
  NoDup (map fst (sessions rf)) ->
  lookup_session ref (sessions rf) = Some s ->
  isClosed s = false ->
  lookup_session ref (sessions (snd (removeOldSessions now rf))) = Some s.
Proof.
  intros Hnd Hl Hopen.
  unfold removeOldSessions, bind, get, ret, modify, _invalidateCaches.
  destruct (_ <? _); [exact Hl|].
  destruct (RemoveOldSessions.cleanup_loop_removes (length (sessions rf))
              {| cl_sessions := sessions rf; sessionEntries := sessions rf;
                 removedCount := 0; deleted := [] |} eq_refl)
    as (d & Hrem & Hsame & _).
  fold (run_cleanup (sessions rf)) in Hrem, Hsame. simpl in Hrem.
  rewrite <- Hsame in Hrem.
  destruct (RemoveOldSessions.removes_spec _ _ _ Hnd Hrem)
    as (Hd & _ & Hrest & _ & Hnd').
  assert (lookup_session ref (cl_sessions (run_cleanup (sessions rf))) = Some s)
    as Hkeep.
  { apply HaveOpenSession.lookup_session_elem; [exact Hnd'|].
    apply Hrest. split; [apply lookup_session_In; exact Hl|].
    intros Hin. apply Hd in Hin as [_ Hclosed].
    unfold is_closed, closed_of in Hclosed. simpl in Hclosed.
    unfold isClosed in Hopen. apply negb_false_iff in Hopen.
    apply Z.eqb_eq in Hopen. contradiction. }
  destruct (_ >? 0); simpl; exact Hkeep.
Qed.

(** X15. A message that [encrypt] sends is read by the other end: when the
    open session of the sender and a session of the receiver are the two
    ends of one ratchet, the inner frame that a successful [encrypt] returns
    is accepted by the receiver's [doDecryptWhisperMessage], which returns
    the plaintext that was encrypted; afterwards the two sessions are again
    the two ends of one ratchet, one counter further.  The codec is assumed
    to read back the message it wrote, and AES decryption to undo AES
    encryption. *)
Theorem encrypt_then_decrypt (stB : Storage) (nowB : Z) (fresh : KeyPair)
  (data : bytes) (w w' : state) (out : encrypted) (r : t) (ref : string)
  (sA sB : SessionEntry.t) (chainA chainB : Chain.t) :
  cache_ok (engine w) ->
  served st now w = Some r ->
  NoDup (map fst (sessions r)) ->
  fst (getOpenSession r) = Ok (Some ref) ->
  lookup_session ref (sessions r) = Some sA ->
  peers (our_identity st w) sA chainA stB sB chainB ->
  (forall m,
     WhisperMessage.ephemeralKey m =
       pubKey (Ratchet.ephemeralKeyPair (SessionEntry.currentRatchet sA)) ->
     WhisperMessage.counter m = ChainKey.counter (Chain.chainKey chainA) + 1 ->
     WhisperMessage.previousCounter m =
       Ratchet.previousCounter (SessionEntry.currentRatchet sA) ->
     WhisperMessage_decode (WhisperMessage_encode m) = Some m) ->
  (forall key plain iv cipher,
     aes_256_cbc_encrypt key plain iv = Some cipher ->
     aes_256_cbc_decrypt key cipher iv = Some plain) ->
  encrypt st now data w = (Ok out, w') ->
  exists frame r' sA' sB' chainA' chainB',
    ((type out = 1 /\ body out = frame) \/
     (type out = 3 /\
      exists pk, body out = x33 :: PreKeyWhisperMessage_encode pk /\
                 PreKeyWhisperMessage.message pk = frame)) /\
    doDecryptWhisperMessage stB nowB fresh frame sB = (Ok data, sB') /\
    _cachedRecord w' = Some r' /\
    lookup_session ref (sessions r') = Some sA' /\
    peers (our_identity st w) sA' chainA' stB sB' chainB' /\
    ChainKey.counter (Chain.chainKey chainA') =
      ChainKey.counter (Chain.chainKey chainA) + 1.
Proof.
  intros Hok Hr Hnd Hopen Hl
    (HidB & HidA & Hlen1 & Hlen2 & HchA & HchB & Hty & Hck) Hcodec Haes Hrun.
  apply (encrypt_sealed data w out w' Hok) in Hrun
    as (r0 & ref0 & s0 & chain0 & kk & msg & rf & Hr0 & Hopen0 & Hl0 & Hch0 &
        _ & Hkk & _ & Heph & Hctr & Hprev & Hct & Hframe & Hrf & Hrec).
  rewrite Hr in Hr0. injection Hr0 as <-.
  rewrite Hopen in Hopen0. injection Hopen0 as <-.
  rewrite Hl in Hl0. injection Hl0 as <-.
  rewrite HchA in Hch0. injection Hch0 as <-.
  destruct Hframe as (macInput & Hin & Htype & Hbody).
  rewrite (build_macInput_concat _ _ _ Hlen1 Hlen2) in Hin.
  injection Hin as <-.
  destruct (doDecrypt_next stB nowB fresh sB chainB kk msg data)
    as (sB' & HrunB & _ & HinfoB & _ & HchainsB).
  { apply Hcodec; assumption. }
  { rewrite Heph. exact HchB. }
  { exact Hty. }
  { rewrite Hck. exact Hkk. }
  { rewrite Hck. exact Hctr. }
  { rewrite HidB. exact Hlen1. }
  { rewrite HidA. exact Hlen2. }
  { intros k0 k1 k2 Hk. apply Haes. eapply Hct. exact Hk. }
  rewrite HidB, HidA in HrunB.
  destruct (getOpenSession_open r ref Hnd Hopen) as (sA0 & HlA & HopenA).
  rewrite Hl in HlA. injection HlA as <-.
  eexists. exists (snd (removeOldSessions now rf)).
  exists (after_encrypt now sA chainA kk), sB'.
  exists (Chain.set_messageKeys
            (delete (ChainKey.counter (Chain.chainKey chainA) + 1))
            (chain_step kk chainA)).
  exists (Chain.set_messageKeys (delete (WhisperMessage.counter msg))
            (chain_step kk chainB)).
  split; [rewrite Htype, Hbody; apply wrapped_cases|].
  split; [exact HrunB|]. split; [exact Hrec|].
  split.
  { apply removeOldSessions_keeps_open.
    - rewrite Hrf, update_keys. exact Hnd.
    - rewrite Hrf. apply (lookup_update_eq _ _ _ _ Hl).
    - exact HopenA. }
  split; [|reflexivity].
  unfold peers. cbn [after_encrypt SessionEntry.currentRatchet
    SessionEntry.indexInfo SessionEntry.set_chains
    SessionEntry.set_lastAccessed SessionEntry._chains].
  rewrite HinfoB, HchainsB, Heph.
  rewrite !lookup_insert_eq.
  repeat (split; [first [assumption | reflexivity]|]).
  cbn. rewrite Hck. reflexivity.
Qed.

(** X16. What a successful [encrypt] leaves in the record: the open
    session is still filed under its key, its sending chain has moved one
    counter on with the key HMAC(key, 0x02), the message key of the sent
    message is not kept and no other message key has changed; the session
    keeps its pending prekey, and the result is of type 3 exactly when
    there is one. *)
Theorem encrypt_advances_chain (data : bytes) (w w' : state) (out : encrypted)
  (r : t) :
  cache_ok (engine w) ->
  served st now w = Some r ->
  NoDup (map fst (sessions r)) ->
  encrypt st now data w = (Ok out, w') ->
  exists ref sA chain kk r' sA' chain',
    fst (getOpenSession r) = Ok (Some ref) /\
    lookup_session ref (sessions r) = Some sA /\
    SessionEntry._chains sA !!
      pubKey (Ratchet.ephemeralKeyPair (SessionEntry.currentRatchet sA)) =
      Some chain /\
    ChainKey.key (Chain.chainKey chain) = Some kk /\
    _cachedRecord w' = Some r' /\
    lookup_session ref (sessions r') = Some sA' /\
    SessionEntry._chains sA' !!
      pubKey (Ratchet.ephemeralKeyPair (SessionEntry.currentRatchet sA)) =
      Some chain' /\
    Chain.chainKey chain' =
      {| ChainKey.counter := ChainKey.counter (Chain.chainKey chain) + 1;
         ChainKey.key := Some (hmac_sha256 kk [x02]) |} /\
    Chain.messageKeys chain' =
      delete (ChainKey.counter (Chain.chainKey chain) + 1)
        (Chain.messageKeys chain) /\
    SessionEntry.currentRatchet sA' = SessionEntry.currentRatchet sA /\
    SessionEntry.indexInfo sA' = SessionEntry.indexInfo sA /\
    SessionEntry.pendingPreKey sA' = SessionEntry.pendingPreKey sA /\
    (type out = 3 <-> is_Some (SessionEntry.pendingPreKey sA)) /\
    (type out = 1 <-> SessionEntry.pendingPreKey sA = None).
Proof.
  intros Hok Hr Hnd Hrun.
  apply (encrypt_sealed data w out w' Hok) in Hrun
    as (r0 & ref & sA & chain & kk & msg & rf & Hr0 & Hopen & Hl & Hch &
        _ & Hkk & _ & Heph & Hctr & Hprev & Hct & Hframe & Hrf & Hrec).
  rewrite Hr in Hr0. injection Hr0 as <-.
  destruct (getOpenSession_open r ref Hnd Hopen) as (sA0 & HlA & HopenA).
  rewrite Hl in HlA. injection HlA as <-.
  exists ref, sA, chain, kk, (snd (removeOldSessions now rf)),
    (after_encrypt now sA chain kk).
  eexists.
  split; [exact Hopen|]. split; [exact Hl|]. split; [exact Hch|].
  split; [exact Hkk|]. split; [exact Hrec|].
  split.
  { apply removeOldSessions_keeps_open.
    - rewrite Hrf, update_keys. exact Hnd.
    - rewrite Hrf. apply (lookup_update_eq _ _ _ _ Hl).
    - exact HopenA. }
  split.
  { cbn [after_encrypt SessionEntry.set_chains SessionEntry._chains].
    apply lookup_insert_eq. }
  split; [reflexivity|].
  split.
  { cbn [Chain.set_messageKeys Chain.messageKeys chain_step].
    apply delete_insert_eq. }
  split; [reflexivity|]. split; [reflexivity|]. split; [reflexivity|].
  destruct Hframe as (macInput & _ & Htype & _).
  rewrite Htype. unfold wrapped.
  cbn [after_encrypt SessionEntry.set_chains SessionEntry.set_lastAccessed
       SessionEntry.pendingPreKey].
  destruct (SessionEntry.pendingPreKey sA); cbn [fst].
  - split; split; intros Hx; try reflexivity; try discriminate Hx.
    eexists. reflexivity.
  - split; split; intros Hx; try reflexivity; try discriminate Hx.
    destruct Hx as [? Hx]. discriminate Hx.
Qed.

End Sender.

End WithPrimitives.

Lemma sample_codec (m : WhisperMessage.t) :
  WhisperMessage.ephemeralKey m = [x42] ->
  WhisperMessage.counter m = 0 ->
  WhisperMessage.previousCounter m = 0 ->
  Sample.decode (Sample.encode m) = Some m.
Proof.
  destruct m as [k c p ct]. cbn. intros -> -> ->. reflexivity.
Qed.

Lemma sample_aes key plain iv cipher :
  Sample.aes key plain iv = Some cipher -> Sample.aes key cipher iv = Some plain.
Proof.
  unfold Sample.aes. destruct (_ && _); [|discriminate].
  intros [= <-]. reflexivity.
Qed.

Lemma sample_keys :
  NoDup (map fst [("s0", Sample.session (-1) (Some 1))]).
Proof. apply (bool_decide_unpack _). vm_compute. exact I. Qed.

Lemma encrypt_then_decrypt_witness :
  exists out frame sB',
    fst sample_encrypt1 = Ok out /\ body out = frame /\
    @doDecryptWhisperMessage Sample.primitives Sample.protobufs
      Sample.peer_storage 30 Sample.identity frame Sample.peer_session =
      (Ok [x68; x69], sB').
Proof.
  destruct sample_encrypt1 as [ro w'] eqn:Hrun.
  assert (exists out, ro = Ok out /\ type out = 1) as (out & -> & Hty).
  { apply (f_equal fst) in Hrun. vm_compute in Hrun. subst ro.
    eexists. split; reflexivity. }
  destruct (@encrypt_then_decrypt Sample.primitives Sample.protobufs
              (Sample.storage true) 20 Sample.peer_storage 30 Sample.identity
              [x68; x69] sample_state w' out
              (Sample.record [("s0", Sample.session (-1) (Some 1))]) "s0"
              (Sample.session (-1) (Some 1)) Sample.peer_session
              (Sample.chain SENDING (Some Sample.zeros32))
              (Sample.chain RECEIVING (Some Sample.zeros32))
              cache_ok_new eq_refl sample_keys)
    as (frame & r' & sA' & sB' & cA & cB & Hframe & HrunB & _).
  - vm_compute. reflexivity.
  - reflexivity.
  - repeat split; vm_compute; reflexivity.
  - intros m. apply sample_codec.
  - intros key plain iv cipher. apply sample_aes.
  - exact Hrun.
  - exists out, frame, sB'. split; [reflexivity|].
    split; [|exact HrunB].
    destruct Hframe as [[_ Hb]|[Hty3 _]]; [exact Hb|].
    rewrite Hty in Hty3. discriminate Hty3.
Defined.

Lemma encrypt_advances_chain_witness :
  exists out w' r' sA' chain',
    sample_encrypt1 = (Ok out, w') /\ _cachedRecord w' = Some r' /\
    lookup_session "s0" (sessions r') = Some sA' /\
    SessionEntry._chains sA' !! [x42] = Some chain' /\
    ChainKey.counter (Chain.chainKey chain') = 0 /\
    Chain.messageKeys chain' = ∅.
Proof.
  destruct sample_encrypt1 as [ro w'] eqn:Hrun.
  assert (exists out, ro = Ok out) as (out & ->).
  { apply (f_equal fst) in Hrun. vm_compute in Hrun. subst ro. eauto. }
  destruct (@encrypt_advances_chain Sample.primitives Sample.protobufs
              (Sample.storage true) 20 [x68; x69] sample_state w' out
              (Sample.record [("s0", Sample.session (-1) (Some 1))])
              cache_ok_new eq_refl sample_keys Hrun)
    as (ref & sA & chain & kk & r' & sA' & chain' & Hopen & Hl & Hch & Hkk &
        Hrec & Hl' & Hch' & Hck & Hmk & _).
  vm_compute in Hopen. injection Hopen as <-.
  vm_compute in Hl. injection Hl as <-.
  cbn in Hch. injection Hch as <-.
  exists out, w', r', sA', chain'.
  split; [reflexivity|]. split; [exact Hrec|]. split; [exact Hl'|].
  split; [exact Hch'|]. rewrite Hck, Hmk. split; reflexivity.
Defined.

End Delivery.

(** ** The errors of decryptWhisperMessage *)

Module TrialDecryption.
Import Monad SessionCipher SessionRecord Sessions Decrypt Encrypt Untrusted.

Section WithPrimitives.
Context `{Primitives} `{Protobufs} (st : Storage) (now : Z).

Lemma try_sessions_Err fresh data refs : forall i r e r1,
  try_sessions st now fresh i data refs r = (Err e, r1) ->
  e = SessionError "No matching sessions found for message".
Proof.
  induction refs as [|session rest IH]; intros i r e r1; simpl.
  - intros [= <- _]. reflexivity.
  - destruct (SessionRecord.onSession session _ r) as [[p|e0] r'] eqn:Hdec;
      [|apply IH].
    unfold bind, ret, SessionRecord.onSession, modify.
    unfold SessionRecord.onSession in Hdec.
    destruct (lookup_session session (sessions r)) as [s0|] eqn:Hl;
      [|discriminate Hdec].
    destruct (doDecryptWhisperMessage _ _ _ _ s0) as [rd s0'] eqn:Hrun.
    injection Hdec as -> <-. simpl.
    rewrite (lookup_update_eq _ _ _ _ Hl). discriminate.
Qed.

Lemma removeOldSessions_returns (r : t) :
  exists n, fst (removeOldSessions now r) = Ok n.
Proof.
  unfold removeOldSessions, bind, get, ret, modify, _invalidateCaches.
  destruct (_ <? _); cbn; [eauto|].
  destruct (_ >? 0); cbn; eauto.
Qed.

(** X17. A [decryptWhisperMessage] call that fails has failed in one of two
    ways.  Either [storage.storeSession] was not called, and the error is
    the rejection of [storage.loadSession], the [TypeError] of [getRecord]
    for a loaded value that is no [SessionRecord], [SessionError] for no
    record, no sessions or no session that decrypts the frame, or
    [UntrustedIdentityKeyError] for this address and a key that
    [isTrustedIdentity] refuses: what the sessions threw while they were
    tried, a [MessageCounterError] for a replayed frame included, is not
    passed on.  Or a session has decrypted the frame,
    [storage.storeSession] was called with the record and the error is its
    rejection. *)
Theorem decryptWhisperMessage_errors (fresh : nat -> KeyPair) (data : bytes)
  (w w' : state) (e : error) :
  decryptWhisperMessage st now fresh data w = (Err e, w') ->
  (storeSession_log w' = storeSession_log w /\
   ((cache_hit now w = false /\ loadSession st = Err e) \/
    (cache_hit now w = false /\ loadSession st = Ok LoadedOther /\
     e = TypeError "SessionRecord type expected from loadSession") \/
    (cache_hit now w = false /\ loadSession st = Ok LoadedNothing /\
     e = SessionError "No session record") \/
    (is_Some (served st now w) /\
     (e = SessionError "No sessions available" \/
      e = SessionError "No matching sessions found for message" \/
      exists key, e = UntrustedIdentityKeyError (addr_id w) key /\
                  isTrustedIdentity st (addr_id w) key = false)))) \/
  (exists r, is_Some (served st now w) /\
     storeSession_log w' = r :: storeSession_log w /\
     storeSession st r = Err e).
Proof.
  unfold decryptWhisperMessage, bind, modify.
  assert (cache_hit now (incr_decryptCount w) = cache_hit now w) as Hhit
    by reflexivity.
  pose proof (getRecord_cases st now (incr_decryptCount w)) as Hcases.
  rewrite Hhit in Hcases.
  destruct (getRecord st now false (incr_decryptCount w)) as [[o|e0] w1]
    eqn:Hg.
  2:{ intros [= <- <-]. left.
      destruct Hcases as [[_ [=]]|[Hm Hg']].
      destruct (loadSession st) as [[|r|]|e1];
        first [discriminate Hg' | injection Hg' as -> ->];
        (split; [reflexivity|]); auto 10. }
  apply getRecord_Ok_inv in Hg as (Hs & Hc & Ha & _ & _ & _ & _ & _ & Hlog).
  change (served st now (incr_decryptCount w)) with (served st now w) in Hs.
  cbn [addr_id storeSession_log incr_decryptCount] in Ha, Hlog.
  destruct o as [r|].
  2:{ intros [= <- <-]. left. split; [exact Hlog|].
      destruct Hcases as [[Hh [= Hg' _]]|[Hm Hg']].
      - unfold cache_hit in Hh. cbn in Hg'. rewrite <- Hg' in Hh.
        discriminate Hh.
      - destruct (loadSession st) as [[|r|]|e1]; try discriminate Hg'.
        auto 10. }
  clear Hcases Hhit.
  assert (is_Some (served st now w)) as Hsome by (rewrite Hs; eauto).
  unfold bind, get.
  unfold onRecord at 1. rewrite Hc.
  destruct (getSessions r) as [rs r0] eqn:Hget.
  assert (exists refs, rs = Ok refs) as (refs & ->).
  { unfold getSessions, bump, bind, get, ret, modify in Hget. cbn in Hget.
    destruct (_sortedSessionsCache r); injection Hget as <- _; eauto. }
  unfold onRecord at 1. cbn [_cachedRecord set_cachedRecord].
  destruct (decryptWithSessions st now fresh data refs r0)
    as [[[ref p]|e0] r1] eqn:Hdec.
  - destruct (decryptWithSessions_Ok _ _ _ _ _ _ _ _ _ Hdec)
      as (s & message & Hl & _).
    unfold SessionCipher.onSession, onRecord, SessionRecord.onSession, get.
    cbn [_cachedRecord set_cachedRecord fst snd]. rewrite Hl.
    cbn [addr_id set_cachedRecord]. rewrite Ha.
    destruct (isTrustedIdentity st (addr_id w) _) eqn:Htrust.
    + cbn [negb]. unfold storeRecord, bind, onRecord, get, modify,
        lift_result.
      cbn [_cachedRecord set_cachedRecord].
      match goal with
      | |- context [removeOldSessions now ?x] =>
        destruct (removeOldSessions_returns x) as [n Hn];
        destruct (removeOldSessions now x) as [rn rr]
      end.
      cbn in Hn. subst rn.
      cbn [_cachedRecord set_cachedRecord log_storeSession].
      destruct (storeSession st rr) as [[]|e1] eqn:Hst; [discriminate|].
      intros [= <- <-]. right. exists rr.
      cbn [storeSession_log log_storeSession set_cachedRecord].
      rewrite Hlog. auto.
    + cbn [negb]. unfold throw. intros [= <- <-].
      left. cbn [storeSession_log set_cachedRecord].
      split; [exact Hlog|]. right. right. right. split; [exact Hsome|].
      right. right. eauto.
  - intros [= <- <-]. left. cbn [storeSession_log set_cachedRecord].
    split; [exact Hlog|]. right. right. right. split; [exact Hsome|].
    unfold decryptWithSessions in Hdec. destruct refs as [|ref refs].
    + injection Hdec as <- _. auto.
    + apply try_sessions_Err in Hdec. auto.
Qed.

End WithPrimitives.

Lemma decryptWhisperMessage_errors_witness :
  let refused :=
    @decryptWhisperMessage Sample.primitives Sample.protobufs
      (Sample.storage_with (Ok LoadedOther) (Ok tt)) 20
      (fun _ => Sample.identity) (Sample.frame (repeat x00 8))
      (Sample.cipher None) in
  let unsaved :=
    @decryptWhisperMessage Sample.primitives Sample.protobufs
      (Sample.storage_with
         (Ok (LoadedRecord
                (Sample.record [("s0", Sample.session (-1) (Some 1))])))
         (Err (ExternalError "storeSession"))) 20
      (fun _ => Sample.identity) (Sample.frame (repeat x00 8))
      (Sample.cipher None) in
  (fst refused =
     Err (TypeError "SessionRecord type expected from loadSession") /\
   storeSession_log (snd refused) = []) /\
  (fst unsaved = Err (ExternalError "storeSession") /\
   length (storeSession_log (snd unsaved)) = 1%nat).
Proof.
  intros refused unsaved. split.
  - destruct refused as [ro w'] eqn:Hrun.
    assert (exists e, ro = Err e) as (e & ->).
    { apply (f_equal fst) in Hrun. vm_compute in Hrun. subst ro. eauto. }
    apply (@decryptWhisperMessage_errors Sample.primitives Sample.protobufs)
      in Hrun.
    cbn [fst snd].
    destruct Hrun
      as [(Hlog & [(_ & [=])|[(_ & _ & ->)|[(_ & [=] & _)|
                   ([r Hs] & _)]]])|(r & [r0 Hs] & _)];
      first [discriminate Hs | split; [reflexivity | exact Hlog]].
  - destruct unsaved as [ro w'] eqn:Hrun.
    assert (ro = Err (ExternalError "storeSession")) as ->.
    { apply (f_equal fst) in Hrun. vm_compute in Hrun. subst ro. reflexivity. }
    apply (@decryptWhisperMessage_errors Sample.primitives Sample.protobufs)
      in Hrun.
    cbn [fst snd]. split; [reflexivity|].
    destruct Hrun
      as [(_ & [(_ & [=])|[(_ & [=] & _)|[(_ & [=] & _)|
                (_ & [[=]|[[=]|(key & [=] & _)]])]]])|(r & _ & -> & _)].
    reflexivity.
Defined.

End TrialDecryption.

(** ** The DH ratchet *)

Module RatchetStep.
Import Monad SessionCipher FillMessageKeys Hkdf.

Section WithPrimitives.
Context `{Primitives}.

Lemma calculateRatchet_run now remoteKey (sending : bool) s sharedSecret :
  calculateAgreement remoteKey
    (privKey (Ratchet.ephemeralKeyPair (SessionEntry.currentRatchet s))) =
    Some sharedSecret ->
  length (Ratchet.rootKey (SessionEntry.currentRatchet s)) = 32%nat ->
  let key := if sending
             then pubKey (Ratchet.ephemeralKeyPair (SessionEntry.currentRatchet s))
             else remoteKey in
  SessionEntry._chains s !! key = None ->
  let keys := ratchet_keys sharedSecret
                (Ratchet.rootKey (SessionEntry.currentRatchet s)) in
  exists s',
    calculateRatchet now remoteKey sending s = (Ok tt, s') /\
    SessionEntry._chains s' =
      <[key := fresh_chain (if sending then SENDING else RECEIVING) (snd keys)]>
        (SessionEntry._chains s) /\
    SessionEntry.currentRatchet s' =
      {| Ratchet.ephemeralKeyPair :=
           Ratchet.ephemeralKeyPair (SessionEntry.currentRatchet s);
         Ratchet.lastRemoteEphemeralKey :=
           Ratchet.lastRemoteEphemeralKey (SessionEntry.currentRatchet s);
         Ratchet.previousCounter :=
           Ratchet.previousCounter (SessionEntry.currentRatchet s);
         Ratchet.rootKey := fst keys |} /\
    SessionEntry.indexInfo s' = SessionEntry.indexInfo s /\
    SessionEntry.pendingPreKey s' = SessionEntry.pendingPreKey s.
Proof.
  intros Hagree Hroot key Hfree keys.
  unfold calculateRatchet, bind, get, lift_result. rewrite Hagree.
  rewrite deriveSecrets_hkdf by (auto; lia).
  unfold SessionEntry.addChain, bind, get, modify, SessionEntry._invalidateCache.
  fold key. rewrite Hfree.
  eexists. split; [reflexivity|].
  cbn. repeat split.
Qed.

Lemma calculateRatchet_taken now remoteKey (sending : bool) s sharedSecret :
  calculateAgreement remoteKey
    (privKey (Ratchet.ephemeralKeyPair (SessionEntry.currentRatchet s))) =
    Some sharedSecret ->
  length (Ratchet.rootKey (SessionEntry.currentRatchet s)) = 32%nat ->
  let key := if sending
             then pubKey (Ratchet.ephemeralKeyPair (SessionEntry.currentRatchet s))
             else remoteKey in
  is_Some (SessionEntry._chains s !! key) ->
  calculateRatchet now remoteKey sending s =
    (Err (JsError "Overwrite attempt"), s).
Proof.
  intros Hagree Hroot key [c Hc].
  unfold calculateRatchet, bind, get, lift_result. rewrite Hagree.
  rewrite deriveSecrets_hkdf by (auto; lia).
  unfold SessionEntry.addChain, bind, get, throw.
  fold key. rewrite Hc. reflexivity.
Qed.

(** X18. The two ends of a DH ratchet step derive the same keys.  Two
    sessions hold the same root key of 32 bytes and their ephemeral key
    pairs agree on a shared secret.  When neither session has a chain filed
    under the sender's ephemeral public key, [calculateRatchet] for sending
    on the one and [calculateRatchet] for receiving on the other file a
    sending and a receiving chain under that key, both at counter -1 with
    the same chain key, and leave the same new root key in both sessions.
    On a session that has a chain filed under that key, [calculateRatchet]
    throws [Error("Overwrite attempt")] and leaves the session, its root key
    included, as it was. *)
Theorem calculateRatchet_agrees (nowA nowB : Z) (sA sB : SessionEntry.t)
  (sharedSecret : bytes) :
  let kpA := Ratchet.ephemeralKeyPair (SessionEntry.currentRatchet sA) in
  let kpB := Ratchet.ephemeralKeyPair (SessionEntry.currentRatchet sB) in
  calculateAgreement (pubKey kpB) (privKey kpA) = Some sharedSecret ->
  calculateAgreement (pubKey kpA) (privKey kpB) = Some sharedSecret ->
  Ratchet.rootKey (SessionEntry.currentRatchet sB) =
    Ratchet.rootKey (SessionEntry.currentRatchet sA) ->
  length (Ratchet.rootKey (SessionEntry.currentRatchet sA)) = 32%nat ->
  (SessionEntry._chains sA !! pubKey kpA = None ->
   SessionEntry._chains sB !! pubKey kpA = None ->
   exists sA' sB' chainA chainB,
     calculateRatchet nowA (pubKey kpB) true sA = (Ok tt, sA') /\
     calculateRatchet nowB (pubKey kpA) false sB = (Ok tt, sB') /\
     SessionEntry._chains sA' !! pubKey kpA = Some chainA /\
     SessionEntry._chains sB' !! pubKey kpA = Some chainB /\
     Chain.chainType chainA = SENDING /\
     Chain.chainType chainB = RECEIVING /\
     Chain.chainKey chainB = Chain.chainKey chainA /\
     ChainKey.counter (Chain.chainKey chainA) = -1 /\
     Ratchet.rootKey (SessionEntry.currentRatchet sB') =
       Ratchet.rootKey (SessionEntry.currentRatchet sA') /\
     length (Ratchet.rootKey (SessionEntry.currentRatchet sA')) = 32%nat) /\
  (is_Some (SessionEntry._chains sA !! pubKey kpA) ->
   calculateRatchet nowA (pubKey kpB) true sA =
     (Err (JsError "Overwrite attempt"), sA)) /\
  (is_Some (SessionEntry._chains sB !! pubKey kpA) ->
   calculateRatchet nowB (pubKey kpA) false sB =
     (Err (JsError "Overwrite attempt"), sB)).
Proof.
  intros kpA kpB HagreeA HagreeB Hroot Hlen.
  split; [|split].
  - intros HfreeA HfreeB.
    destruct (calculateRatchet_run nowA (pubKey kpB) true sA sharedSecret
                HagreeA Hlen HfreeA) as (sA' & HrunA & HchA & HrA & _).
    destruct (calculateRatchet_run nowB (pubKey kpA) false sB sharedSecret
                HagreeB ltac:(rewrite Hroot; exact Hlen) HfreeB)
      as (sB' & HrunB & HchB & HrB & _).
    exists sA', sB'. eexists. eexists.
    split; [exact HrunA|]. split; [exact HrunB|].
    rewrite HchA, HchB, HrA, HrB, Hroot.
    split; [apply lookup_insert_eq|]. split; [apply lookup_insert_eq|].
    cbn. repeat split. apply hmac_sha256_length.
  - apply (calculateRatchet_taken nowA (pubKey kpB) true sA sharedSecret
             HagreeA Hlen).
  - apply (calculateRatchet_taken nowB (pubKey kpA) false sB sharedSecret
             HagreeB). rewrite Hroot. exact Hlen.
Qed.

Lemma calculateRatchet_inv now remoteKey (sending : bool) s s' :
  calculateRatchet now remoteKey sending s = (Ok tt, s') ->
  let key := if sending
             then pubKey (Ratchet.ephemeralKeyPair (SessionEntry.currentRatchet s))
             else remoteKey in
  exists ck root,
    SessionEntry._chains s !! key = None /\
    SessionEntry._chains s' =
      <[key := {| Chain.messageKeys := ∅;
                  Chain.chainKey := {| ChainKey.counter := -1;
                                       ChainKey.key := ck |};
                  Chain.chainType := if sending then SENDING else RECEIVING |}]>
        (SessionEntry._chains s) /\
    SessionEntry.currentRatchet s' =
      {| Ratchet.ephemeralKeyPair :=
           Ratchet.ephemeralKeyPair (SessionEntry.currentRatchet s);
         Ratchet.lastRemoteEphemeralKey :=
           Ratchet.lastRemoteEphemeralKey (SessionEntry.currentRatchet s);
         Ratchet.previousCounter :=
           Ratchet.previousCounter (SessionEntry.currentRatchet s);
         Ratchet.rootKey := root |}.
Proof.
  intros Hrun key. unfold calculateRatchet, bind, get, lift_result in Hrun.
  destruct (calculateAgreement _ _) as [ss|]; [|discriminate Hrun].
  destruct (Crypto.deriveSecrets _ _ _ _) as [masterKey|]; [|discriminate Hrun].
  unfold SessionEntry.addChain, bind, get, modify, SessionEntry._invalidateCache,
    throw in Hrun.
  fold key in Hrun.
  destruct (SessionEntry._chains s !! key) eqn:Hfree; [discriminate Hrun|].
  cbn in Hrun. injection Hrun as <-.
  eexists. eexists. split; [reflexivity|]. cbn. split; reflexivity.
Qed.

(** X19. A DH ratchet step.  [maybeStepRatchet] does nothing but note the
    access when [getChain] finds something under the remote key: a chain of
    the session, or the member that [_chains] inherits from
    [Object.prototype] when the base64 text of the key is "toString" or
    "propertyIsEnumerable".  Otherwise (no chain under the remote key, which
    is neither of these two and differs from our ephemeral key) a call that
    returns has filed a receiving chain under the remote key and a sending
    chain under the new ephemeral public key, both at counter -1 with no
    message keys, has made the new pair and the remote key the current
    ratchet, has removed the old sending chain and recorded its counter as
    [previousCounter], and has closed the previous receiving chain (its
    chain key is deleted).  The next call for the same remote key changes
    nothing but the access time. *)
Theorem maybeStepRatchet_steps (now now2 : Z) (fresh fresh2 : KeyPair)
  (remoteKey : bytes) (previousCounter previousCounter2 : Z)
  (s s' : SessionEntry.t) :
  maybeStepRatchet now fresh remoteKey previousCounter s = (Ok tt, s') ->
  let old := SessionEntry.currentRatchet s in
  let ourPub := pubKey (Ratchet.ephemeralKeyPair old) in
  let lastRemote := Ratchet.lastRemoteEphemeralKey old in
  (is_Some (SessionEntry._chains s !! remoteKey) \/
   remoteKey ∈ SessionEntry.Object_prototype_ids ->
   s' = SessionEntry.set_lastAccessed now s) /\
  (SessionEntry._chains s !! remoteKey = None ->
   remoteKey ∉ SessionEntry.Object_prototype_ids ->
   remoteKey <> ourPub ->
   Ratchet.ephemeralKeyPair (SessionEntry.currentRatchet s') = fresh /\
   Ratchet.lastRemoteEphemeralKey (SessionEntry.currentRatchet s') = remoteKey /\
   (exists ck,
      SessionEntry._chains s' !! remoteKey =
        Some {| Chain.messageKeys := ∅;
                Chain.chainKey := {| ChainKey.counter := -1;
                                     ChainKey.key := ck |};
                Chain.chainType := RECEIVING |}) /\
   (exists ck,
      SessionEntry._chains s' !! pubKey fresh =
        Some {| Chain.messageKeys := ∅;
                Chain.chainKey := {| ChainKey.counter := -1;
                                     ChainKey.key := ck |};
                Chain.chainType := SENDING |}) /\
   (forall sending,
      SessionEntry._chains s !! ourPub = Some sending ->
      lastRemote <> ourPub ->
      Ratchet.previousCounter (SessionEntry.currentRatchet s') =
        ChainKey.counter (Chain.chainKey sending) /\
      (ourPub <> pubKey fresh -> SessionEntry._chains s' !! ourPub = None)) /\
   (forall receiving,
      SessionEntry._chains s !! lastRemote = Some receiving ->
      lastRemote <> ourPub ->
      exists closed,
        SessionEntry._chains s' !! lastRemote = Some closed /\
        ChainKey.key (Chain.chainKey closed) = None /\
        Chain.chainType closed = Chain.chainType receiving) /\
   maybeStepRatchet now2 fresh2 remoteKey previousCounter2 s' =
     (Ok tt, SessionEntry.set_lastAccessed now2 s')).
Proof.
  intros Hrun old ourPub lastRemote.
  unfold maybeStepRatchet in Hrun.
  apply Encrypt.bind_Ok_inv in Hrun as (c0 & s0 & Hget & Hrun).
  unfold SessionEntry.getChain, bind, modify, gets in Hget.
  injection Hget as <- <-.
  cbn [SessionEntry._chains SessionEntry.set_lastAccessed] in Hrun.
  assert (forall x, is_Some (SessionEntry._chains x !! remoteKey) ->
            maybeStepRatchet now2 fresh2 remoteKey previousCounter2 x =
              (Ok tt, SessionEntry.set_lastAccessed now2 x)) as Hagain.
  { intros x [c Hc]. unfold maybeStepRatchet, SessionEntry.getChain, bind,
      modify, gets, ret. cbn. rewrite Hc. reflexivity. }
  destruct (SessionEntry._chains s !! remoteKey) as [c|] eqn:Hremote.
  { injection Hrun as <-. split; [reflexivity | discriminate]. }
  destruct (bool_decide (remoteKey ∈ SessionEntry.Object_prototype_ids))
    eqn:Hproto.
  { injection Hrun as <-. split; [reflexivity|]. intros _ Hn.
    apply bool_decide_eq_true_1 in Hproto. contradiction. }
  apply bool_decide_eq_false_1 in Hproto.
  split; [intros [[? Hx]|Hx]; [discriminate Hx | contradiction]|].
  intros _ _ Hnour.
  apply Encrypt.bind_Ok_inv in Hrun as (s1 & s1' & [= <- <-] & Hrun).
  apply Encrypt.bind_Ok_inv in Hrun as (prev & s2 & Hprev & Hrun).
  unfold SessionEntry.getChain, bind, modify, gets in Hprev.
  injection Hprev as <- <-.
  cbn [SessionEntry._chains SessionEntry.set_lastAccessed
       SessionEntry.currentRatchet] in Hrun.
  fold old in Hrun. fold lastRemote in Hrun.
  apply Encrypt.bind_Ok_inv in Hrun as ([] & s3 & Hclose & Hrun).
  (* the previous receiving chain *)
  assert (SessionEntry.currentRatchet s3 = old /\
          SessionEntry._chains s3 !! remoteKey = None /\
          (forall k, k <> lastRemote ->
             SessionEntry._chains s3 !! k = SessionEntry._chains s !! k) /\
          (forall receiving,
             SessionEntry._chains s !! lastRemote = Some receiving ->
             exists closed,
               SessionEntry._chains s3 !! lastRemote = Some closed /\
               ChainKey.key (Chain.chainKey closed) = None /\
               Chain.chainType closed = Chain.chainType receiving) /\
          (SessionEntry._chains s !! lastRemote = None ->
           SessionEntry._chains s3 !! lastRemote = None))
    as (Hr3 & Hrem3 & Hother3 & Hclosed3 & Hnone3).
  { destruct (SessionEntry._chains s !! lastRemote) as [pr|] eqn:Hpr.
    - unfold SessionEntry.onChain in Hclose.
      cbn [SessionEntry._chains SessionEntry.set_lastAccessed] in Hclose.
      rewrite Hpr in Hclose.
      destruct ((fillMessageKeys previousCounter;; close_chain) pr)
        as [rc pr'] eqn:Hfc.
      injection Hclose as -> <-.
      apply Encrypt.bind_Ok_inv in Hfc as ([] & pr1 & Hfill & Hcl).
      unfold close_chain, modify in Hcl. injection Hcl as <-.
      apply Decrypt.fillMessageKeys_post in Hfill as [Hty _].
      cbn [SessionEntry.currentRatchet SessionEntry.set_chains
           SessionEntry._chains SessionEntry.set_lastAccessed].
      split; [reflexivity|].
      assert (remoteKey <> lastRemote) as Hne
        by (intros ->; rewrite Hpr in Hremote; discriminate Hremote).
      split; [rewrite lookup_insert_ne by congruence; exact Hremote|].
      split; [intros k Hk; apply lookup_insert_ne; congruence|].
      split; [|discriminate].
      intros receiving [= <-]. eexists. rewrite lookup_insert_eq.
      split; [reflexivity|]. cbn. split; [reflexivity | exact Hty].
    - destruct (bool_decide (lastRemote ∈ SessionEntry.Object_prototype_ids));
        [discriminate Hclose|].
      injection Hclose as <-.
      cbn [SessionEntry.currentRatchet SessionEntry._chains
           SessionEntry.set_lastAccessed].
      split; [reflexivity|]. split; [exact Hremote|].
      split; [reflexivity|]. split; [discriminate | auto]. }
  clear Hclose.
  apply Encrypt.bind_Ok_inv in Hrun as ([] & s4 & Hcalc & Hrun).
  apply calculateRatchet_inv in Hcalc as (ck & root & _ & Hch4 & Hr4).
  cbv zeta in Hch4. rewrite Hr3 in Hr4. cbn in Hr4.
  apply Encrypt.bind_Ok_inv in Hrun as (s5 & s5' & [= <- <-] & Hrun).
  apply Encrypt.bind_Ok_inv in Hrun as (pc & s6 & Hpc & Hrun).
  unfold SessionEntry.getChain, bind, modify, gets in Hpc.
  injection Hpc as <- <-.
  rewrite Hr4 in Hrun.
  cbn [Ratchet.ephemeralKeyPair SessionEntry._chains
       SessionEntry.set_lastAccessed] in Hrun.
  fold ourPub in Hrun.
  apply Encrypt.bind_Ok_inv in Hrun as ([] & s7 & Hdel & Hrun).
  (* the old sending chain *)
  assert (Ratchet.ephemeralKeyPair (SessionEntry.currentRatchet s7) =
            Ratchet.ephemeralKeyPair old /\
          SessionEntry._chains s7 = delete ourPub (SessionEntry._chains s4) /\
          (forall sending,
             SessionEntry._chains s4 !! ourPub = Some sending ->
             Ratchet.previousCounter (SessionEntry.currentRatchet s7) =
               ChainKey.counter (Chain.chainKey sending)))
    as (Hr7 & Hch7 & Hpc7).
  { destruct (SessionEntry._chains s4 !! ourPub) as [sc|] eqn:Hsc.
    - apply Encrypt.bind_Ok_inv in Hdel as ([] & s6' & [= <-] & Hdel).
      unfold SessionEntry.deleteChain, bind, get, modify,
        SessionEntry._invalidateCache in Hdel.
      cbn [SessionEntry._chains SessionEntry.set_currentRatchet
           SessionEntry.set_lastAccessed] in Hdel.
      rewrite Hsc in Hdel. injection Hdel as <-. cbn.
      rewrite Hr4. cbn. split; [reflexivity|]. split; [reflexivity|].
      intros sending [= <-]. reflexivity.
    - destruct (bool_decide (ourPub ∈ SessionEntry.Object_prototype_ids));
        [discriminate Hdel|].
      injection Hdel as <-. cbn. rewrite Hr4. cbn.
      split; [reflexivity|]. split; [|discriminate].
      symmetry. apply delete_id. exact Hsc. }
  clear Hdel.
  apply Encrypt.bind_Ok_inv in Hrun as ([] & s8 & [= <-] & Hrun).
  apply Encrypt.bind_Ok_inv in Hrun as ([] & s9 & Hcalc2 & Hrun).
  apply calculateRatchet_inv in Hcalc2 as (ck2 & root2 & Hfree9 & Hch9 & Hr9).
  cbv zeta in Hch9, Hfree9. cbn in Hch9, Hr9, Hfree9.
  unfold modify in Hrun. injection Hrun as <-.
  assert (SessionEntry._chains s4 !! remoteKey =
            Some {| Chain.messageKeys := ∅;
                    Chain.chainKey := {| ChainKey.counter := -1;
                                         ChainKey.key := ck |};
                    Chain.chainType := RECEIVING |}) as Hrecv
    by (rewrite Hch4; apply lookup_insert_eq).
  assert (remoteKey <> pubKey fresh) as Hnf.
  { intros Heq. rewrite Hch7, <- Heq in Hfree9.
    rewrite lookup_delete_ne, Hrecv in Hfree9 by congruence.
    discriminate Hfree9. }
  assert (SessionEntry._chains
            (SessionEntry.set_currentRatchet
               (fun r =>
                  {| Ratchet.ephemeralKeyPair := Ratchet.ephemeralKeyPair r;
                     Ratchet.lastRemoteEphemeralKey := remoteKey;
                     Ratchet.previousCounter := Ratchet.previousCounter r;
                     Ratchet.rootKey := Ratchet.rootKey r |}) s9) !! remoteKey =
          Some {| Chain.messageKeys := ∅;
                  Chain.chainKey := {| ChainKey.counter := -1;
                                       ChainKey.key := ck |};
                  Chain.chainType := RECEIVING |}) as Hthere.
  { cbn. rewrite Hch9, lookup_insert_ne by congruence.
    rewrite Hch7, lookup_delete_ne by congruence. exact Hrecv. }
  split; [cbn; rewrite Hr9; reflexivity|].
  split; [reflexivity|].
  split; [eauto|].
  split; [exists ck2; cbn; rewrite Hch9; apply lookup_insert_eq|].
  split.
  { intros sending Hsend Hlr.
    assert (SessionEntry._chains s4 !! ourPub = Some sending) as Hs4.
    { rewrite Hch4, lookup_insert_ne by congruence.
      rewrite Hother3 by congruence. exact Hsend. }
    split.
    - cbn. rewrite Hr9. cbn. apply Hpc7. exact Hs4.
    - intros Hof. cbn. rewrite Hch9, lookup_insert_ne by congruence.
      rewrite Hch7. apply lookup_delete_eq. }
  split; [|apply Hagain; eauto].
  intros receiving Hrecvd Hlr.
  destruct (Hclosed3 receiving Hrecvd) as (closed & Hcl & Hk & Hty).
  assert (lastRemote <> remoteKey) as Hlrem
    by (intros Heq; rewrite Heq, Hremote in Hrecvd; discriminate Hrecvd).
  assert (SessionEntry._chains s7 !! lastRemote = Some closed) as Hs7.
  { rewrite Hch7, lookup_delete_ne by congruence.
    rewrite Hch4, lookup_insert_ne by congruence. exact Hcl. }
  assert (lastRemote <> pubKey fresh) as Hlf
    by (intros Heq; rewrite <- Heq, Hs7 in Hfree9; discriminate Hfree9).
  exists closed. split; [|split; assumption].
  cbn. rewrite Hch9, lookup_insert_ne by congruence. exact Hs7.
Qed.

End WithPrimitives.

Lemma calculateRatchet_agrees_witness :
  (exists sA' sB' chainA chainB,
     @calculateRatchet Sample.primitives 20 [x44; x45] true sample_sender =
       (Ok tt, sA') /\
     @calculateRatchet Sample.primitives 30 [x44] false sample_receiver =
       (Ok tt, sB') /\
     SessionEntry._chains sA' !! [x44] = Some chainA /\
     SessionEntry._chains sB' !! [x44] = Some chainB /\
     Chain.chainKey chainB = Chain.chainKey chainA /\
     Ratchet.rootKey (SessionEntry.currentRatchet sB') =
       Ratchet.rootKey (SessionEntry.currentRatchet sA')) /\
  @calculateRatchet Sample.primitives 20 [x42] true
    (Sample.session (-1) (Some 1)) =
    (Err (JsError "Overwrite attempt"), Sample.session (-1) (Some 1)).
Proof.
  split.
  - destruct (@calculateRatchet_agrees Sample.primitives 20 30
                sample_sender sample_receiver
                (take 32 ([x44; x45; x46] ++ Sample.zeros32))
                eq_refl eq_refl eq_refl eq_refl) as (Hfree & _).
    destruct Hfree
      as (sA' & sB' & cA & cB & HA & HB & HcA & HcB & _ & _ & Hck & _ &
          Hroot & _); [reflexivity | reflexivity |].
    exists sA', sB', cA, cB. auto 10.
  - destruct (@calculateRatchet_agrees Sample.primitives 20 30
                (Sample.session (-1) (Some 1)) (Sample.session (-1) (Some 1))
                (take 32 ([x42] ++ Sample.zeros32))
                eq_refl eq_refl eq_refl eq_refl) as (_ & Htaken & _).
    apply Htaken. eexists. reflexivity.
Defined.

Lemma maybeStepRatchet_steps_witness :
  (exists s',
     @maybeStepRatchet Sample.primitives 20
       {| pubKey := [x44]; privKey := Sample.zeros32 |} [x43] 0
       (Sample.session (-1) None) = (Ok tt, s') /\
     Ratchet.lastRemoteEphemeralKey (SessionEntry.currentRatchet s') = [x43] /\
     SessionEntry._chains s' !! [x42] = None) /\
  @maybeStepRatchet Sample.primitives 20
    {| pubKey := [x44]; privKey := Sample.zeros32 |}
    [xb6; x84; xad; xae; x29; xe0] 0 (Sample.session (-1) None) =
    (Ok tt, SessionEntry.set_lastAccessed 20 (Sample.session (-1) None)).
Proof.
  split.
  - destruct (@maybeStepRatchet Sample.primitives 20
                {| pubKey := [x44]; privKey := Sample.zeros32 |} [x43] 0
                (Sample.session (-1) None)) as [ro s'] eqn:Hrun.
    assert (ro = Ok tt) as ->.
    { apply (f_equal fst) in Hrun. vm_compute in Hrun. subst ro. reflexivity. }
    destruct (@maybeStepRatchet_steps Sample.primitives 20 30
                {| pubKey := [x44]; privKey := Sample.zeros32 |}
                {| pubKey := [x44]; privKey := Sample.zeros32 |} [x43] 0 0
                (Sample.session (-1) None) s' Hrun) as [_ Hstep].
    destruct Hstep as (_ & Hlast & _ & _ & Hsend & _);
      [reflexivity | apply (bool_decide_eq_false_1 _); reflexivity
      | discriminate |].
    exists s'. split; [reflexivity|]. split; [exact Hlast|].
    edestruct Hsend as [_ Hgone]; [reflexivity | discriminate |].
    apply Hgone. discriminate.
  - destruct (@maybeStepRatchet Sample.primitives 20
                {| pubKey := [x44]; privKey := Sample.zeros32 |}
                [xb6; x84; xad; xae; x29; xe0] 0
                (Sample.session (-1) None)) as [ro s'] eqn:Hrun.
    assert (ro = Ok tt) as ->.
    { apply (f_equal fst) in Hrun. vm_compute in Hrun. subst ro. reflexivity. }
    destruct (@maybeStepRatchet_steps Sample.primitives 20 30
                {| pubKey := [x44]; privKey := Sample.zeros32 |}
                {| pubKey := [x44]; privKey := Sample.zeros32 |}
                [xb6; x84; xad; xae; x29; xe0] 0 0
                (Sample.session (-1) None) s' Hrun) as [Hsame _].
    rewrite Hsame; [reflexivity|].
    right. apply (bool_decide_eq_true_1 _). reflexivity.
Defined.

End RatchetStep.

(** ** Clamping of private keys *)

Module Clamping.
Import Curve.

Lemma and_248_twice x : and_byte 248 (and_byte 248 x) = and_byte 248 x.
Proof. destruct x; reflexivity. Qed.

Lemma clamp_31_twice x :
  or_byte 64 (and_byte 127 (or_byte 64 (and_byte 127 x))) =
  or_byte 64 (and_byte 127 x).
Proof. destruct x; reflexivity. Qed.

Lemma and_248_low x : Z_of_byte (and_byte 248 x) mod 8 = 0.
Proof. destruct x; reflexivity. Qed.

Lemma clamp_31_range x :
  64 <= Z_of_byte (or_byte 64 (and_byte 127 x)) <= 127.
Proof. destruct x; vm_compute; split; discriminate. Qed.

Lemma clamp_alter (k : bytes) :
  clamp k =
  alter (fun x => or_byte 64 (and_byte 127 x)) 31%nat
    (alter (and_byte 248) 0%nat k).
Proof. unfold clamp. rewrite list_alter_alter_eq. reflexivity. Qed.

Lemma clamp_twice (k : bytes) : clamp (clamp k) = clamp k.
Proof.
  rewrite !clamp_alter.
  rewrite (list_alter_alter_ne _ _ _ 0%nat 31%nat) by discriminate.
  rewrite !list_alter_alter_eq.
  apply list_alter_ext.
  - intros x _. apply clamp_31_twice.
  - apply list_alter_ext; [|reflexivity]. intros x _. apply and_248_twice.
Qed.

Section WithNative.
Context `{Native}.

(** X20. Clamping a private key is idempotent and keeps its length; on a
    key of 32 bytes the lowest three bits of the first byte are cleared and
    the last byte lies between 64 and 127.  [keyPair] returns the clamped
    key as the private key, so the pair it returns for that private key is
    the same pair again, and [sharedSecret] gives the same secret for a key
    and for its clamped form. *)
Theorem clamp_idempotent (secret public : bytes) :
  clamp (clamp secret) = clamp secret /\
  length (clamp secret) = length secret /\
  (length secret = 32%nat ->
   exists first last,
     clamp secret !! 0%nat = Some first /\
     clamp secret !! 31%nat = Some last /\
     Z_of_byte first mod 8 = 0 /\ 64 <= Z_of_byte last <= 127) /\
  keyPair (privKey (keyPair secret)) = keyPair secret /\
  sharedSecret public (privKey (keyPair secret)) =
    sharedSecret public secret.
Proof.
  split; [apply clamp_twice|].
  split; [unfold clamp; rewrite !length_alter; reflexivity|].
  split.
  - intros Hlen. rewrite clamp_alter.
    destruct (lookup_lt_is_Some_2 secret 0%nat ltac:(lia)) as [b0 Hb0].
    destruct (lookup_lt_is_Some_2 secret 31%nat ltac:(lia)) as [b31 Hb31].
    exists (and_byte 248 b0), (or_byte 64 (and_byte 127 b31)).
    rewrite list_lookup_alter_ne by discriminate.
    rewrite !list_lookup_alter_eq.
    rewrite list_lookup_alter_ne by discriminate.
    rewrite Hb0, Hb31. cbn.
    split; [reflexivity|]. split; [reflexivity|].
    split; [apply and_248_low | apply clamp_31_range].
  - unfold keyPair, sharedSecret. cbn. rewrite clamp_twice. auto.
Qed.

End WithNative.

Lemma clamp_idempotent_witness :
  exists first last,
    clamp (repeat xff 32) !! 0%nat = Some first /\
    clamp (repeat xff 32) !! 31%nat = Some last /\
    Z_of_byte first mod 8 = 0 /\ 64 <= Z_of_byte last <= 127.
Proof.
  apply (@clamp_idempotent {| curve25519_donna := fun a _ => a |}
           (repeat xff 32) []).
  reflexivity.
Defined.

End Clamping.

(** ** Closing, opening and filing sessions *)

Module CloseOpen.
Import SessionRecord SessionRecordBatch Sessions.

Lemma addToBatch_base now op session r :
  fst (_addToBatch now op session r) = Ok tt /\
  sessions (base (snd (_addToBatch now op session r))) = sessions (base r) /\
  _openSessionCache (base (snd (_addToBatch now op session r))) =
    _openSessionCache (base r) /\
  _sortedSessionsCache (base (snd (_addToBatch now op session r))) =
    _sortedSessionsCache (base r).
Proof.
  cbv [_addToBatch _processBatchOperations bind modify get ret onBase bump
       set_batchOperations].
  cbn [fst snd base _batchOperations _batchSize].
  destruct (_ >=? _); [|auto].
  destruct (Nat.eqb _ _); auto.
Qed.

Lemma closed_session_eta (s : SessionEntry.t) c :
  IndexInfo.closed (SessionEntry.indexInfo s) = -1 ->
  SessionEntry.set_indexInfo (IndexInfo.set_closed (-1))
    (SessionEntry.set_indexInfo (IndexInfo.set_closed c) s) = s.
Proof.
  destruct s as [ch reg cr [bk bt cl us crt rik] pp la cc sv]. simpl.
  intros ->. reflexivity.
Qed.

Lemma closeSession_run now ref r s :
  lookup_session ref (sessions (base r)) = Some s ->
  isClosed s = false ->
  let s' := SessionEntry.set_indexInfo (IndexInfo.set_closed now) s in
  let r1 := snd (closeSession now ref r) in
  fst (closeSession now ref r) = Ok tt /\
  sessions (base r1) = update_session ref s' (sessions (base r)) /\
  _openSessionCache (base r1) = CacheNull /\
  _sortedSessionsCache (base r1) = None.
Proof.
  intros Hl Hopen s' r1. subst r1.
  pose proof (addToBatch_base now OpCloseSession ref) as Hb.
  unfold closeSession.
  cbv [bind onBase onSession get modify _invalidateCaches].
  cbn [fst snd base _batchOperations _batchSize].
  rewrite Hl. rewrite Hopen.
  cbn [fst snd base _batchOperations _batchSize sessions set_sessions].
  rewrite (update_id _ _ _ Hl), Hl.
  cbn [fst snd base _batchOperations _batchSize sessions set_sessions].
  match goal with |- context [_addToBatch _ _ _ ?x] =>
    destruct (Hb x) as (H1 & H2 & H3 & H4) end.
  rewrite H1, H2, H3, H4. simpl. rewrite (update_id _ _ _ Hl). auto.
Qed.

Lemma closeSession_closed now ref r s :
  lookup_session ref (sessions (base r)) = Some s ->
  isClosed s = true ->
  closeSession now ref r = (Ok tt, r).
Proof.
  intros Hl Hc. unfold closeSession.
  cbv [bind onBase onSession get ret].
  rewrite Hl, Hc. unfold set_sessions. rewrite (update_id _ _ _ Hl).
  destruct r as [[] ? ?]; reflexivity.
Qed.

Lemma openSession_run now ref r s :
  lookup_session ref (sessions (base r)) = Some s ->
  isClosed s = true ->
  let s' := SessionEntry.set_indexInfo (IndexInfo.set_closed (-1)) s in
  let r1 := snd (openSession now ref r) in
  fst (openSession now ref r) = Ok tt /\
  sessions (base r1) = update_session ref s' (sessions (base r)) /\
  _openSessionCache (base r1) = CacheNull /\
  _sortedSessionsCache (base r1) = None.
Proof.
  intros Hl Hopen s' r1. subst r1.
  pose proof (addToBatch_base now OpOpenSession ref) as Hb.
  unfold openSession.
  cbv [bind onBase onSession get modify _invalidateCaches].
  cbn [fst snd base _batchOperations _batchSize].
  rewrite Hl. rewrite Hopen.
  cbn [fst snd base _batchOperations _batchSize sessions set_sessions negb].
  rewrite (update_id _ _ _ Hl), Hl.
  cbn [fst snd base _batchOperations _batchSize sessions set_sessions].
  match goal with |- context [_addToBatch _ _ _ ?x] =>
    destruct (Hb x) as (H1 & H2 & H3 & H4) end.
  rewrite H1, H2, H3, H4. simpl. rewrite (update_id _ _ _ Hl). auto.
Qed.

(** X21. Closing an open session of the record writes the closing time into
    its [indexInfo.closed], leaves the other sessions alone and empties both
    caches, so that [getOpenSession] does not return the session any more.
    Closing it again, at whatever time, changes nothing: the first closing
    time stays.  [openSession] undoes the closing: the sessions of the
    record are what they were. *)
Theorem closeSession_then_openSession (r : t) (ref : string)
  (s : SessionEntry.t) (now now' : Z) :
  NoDup (map fst (sessions (base r))) ->
  lookup_session ref (sessions (base r)) = Some s ->
  isClosed s = false ->
  now <> -1 ->
  let r1 := snd (closeSession now ref r) in
  fst (closeSession now ref r) = Ok tt /\
  sessions (base r1) =
    update_session ref
      (SessionEntry.set_indexInfo (IndexInfo.set_closed now) s)
      (sessions (base r)) /\
  _openSessionCache (base r1) = CacheNull /\
  _sortedSessionsCache (base r1) = None /\
  fst (getOpenSession (base r1)) <> Ok (Some ref) /\
  closeSession now' ref r1 = (Ok tt, r1) /\
  fst (openSession now' ref r1) = Ok tt /\
  sessions (base (snd (openSession now' ref r1))) = sessions (base r).
Proof.
  intros Hnd Hl Hopen Hnow r1.
  destruct (closeSession_run now ref r s Hl Hopen) as (H1 & H2 & H3 & H4).
  fold r1 in H2, H3, H4.
  set (s' := SessionEntry.set_indexInfo (IndexInfo.set_closed now) s) in *.
  assert (lookup_session ref (sessions (base r1)) = Some s') as Hl'.
  { rewrite H2. apply (lookup_update_eq _ _ _ _ Hl). }
  assert (isClosed s' = true) as Hc'.
  { unfold isClosed. simpl. apply negb_true_iff, Z.eqb_neq. exact Hnow. }
  assert (NoDup (map fst (sessions (base r1)))) as Hnd'.
  { rewrite H2, update_keys. exact Hnd. }
  split; [exact H1|]. split; [exact H2|]. split; [exact H3|].
  split; [exact H4|].
  split.
  { intros Hget. apply (getOpenSession_open _ _ Hnd') in Hget as (x & Hx & Hxo).
    rewrite Hl' in Hx. injection Hx as <-. congruence. }
  split; [apply (closeSession_closed _ _ _ _ Hl' Hc')|].
  destruct (openSession_run now' ref r1 s' Hl' Hc') as (G1 & G2 & _).
  split; [exact G1|].
  rewrite G2, H2, update_update. unfold s'.
  rewrite closed_session_eta.
  - apply (update_id _ _ _ Hl).
  - unfold isClosed in Hopen. apply negb_false_iff, Z.eqb_eq in Hopen.
    exact Hopen.
Qed.

Lemma lookup_put_eq key s l : lookup_session key (put_session key s l) = Some s.
Proof.
  induction l as [|[k x] l IH]; simpl.
  - rewrite String.eqb_refl. reflexivity.
  - destruct (String.eqb k key) eqn:E; simpl; rewrite E; [reflexivity|exact IH].
Qed.

Lemma lookup_put_ne key s l k :
  k <> key -> lookup_session k (put_session key s l) = lookup_session k l.
Proof.
  intros Hne. induction l as [|[k0 x] l IH]; simpl.
  - destruct (String.eqb key k) eqn:E; [|reflexivity].
    apply String.eqb_eq in E. congruence.
  - destruct (String.eqb k0 key) eqn:E; simpl.
    + apply String.eqb_eq in E. subst k0.
      destruct (String.eqb key k) eqn:E'; [|reflexivity].
      apply String.eqb_eq in E'. congruence.
    + rewrite IH. reflexivity.
Qed.

Lemma put_keys key s l :
  map fst (put_session key s l) =
    match lookup_session key l with
    | Some _ => map fst l
    | None => map fst l ++ [key]
    end.
Proof.
  induction l as [|[k x] l IH]; simpl; [reflexivity|].
  destruct (String.eqb k key) eqn:E; simpl.
  - apply String.eqb_eq in E. subst. reflexivity.
  - rewrite IH. destruct (lookup_session key l); reflexivity.
Qed.

Lemma lookup_None_keys key (l : list (string * SessionEntry.t)) :
  lookup_session key l = None -> key ∉ map fst l.
Proof.
  induction l as [|[k x] l IH]; simpl; intros Hl Hin.
  - inversion Hin.
  - destruct (String.eqb k key) eqn:E; [discriminate|].
    apply String.eqb_neq in E.
    apply elem_of_cons in Hin as [->|Hin]; [congruence|].
    exact (IH Hl Hin).
Qed.

Lemma put_NoDup key s l :
  NoDup (map fst l) -> NoDup (map fst (put_session key s l)).
Proof.
  intros Hnd. rewrite put_keys.
  destruct (lookup_session key l) eqn:Hl; [exact Hnd|].
  apply NoDup_app. split; [exact Hnd|].
  split; [|apply NoDup_singleton].
  intros x Hx Hx'. apply list_elem_of_singleton in Hx'. subst x.
  exact (lookup_None_keys _ _ Hl Hx).
Qed.

Lemma find_put_open key s l :
  isClosed s = false ->
  (forall e, e ∈ l -> isClosed (snd e) = true) ->
  find (fun p => negb (isClosed (snd p))) (put_session key s l) =
    Some (key, s).
Proof.
  intros Hopen. induction l as [|[k x] l IH]; simpl; intros Hall.
  - rewrite Hopen. reflexivity.
  - destruct (String.eqb k key) eqn:E; simpl.
    + apply String.eqb_eq in E. subst k. rewrite Hopen. reflexivity.
    + pose proof (Hall (k, x) ltac:(apply list_elem_of_here)) as Hk.
      simpl in Hk. rewrite Hk. simpl.
      apply IH. intros e He. apply Hall. apply list_elem_of_further, He.
Qed.

Section WithBase64.
Context `{Base64}.

Lemma setSession_run now s r :
  let key := toString_base64 (IndexInfo.baseKey (SessionEntry.indexInfo s)) in
  let r1 := snd (setSession now s r) in
  fst (setSession now s r) = Ok tt /\
  sessions (base r1) = put_session key s (sessions (base r)) /\
  _openSessionCache (base r1) = CacheNull /\
  _sortedSessionsCache (base r1) = None.
Proof.
  intros key r1. subst r1.
  pose proof (addToBatch_base now OpSetSession key) as Hb.
  unfold setSession. fold key.
  cbv [bind onBase modify _invalidateCaches].
  cbn [fst snd base _batchOperations _batchSize].
  match goal with |- context [_addToBatch _ _ _ ?x] =>
    destruct (Hb x) as (H1 & H2 & H3 & H4) end.
  rewrite H1, H2, H3, H4. simpl. auto.
Qed.

(** X22. [setSession] files a session under the base64 text of its base
    key: the session is then the one found under that key, the sessions
    under other keys are untouched, and the record has one session more
    exactly when the key was new.  [getSession] with the base key returns that
    session when its base key is theirs and throws when it is ours.  The
    caches are emptied, so an open session filed into a record whose
    sessions are all closed is what [getOpenSession] returns next. *)
Theorem setSession_then_getSession (r : t) (s : SessionEntry.t) (now : Z) :
  let key := toString_base64 (IndexInfo.baseKey (SessionEntry.indexInfo s)) in
  let r1 := snd (setSession now s r) in
  fst (setSession now s r) = Ok tt /\
  lookup_session key (sessions (base r1)) = Some s /\
  (forall k, k <> key ->
     lookup_session k (sessions (base r1)) =
     lookup_session k (sessions (base r))) /\
  length (sessions (base r1)) =
    match lookup_session key (sessions (base r)) with
    | Some _ => length (sessions (base r))
    | None => S (length (sessions (base r)))
    end /\
  (NoDup (map fst (sessions (base r))) ->
   NoDup (map fst (sessions (base r1)))) /\
  fst (getSession (IndexInfo.baseKey (SessionEntry.indexInfo s)) (base r1)) =
    match IndexInfo.baseKeyType (SessionEntry.indexInfo s) with
    | OURS => Err (JsError "Tried to lookup a session using our basekey")
    | THEIRS => Ok (Some key)
    end /\
  (isClosed s = false ->
   (forall e, e ∈ sessions (base r) -> isClosed (snd e) = true) ->
   fst (getOpenSession (base r1)) = Ok (Some key)).
Proof.
  intros key r1.
  destruct (setSession_run now s r) as (H1 & H2 & H3 & H4).
  fold key in H2. fold r1 in H2, H3, H4.
  split; [exact H1|].
  split; [rewrite H2; apply lookup_put_eq|].
  split; [intros k Hk; rewrite H2; apply lookup_put_ne, Hk|].
  split.
  { rewrite H2. rewrite <- (length_map fst (put_session _ _ _)), put_keys.
    destruct (lookup_session key (sessions (base r)));
      [|rewrite length_app, Nat.add_comm]; rewrite length_map; reflexivity. }
  split; [intros Hnd; rewrite H2; apply put_NoDup, Hnd|].
  split.
  - unfold getSession, bind, get. fold key. cbn [fst].
    rewrite H2, lookup_put_eq.
    destruct (IndexInfo.baseKeyType _); reflexivity.
  - intros Hopen Hall.
    unfold getOpenSession, bind, get, cached_open_session.
    rewrite H3, H2, (find_put_open _ _ _ Hopen Hall). reflexivity.
Qed.

End WithBase64.

Lemma addToBatch_queue now op session r :
  queue_below r ->
  queue_below (snd (_addToBatch now op session r)) /\
  queue_total (snd (_addToBatch now op session r)) = queue_total r + 1.
Proof.
  unfold queue_below, queue_total.
  cbv [_addToBatch _processBatchOperations bind modify get ret onBase bump
       set_batchOperations].
  cbn [fst snd base _batchOperations _batchSize].
  intros Hlt. rewrite length_app. cbn [length].
  destruct (_ >=? _) eqn:Hge.
  - destruct (Nat.eqb _ _) eqn:E.
    + apply Nat.eqb_eq in E. cbn [_batchOperations] in E.
      rewrite length_app in E. cbn [length] in E. lia.
    + cbn [fst snd base _batchOperations _batchSize length
           _performanceMetrics set_performanceMetrics batchOperations
           add_batchOperations].
      rewrite length_app. cbn [length]. lia.
  - rewrite Z.geb_leb in Hge. apply Z.leb_gt in Hge.
    cbn [fst snd base _batchOperations _batchSize].
    rewrite length_app. cbn [length]. lia.
Qed.

Section WithBase64.
Context `{Base64}.

(** X23. The batch queue stays below the batch size: when it was below
    before [setSession], [closeSession] or [openSession], it is below
    afterwards.  No operation is lost from the count: the queue length and
    the [batchOperations] metric together grow by one with every
    [setSession], with every [closeSession] of an open session and with
    every [openSession] of a closed one, and stay as they are when
    [closeSession] or [openSession] has nothing to do. *)
Theorem batch_queue_bounded (r : t) (now : Z) (s : SessionEntry.t)
  (ref : string) :
  queue_below r ->
  let changes (closing : bool) : Z :=
    match lookup_session ref (sessions (base r)) with
    | Some x => if Bool.eqb (isClosed x) closing then 0 else 1
    | None => 0
    end in
  (queue_below (snd (setSession now s r)) /\
   queue_total (snd (setSession now s r)) = queue_total r + 1) /\
  (queue_below (snd (closeSession now ref r)) /\
   queue_total (snd (closeSession now ref r)) = queue_total r + changes true) /\
  (queue_below (snd (openSession now ref r)) /\
   queue_total (snd (openSession now ref r)) = queue_total r + changes false).
Proof.
  intros Hq changes. subst changes. cbv beta.
  split; [|split].
  - unfold setSession.
    cbv [bind onBase modify _invalidateCaches].
    cbn [fst snd base _batchOperations _batchSize].
    match goal with |- context [_addToBatch _ _ _ ?x] =>
      destruct (addToBatch_queue now OpSetSession
                  (toString_base64
                     (IndexInfo.baseKey (SessionEntry.indexInfo s))) x Hq)
        as [G1 G2] end.
    split; [exact G1|]. rewrite G2. reflexivity.
  - destruct (lookup_session ref (sessions (base r))) as [x|] eqn:Hl.
    + destruct (isClosed x) eqn:Hc.
      * rewrite (closeSession_closed _ _ _ _ Hl Hc). simpl.
        split; [exact Hq | lia].
      * unfold closeSession.
        cbv [bind onBase onSession get modify _invalidateCaches].
        cbn [fst snd base _batchOperations _batchSize].
        rewrite Hl, Hc.
        cbn [fst snd base _batchOperations _batchSize sessions set_sessions].
        rewrite (update_id _ _ _ Hl), Hl.
        cbn [fst snd base _batchOperations _batchSize sessions set_sessions].
        match goal with |- context [_addToBatch _ _ _ ?x] =>
          destruct (addToBatch_queue now OpCloseSession ref x Hq)
            as [G1 G2] end.
        split; [exact G1|]. rewrite G2. reflexivity.
    + unfold closeSession. cbv [bind onBase onSession get].
      rewrite Hl. simpl. split; [exact Hq|].
      unfold queue_total. simpl. lia.
  - destruct (lookup_session ref (sessions (base r))) as [x|] eqn:Hl.
    + destruct (isClosed x) eqn:Hc.
      * unfold openSession.
        cbv [bind onBase onSession get modify _invalidateCaches].
        cbn [fst snd base _batchOperations _batchSize].
        rewrite Hl, Hc.
        cbn [fst snd base _batchOperations _batchSize sessions set_sessions
             negb].
        rewrite (update_id _ _ _ Hl), Hl.
        cbn [fst snd base _batchOperations _batchSize sessions set_sessions].
        match goal with |- context [_addToBatch _ _ _ ?x] =>
          destruct (addToBatch_queue now OpOpenSession ref x Hq)
            as [G1 G2] end.
        split; [exact G1|]. rewrite G2. reflexivity.
      * unfold openSession. cbv [bind onBase onSession get ret].
        rewrite Hl, Hc. unfold set_sessions. rewrite (update_id _ _ _ Hl).
        simpl. split; [exact Hq|]. unfold queue_total. simpl.
        destruct r as [[] ? ?]; simpl; lia.
    + unfold openSession. cbv [bind onBase onSession get].
      rewrite Hl. simpl. split; [exact Hq|].
      unfold queue_total. simpl. lia.
Qed.

End WithBase64.

Lemma closeSession_then_openSession_witness :
  let r := Sample.batched [("s0", Sample.session (-1) (Some 1))] in
  let r1 := snd (closeSession 5 "s0" r) in
  closeSession 7 "s0" r1 = (Ok tt, r1) /\
  sessions (base (snd (openSession 7 "s0" r1))) = sessions (base r).
Proof.
  intros r r1.
  assert (NoDup (map fst (sessions (base r)))) as Hnd
    by (apply NoDup_singleton).
  destruct (closeSession_then_openSession r "s0"
              (Sample.session (-1) (Some 1)) 5 7 Hnd eq_refl eq_refl
              ltac:(discriminate))
    as (_ & _ & _ & _ & _ & Hagain & _ & Hback).
  split; [exact Hagain | exact Hback].
Defined.

Lemma setSession_then_getSession_witness :
  let r := Sample.batched [("s0", Sample.session 3 (Some 1))] in
  let s := Sample.session (-1) (Some 1) in
  NoDup (map fst (sessions (base (snd (@setSession Sample.base64 5 s r))))) /\
  fst (getOpenSession (base (snd (@setSession Sample.base64 5 s r)))) =
    Ok (Some (Sample.text [x01])).
Proof.
  intros r s.
  destruct (@setSession_then_getSession Sample.base64 r s 5)
    as (_ & _ & _ & _ & Hnd & _ & Hopen).
  split.
  - apply Hnd. apply NoDup_singleton.
  - apply Hopen; [reflexivity|].
    intros e He. apply list_elem_of_singleton in He. subst e. reflexivity.
Defined.

Lemma batch_queue_bounded_witness :
  let r := Sample.batched [("s0", Sample.session (-1) (Some 1))] in
  queue_below (snd (closeSession 5 "s0" r)) /\
  queue_total (snd (closeSession 5 "s0" r)) = 1.
Proof.
  intros r.
  assert (queue_below r) as Hq by (unfold queue_below; simpl; lia).
  destruct (@batch_queue_bounded Sample.base64 r 5
              (Sample.session (-1) (Some 1)) "s0" Hq)
    as (_ & [Hb Ht] & _).
  split; [exact Hb | exact Ht].
Defined.

End CloseOpen.

(** ** hasOpenSession and closeOpenSession *)

Module CloseOpenSession.
Import SessionRecord SessionRecordBatch Sessions SessionCipher CipherSessions.

Lemma removeOldSessions_rest now (r : SessionRecord.t) :
  NoDup (map fst (sessions r)) ->
  let r' := snd (removeOldSessions now r) in
  NoDup (map fst (sessions r')) /\
  (forall e, e ∈ sessions r' -> e ∈ sessions r) /\
  (_openSessionCache r = CacheNull -> _openSessionCache r' = CacheNull).
Proof.
  intros Hnd r'. subst r'.
  unfold removeOldSessions, bind, get, ret, modify, _invalidateCaches.
  destruct (_ <? _); [simpl; auto|].
  destruct (RemoveOldSessions.cleanup_loop_removes (length (sessions r))
              {| cl_sessions := sessions r; sessionEntries := sessions r;
                 removedCount := 0; deleted := [] |} eq_refl)
    as (d & Hrem & Hsame & _).
  fold (run_cleanup (sessions r)) in Hrem, Hsame. simpl in Hrem.
  rewrite <- Hsame in Hrem.
  destruct (RemoveOldSessions.removes_spec _ _ _ Hnd Hrem)
    as (_ & _ & Hrest & _ & Hnd').
  destruct (_ >? 0); simpl.
  - split; [exact Hnd'|]. split; [|reflexivity].
    intros e He. apply Hrest in He. tauto.
  - split; [exact Hnd'|]. split; [|auto].
    intros e He. apply Hrest in He. tauto.
Qed.

(** X24. [closeOpenSession] on a record with at most one open session
    leaves no open session behind.  The session that [getOpenSession] finds
    gets the time of the call as its closing time, the record is handed to
    [storage.storeSession], and the call settles as [storeSession] does:
    it returns normally when that resolves.  When no session is open the
    call returns normally, nothing is stored and the sessions stay as they
    are.  [hasOpenSession] answers false afterwards, when [getRecord] hands
    it the record that the call left. *)
Theorem closeOpenSession_closes (st : Storage) (w : state)
  (r : SessionRecord.t) (now : Z) :
  served st now (cipher w) = Some r ->
  NoDup (map fst (sessions r)) ->
  at_most_one_open (sessions r) ->
  now <> -1 ->
  let w' := snd (closeOpenSession st now w) in
  (exists r',
     _cachedRecord (cipher w') = Some r' /\
     (forall e, e ∈ sessions r' -> isClosed (snd e) = true) /\
     match fst (getOpenSession r) with
     | Ok (Some ref) =>
       fst (closeOpenSession st now w) = storeSession st r' /\
       storeSession_log (cipher w') = r' :: storeSession_log (cipher w) /\
       (forall e, e ∈ sessions r' ->
          e ∈ sessions r \/ (fst e = ref /\ closed_of e = now))
     | _ =>
       fst (closeOpenSession st now w) = Ok tt /\
       storeSession_log (cipher w') = storeSession_log (cipher w) /\
       sessions r' = sessions r
     end) /\
  (forall st' now',
     served st' now' (cipher w') = _cachedRecord (cipher w') ->
     fst (hasOpenSession st' now' (cipher w')) = Ok false).
Proof.
  intros Hserved Hnd Hone Hnow w'. subst w'.
  destruct (closeOpenSession st now w) as [res w'] eqn:Hrun. cbn [fst snd].
  revert Hrun. unfold closeOpenSession.
  unfold bind at 1. unfold onCipher at 1.
  destruct (Encrypt.getRecord_served st now (cipher w) r Hserved)
    as (c1 & -> & Hrec & _ & _ & _ & _ & _ & _ & Hlog1).
  rewrite <- Hlog1. clear Hlog1 Hserved.
  unfold bind at 1. unfold onCipher at 1. unfold onRecord at 1.
  cbn [cipher]. rewrite Hrec.
  destruct (getOpenSession r) as [o rg] eqn:Hget.
  pose proof (getOpenSession_sessions r) as Hsame. rewrite Hget in Hsame.
  simpl in Hsame.
  assert (exists o', o = Ok o') as [o' ->].
  { revert Hget. unfold getOpenSession, bind, get, ret, modify.
    destruct (cached_open_session r); [intros [= <- _]; eauto|].
    destruct (find _ _) as [[]|]; intros [= <- _]; eauto. }
  cbn [fst snd].
  assert (forall c r' st' now',
            _cachedRecord c = Some r' ->
            served st' now' c = Some r' ->
            fst (haveOpenSession r') = Ok false ->
            fst (hasOpenSession st' now' c) = Ok false) as Hhas.
  { intros c r' st' now' Hc Hs Hh.
    unfold hasOpenSession, bind.
    destruct (Encrypt.getRecord_served st' now' c r' Hs)
      as (c2 & -> & Hc2 & _).
    unfold onRecord. rewrite Hc2.
    destruct (haveOpenSession r') as [x r'']. cbn [fst] in *. exact Hh. }
  destruct o' as [ref|].
  - destruct (getOpenSession_open r ref Hnd) as (s & Hl & Hopen).
    { rewrite Hget. reflexivity. }
    unfold bind at 1. unfold onBatchedRecord at 1.
    cbn [cipher _cachedRecord set_cachedRecord queue queueSize].
    set (b := {| base := rg; _batchOperations := queue w;
                 _batchSize := queueSize w |}).
    assert (lookup_session ref (sessions (base b)) = Some s) as Hlb.
    { simpl. rewrite Hsame. exact Hl. }
    destruct (CloseOpen.closeSession_run now ref b s Hlb Hopen)
      as (H1 & H2 & H3 & _).
    destruct (closeSession now ref b) as [x b1]. cbn [fst snd] in H1, H2, H3.
    subst x. cbn [fst snd].
    unfold storeRecord, onCipher, bind, onRecord, get, modify, lift_result.
    cbn [cipher _cachedRecord set_cachedRecord queue queueSize].
    destruct (TrialDecryption.removeOldSessions_returns now (base b1))
      as [n Hn].
    assert (NoDup (map fst (sessions (base b1)))) as Hnd1.
    { rewrite H2, update_keys. simpl. rewrite Hsame. exact Hnd. }
    destruct (removeOldSessions_rest now (base b1) Hnd1) as (Hnd2 & Hsub & Hc).
    specialize (Hc H3).
    destruct (removeOldSessions now (base b1)) as [x r'].
    cbn [fst snd] in Hn, Hnd2, Hsub, Hc. subst x.
    cbn [fst snd cipher _cachedRecord set_cachedRecord storeSession_log
         log_storeSession].
    assert (forall e, e ∈ sessions r' ->
              (e ∈ sessions r /\ fst e <> ref) \/
              (fst e = ref /\ closed_of e = now)) as Hin.
    { intros e He. apply Hsub in He. rewrite H2 in He.
      apply update_elem in He; [|simpl; rewrite Hsame; exact Hnd].
      destruct He as [->|[He Hne]].
      - right. split; reflexivity.
      - left. simpl in He. rewrite Hsame in He. split; assumption. }
    assert (forall e, e ∈ sessions r' -> isClosed (snd e) = true) as Hall.
    { intros e He. destruct (Hin e He) as [[He' Hne]|[_ Hc']].
      - destruct (isClosed (snd e)) eqn:E; [reflexivity|]. exfalso.
        apply Hne.
        pose proof (Hone e (ref, s) He'
                      (lookup_session_In _ _ _ Hl) E Hopen) as ->.
        reflexivity.
      - unfold isClosed. unfold closed_of in Hc'. rewrite Hc'.
        apply negb_true_iff, Z.eqb_neq. exact Hnow. }
    assert (fst (haveOpenSession r') = Ok false) as Hnone.
    { pose proof (HaveOpenSession.haveOpenSession_uncached r' Hnd2 Hc) as Hh.
      rewrite Hh.
      destruct (find _ (sessions r')) as [[k y]|] eqn:Hf; [|reflexivity].
      apply find_some in Hf as [Hf1 Hf2]. apply list_elem_of_In in Hf1.
      apply Hall in Hf1. simpl in Hf1, Hf2. rewrite Hf1 in Hf2.
      discriminate. }
    destruct (storeSession st r') as [[]|e] eqn:Hst; intros [= <- <-];
      cbn [fst snd cipher _cachedRecord set_cachedRecord storeSession_log
           log_storeSession set_lastRecordUpdate].
    all: split;
      [exists r'; rewrite Hst; split; [reflexivity|]; split; [exact Hall|];
       split; [reflexivity|]; split; [reflexivity|];
       intros e0 He; destruct (Hin e0 He) as [[He' _]|Hr]; auto
      |intros st' now' Hs;
       eapply Hhas; [|exact Hs|]; [reflexivity | exact Hnone]].
  - unfold ret. intros [= <- <-].
    cbn [fst snd cipher _cachedRecord set_cachedRecord storeSession_log].
    assert (forall e, e ∈ sessions rg -> isClosed (snd e) = true) as Hall.
    { rewrite Hsame. revert Hget.
      unfold getOpenSession, bind, get, ret, modify.
      destruct (cached_open_session r); [discriminate|].
      destruct (find _ _) as [[]|] eqn:Hf; [discriminate|].
      intros _. apply SessionLookup.find_open_none. exact Hf. }
    assert (_openSessionCache rg = CacheFalse) as Hcf.
    { revert Hget. unfold getOpenSession, bind, get, ret, modify.
      destruct (cached_open_session r); [discriminate|].
      destruct (find _ _) as [[]|] eqn:Hf; [discriminate|].
      intros [= <-]. reflexivity. }
    split.
    { exists rg. split; [reflexivity|]. split; [exact Hall|].
      split; [reflexivity|]. split; [reflexivity | exact Hsame]. }
    intros st' now' Hs. eapply Hhas; [|exact Hs|]; [reflexivity|].
    unfold haveOpenSession, bump, bind, modify, get, ret. simpl.
    rewrite Hcf. reflexivity.
Qed.

Lemma closeOpenSession_closes_witness :
  let w := {| cipher := Sample.cipher None; queue := []; queueSize := 10 |} in
  let st :=
    Sample.storage_with
      (Ok (LoadedRecord
             (Sample.record [("s0", Sample.session (-1) (Some 1))])))
      (Ok tt) in
  let w' := snd (closeOpenSession st 5 w) in
  fst (closeOpenSession st 5 w) = Ok tt /\
  length (storeSession_log (cipher w')) = 1%nat /\
  fst (hasOpenSession st 900 (cipher w')) = Ok false.
Proof.
  intros w st w'.
  assert (at_most_one_open [("s0", Sample.session (-1) (Some 1))]) as Hone.
  { intros x y Hx Hy _ _. apply list_elem_of_singleton in Hx, Hy.
    congruence. }
  destruct (closeOpenSession_closes st w
              (Sample.record [("s0", Sample.session (-1) (Some 1))]) 5
              eq_refl (NoDup_singleton _) Hone ltac:(discriminate))
    as ((r' & Hr' & _ & Hok & Hlog & _) & Hhas).
  fold w' in Hr', Hlog, Hhas.
  split; [exact Hok|]. split; [rewrite Hlog; reflexivity|].
  apply Hhas. unfold served, cache_hit. rewrite Hr'.
  assert (_lastRecordUpdate (cipher w') = 5) as -> by (vm_compute; reflexivity).
  reflexivity.
Defined.

End CloseOpenSession.

(** ** Serialization of a session entry *)

Module EntryRoundTrip.
Import SessionEntry SessionEntrySerialize.

Section WithBase64.
Context `{Base64}.

Lemma fmap_round_trip {K} `{Countable K} (m : gmap K bytes) :
  Buffer_from_base64 <$> (toString_base64 <$> m) = m.
Proof.
  apply map_eq. intros i. rewrite !lookup_fmap.
  destruct (m !! i); simpl; [rewrite base64_round_trip|]; reflexivity.
Qed.

Lemma deserialize_serialize_chain (c : Chain.t) :
  ChainKey.key (Chain.chainKey c) <> Some [] ->
  deserialize_chain (serialize_chain c) = Some c.
Proof.
  destruct c as [[n k] ty mk]. simpl. intros Hk.
  unfold deserialize_chain, serialize_chain. simpl.
  destruct k as [k|]; simpl.
  - destruct (toString_base64 k) eqn:E.
    + apply base64_empty in E. congruence.
    + rewrite <- E, base64_round_trip, fmap_round_trip. reflexivity.
  - rewrite fmap_round_trip. reflexivity.
Qed.

Lemma deserialize_serialize_chains (chains : gmap bytes Chain.t) :
  (forall k c, chains !! k = Some c ->
     ChainKey.key (Chain.chainKey c) <> Some []) ->
  _deserialize_chains (_serialize_chains chains) = Some chains.
Proof.
  intros Hk. unfold _deserialize_chains, _serialize_chains.
  destruct (decide _) as [_|Hno].
  - f_equal. apply map_eq. intros i. rewrite lookup_omap, lookup_fmap.
    destruct (chains !! i) as [c|] eqn:E; simpl; [|reflexivity].
    apply deserialize_serialize_chain. exact (Hk _ _ E).
  - exfalso. apply Hno. intros i c. rewrite lookup_fmap.
    destruct (chains !! i) as [c'|] eqn:E; simpl; [|discriminate].
    intros [= <-]. rewrite deserialize_serialize_chain; [eauto|].
    exact (Hk _ _ E).
Qed.

Lemma deserialize_empty_key (chains : gmap bytes Chain.t) k c :
  chains !! k = Some c ->
  ChainKey.key (Chain.chainKey c) = Some [] ->
  _deserialize_chains (_serialize_chains chains) = None.
Proof.
  intros Hc Hk. unfold _deserialize_chains, _serialize_chains.
  destruct (decide _) as [Hall|_]; [|reflexivity].
  exfalso.
  assert ((serialize_chain <$> chains) !! k = Some (serialize_chain c)) as Hs.
  { rewrite lookup_fmap, Hc. reflexivity. }
  destruct (Hall _ _ Hs) as [x Hx]. revert Hx.
  unfold deserialize_chain, serialize_chain. simpl. rewrite Hk. simpl.
  rewrite (proj2 (base64_empty []) eq_refl). discriminate.
Qed.

(** What [deserialize] makes of the data of an entry. *)
Lemma deserialize_serialize_data (s : SessionEntry.t) (now : Z) :
  keys_not_empty s ->
  deserialize now (serialize_data s) =
    Some (set_chainCount
            (fun n => or_else n (Z.of_nat (size (_chains s))))
            (set_lastAccessed (or_else (_lastAccessed s) now) s)).
Proof.
  intros Hk.
  unfold deserialize. cbn [serialize_data Serialized.Entry._chains].
  rewrite (deserialize_serialize_chains _ Hk).
  destruct s as [ch reg [[pk sk] lr pc rk] [bk bt cl us cr rik] pp la cc sv].
  cbn. rewrite !base64_round_trip.
  unfold set_chainCount, set_lastAccessed. cbn.
  f_equal. f_equal.
  - destruct pp as [[b si pi]|]; cbn; [rewrite base64_round_trip|];
      reflexivity.
  - unfold or_else. destruct (sv =? 0) eqn:E; [|reflexivity].
    apply Z.eqb_eq in E. congruence.
Qed.

Lemma deserialize_serialize_same (s : SessionEntry.t) (now : Z) :
  keys_not_empty s ->
  _lastAccessed s <> 0 ->
  (_chainCount s = 0 -> _chains s = ∅) ->
  deserialize now (serialize_data s) = Some s.
Proof.
  intros Hk Hla Hcc. rewrite (deserialize_serialize_data _ _ Hk). f_equal.
  destruct s as [ch reg cr ii pp la cc sv].
  unfold set_chainCount, set_lastAccessed, or_else. cbn in *.
  destruct (la =? 0) eqn:E1; [apply Z.eqb_eq in E1; congruence|].
  destruct (cc =? 0) eqn:E2; [|reflexivity].
  apply Z.eqb_eq in E2. rewrite (Hcc E2), E2. reflexivity.
Qed.

(** X25. Reading back what [serialize] wrote gives the session entry
    again: with the cache empty, [serialize] returns the data of the entry
    and keeps it as the cache, and [deserialize] of that data is the entry,
    except that an access time of 0 is replaced by the time of reading and
    a chain count of 0 by the number of chains.  This needs every chain key
    to be absent or a buffer that is not empty: an empty chain key is
    written as the empty text, which [deserialize] keeps as a text and not
    as a buffer. *)
Theorem deserialize_serialize (s : SessionEntry.t) (now : Z) :
  let c := {| entry := s; _serializedCache := None |} in
  let data := serialize_data s in
  serialize c = (Ok data, {| entry := s; _serializedCache := Some data |}) /\
  (keys_not_empty s ->
   deserialize now data =
     Some (set_chainCount
             (fun n => or_else n (Z.of_nat (size (_chains s))))
             (set_lastAccessed (or_else (_lastAccessed s) now) s)) /\
   (_lastAccessed s <> 0 ->
    (_chainCount s = 0 -> _chains s = ∅) ->
    deserialize now data = Some s)) /\
  (forall k c,
     _chains s !! k = Some c ->
     ChainKey.key (Chain.chainKey c) = Some [] ->
     deserialize now data = None).
Proof.
  intros c data. split; [reflexivity|]. split.
  - intros Hk. split; [apply deserialize_serialize_data, Hk|].
    intros Hla Hcc. apply deserialize_serialize_same; assumption.
  - intros k c0 Hc0 Hk0. unfold deserialize, data.
    cbn [serialize_data Serialized.Entry._chains].
    rewrite (deserialize_empty_key _ _ _ Hc0 Hk0). reflexivity.
Qed.

Lemma onEntry_run {A} (m : M SessionEntry.t A) c :
  onEntry m c =
    (fst (m (entry c)),
     {| entry := snd (m (entry c));
        _serializedCache := _serializedCache c |}).
Proof. unfold onEntry. destruct (m (entry c)); reflexivity. Qed.

(** X26. [serialize] answers from its cache until [addChain] or
    [deleteChain] succeeds.  Once it has been called, whatever is written
    to the fields of the entry without them (a chain key that advances, a
    closing time: the version counter stays), the next call returns the
    data of the first call, which reads back as the entry before those
    writes.  After an [addChain] or a [deleteChain] that did not throw, the
    next call returns the data of the entry as it then is. *)
Theorem serialize_cache (s : SessionEntry.t) (now : Z) :
  let c1 := snd (serialize {| entry := s; _serializedCache := None |}) in
  (forall A (m : M SessionEntry.t A),
     _serializationVersion (snd (m s)) = _serializationVersion s ->
     let c2 := snd (onEntry m c1) in
     entry c2 = snd (m s) /\
     fst (serialize c2) = Ok (serialize_data s) /\
     (keys_not_empty s -> _lastAccessed s <> 0 ->
      (_chainCount s = 0 -> _chains s = ∅) ->
      deserialize now (serialize_data s) = Some s)) /\
  (forall A (m : M SessionEntry.t A) key value,
     let c2 := snd (onEntry m c1) in
     let c3 := snd (addChain now key value c2) in
     fst (addChain now key value c2) = Ok tt ->
     fst (serialize c3) = Ok (serialize_data (entry c3)) /\
     _chains (entry c3) = <[key := value]> (_chains (snd (m s)))) /\
  (forall A (m : M SessionEntry.t A) key,
     let c2 := snd (onEntry m c1) in
     let c3 := snd (deleteChain now key c2) in
     fst (deleteChain now key c2) = Ok tt ->
     fst (serialize c3) = Ok (serialize_data (entry c3)) /\
     _chains (entry c3) = delete key (_chains (snd (m s)))).
Proof.
  intros c1.
  change c1 with {| entry := s; _serializedCache := Some (serialize_data s) |}.
  clear c1.
  split; [|split].
  - intros A m _ c2. subst c2. unfold onEntry. cbn [entry _serializedCache].
    destruct (m s) as [a s']. cbn.
    split; [reflexivity|]. split; [reflexivity|].
    intros Hk Hla Hcc. apply deserialize_serialize_same; assumption.
  - intros A m key value c2 c3. subst c3 c2.
    rewrite onEntry_run. cbn [entry _serializedCache snd].
    generalize (snd (m s)). intros s'.
    unfold addChain, SessionEntry.addChain, bind, onEntry, get, modify,
      throw, SessionEntry._invalidateCache.
    cbn [entry _serializedCache].
    destruct (_chains s' !! key); cbn; [discriminate|].
    intros _. split; reflexivity.
  - intros A m key c2 c3. subst c3 c2.
    rewrite onEntry_run. cbn [entry _serializedCache snd].
    generalize (snd (m s)). intros s'.
    unfold deleteChain, SessionEntry.deleteChain, bind, onEntry, get, modify,
      throw, SessionEntry._invalidateCache.
    cbn [entry _serializedCache].
    destruct (_chains s' !! key); cbn; [|discriminate].
    intros _. split; reflexivity.
Qed.

End WithBase64.

Lemma sample_keys_not_empty c r : keys_not_empty (Sample.session c r).
Proof.
  intros k ch Hk. simpl in Hk.
  apply lookup_insert_Some in Hk as [[_ <-]|[_ Hk]]; [discriminate|].
  apply lookup_insert_Some in Hk as [[_ <-]|[_ Hk]]; [discriminate|].
  rewrite lookup_empty in Hk. discriminate.
Qed.

Lemma deserialize_serialize_witness :
  @SessionEntrySerialize.deserialize Sample.base64 99
    (@serialize_data Sample.base64 (Sample.session (-1) (Some 1))) =
  Some (Sample.session (-1) (Some 1)).
Proof.
  destruct (@deserialize_serialize Sample.base64
              (Sample.session (-1) (Some 1)) 99) as (_ & Hback & _).
  apply Hback.
  - apply sample_keys_not_empty.
  - discriminate.
  - discriminate.
Defined.

Lemma serialize_cache_witness :
  let s := Sample.session (-1) (Some 1) in
  let c1 := snd (@SessionEntrySerialize.serialize Sample.base64
                   {| entry := s; _serializedCache := None |}) in
  let close := modify (SessionEntry.set_indexInfo (IndexInfo.set_closed 5)) in
  let c2 := snd (onEntry close c1) in
  IndexInfo.closed (SessionEntry.indexInfo (entry c2)) = 5 /\
  fst (@SessionEntrySerialize.serialize Sample.base64 c2) = Ok (@serialize_data Sample.base64 s) /\
  @SessionEntrySerialize.deserialize Sample.base64 99 (@serialize_data Sample.base64 s) = Some s.
Proof.
  intros s c1 close c2.
  destruct (@serialize_cache Sample.base64 s 99) as (Hstale & _ & _).
  destruct (Hstale unit close eq_refl) as (Hentry & Hser & Hback).
  split; [|split].
  - fold c1 c2 in Hentry. rewrite Hentry. reflexivity.
  - exact Hser.
  - apply Hback.
    + apply sample_keys_not_empty.
    + discriminate.
    + discriminate.
Defined.

End EntryRoundTrip.

(** ** Serialization of a record *)

Module RecordRoundTrip.
Import SessionRecord SessionRecordBatch SessionEntrySerialize
  SessionRecordSerialize EntryRoundTrip.

Lemma put_session_new key s (l : list (string * SessionEntry.t)) :
  key ∉ map fst l -> put_session key s l = l ++ [(key, s)].
Proof.
  induction l as [|[k x] l IH]; simpl; intros Hk; [reflexivity|].
  destruct (String.eqb k key) eqn:E.
  - apply String.eqb_eq in E. subst k. exfalso. apply Hk, list_elem_of_here.
  - rewrite IH; [reflexivity|]. intros Hin. apply Hk.
    apply list_elem_of_further, Hin.
Qed.

Section WithBase64.
Context `{Base64}.

Lemma serialize_entries_fresh (l : list (string * SessionEntry.t)) :
  forall caches,
    NoDup (map fst l) ->
    (forall e, e ∈ l -> caches !! fst e = None) ->
    fst (serialize_entries l caches) =
      map (fun p => (fst p, serialize_data (snd p))) l.
Proof.
  induction l as [|[k s] l IH]; intros caches Hnd Hc; simpl; [reflexivity|].
  pose proof (Hc (k, s) ltac:(apply list_elem_of_here)) as Hk. simpl in Hk.
  rewrite Hk. cbn.
  apply NoDup_cons in Hnd as [Hnk Hnd].
  specialize (IH (<[k := serialize_data s]> caches) Hnd).
  destruct (serialize_entries l _) as [rest c']. cbn in *.
  rewrite IH; [reflexivity|].
  intros e He. rewrite lookup_insert_ne.
  - apply Hc. apply list_elem_of_further, He.
  - intros ->. apply Hnk. apply list_elem_of_fmap. exists e. auto.
Qed.

Lemma deserialize_entries_round now (l : list (string * SessionEntry.t)) :
  forall acc,
    NoDup (map fst (acc ++ l)) ->
    (forall e, e ∈ l -> reads_back (snd e)) ->
    deserialize_entries now
      (map (fun p => (fst p, serialize_data (snd p))) l) acc =
      Some (acc ++ l).
Proof.
  induction l as [|[k s] l IH]; intros acc Hnd Hall; simpl.
  - rewrite app_nil_r. reflexivity.
  - destruct (Hall (k, s) ltac:(apply list_elem_of_here)) as (H1 & H2 & H3).
    simpl in H1, H2, H3.
    rewrite (deserialize_serialize_same s now H1 H2 H3).
    rewrite put_session_new.
    + rewrite IH.
      * rewrite <- app_assoc. reflexivity.
      * rewrite <- app_assoc. exact Hnd.
      * intros e He. apply Hall. apply list_elem_of_further, He.
    + rewrite map_app in Hnd. apply NoDup_app in Hnd as (_ & Hd & _).
      intros Hin. apply (Hd k Hin). simpl. apply list_elem_of_here.
Qed.

(** X27. A record that is written by [serialize] and read by
    [deserialize] has its sessions again, under the same keys and in the
    same order, in a record that is otherwise new.  [serialize] first
    flushes the batch queue and does not change the sessions.  This holds
    when no session has a cache yet and every session is one that reads
    back as it was written. *)
Theorem record_deserialize_serialize (r : SessionRecordSerialize.t)
  (now : Z) :
  version (base (record r)) = SESSION_RECORD_VERSION ->
  NoDup (map fst (sessions (base (record r)))) ->
  (forall e, e ∈ sessions (base (record r)) ->
     caches r !! fst e = None /\ reads_back (snd e)) ->
  exists data,
    fst (serialize r) = Ok data /\
    sessions (base (record (snd (serialize r)))) =
      sessions (base (record r)) /\
    _batchOperations (record (snd (serialize r))) = [] /\
    deserialize now data =
      Ok (Some {| base := set_sessions (fun _ => sessions (base (record r)))
                            (SessionRecord.new_SessionRecord now);
                  _batchOperations := []; _batchSize := 10 |}).
Proof.
  intros Hv Hnd Hall.
  unfold serialize, bind, onRecord, get, modify, ret.
  assert (exists b,
            _processBatchOperations (record r) = (Ok tt, b) /\
            sessions (base b) = sessions (base (record r)) /\
            version (base b) = version (base (record r)) /\
            _batchOperations b = []) as (b & Hb & Hs & Hvb & Hq).
  { unfold _processBatchOperations, bind, get, ret, onBase, bump, modify,
      set_batchOperations.
    destruct (_batchOperations (record r)) eqn:E; simpl.
    - exists (record r). auto.
    - eexists. split; [reflexivity|]. simpl. auto. }
  rewrite Hb. cbn [record caches].
  pose proof (serialize_entries_fresh (sessions (base b)) (caches r)) as Hf.
  rewrite Hs in Hf. specialize (Hf Hnd (fun e He => proj1 (Hall e He))).
  rewrite Hs.
  destruct (serialize_entries (sessions (base (record r))) (caches r))
    as [out c'].
  cbn [fst snd record caches] in *. subst out.
  eexists. split; [reflexivity|]. split; [exact Hs|]. split; [exact Hq|].
  unfold deserialize. cbn [Serialized.Record.version
                             Serialized.Record._sessions].
  rewrite Hvb, Hv. rewrite bool_decide_eq_true_2 by reflexivity.
  cbn [Serialized.Record._sessions].
  rewrite (deserialize_entries_round now _ [] Hnd
             (fun e He => proj2 (Hall e He))).
  reflexivity.
Qed.

Lemma deserialize_registrationId now e s :
  SessionEntrySerialize.deserialize now e = Some s ->
  SessionEntry.registrationId s = Serialized.Entry.registrationId e.
Proof.
  unfold SessionEntrySerialize.deserialize.
  destruct (_deserialize_chains _); [|discriminate].
  intros [= <-]. reflexivity.
Qed.

Lemma deserialize_entries_inv now (l : list (string * Serialized.Entry.t)) :
  forall acc ss,
    NoDup (map fst acc ++ map fst l) ->
    deserialize_entries now l acc = Some ss ->
    exists l',
      ss = acc ++ l' /\
      Forall2 (fun p q =>
                 fst p = fst q /\
                 SessionEntrySerialize.deserialize now (snd p) = Some (snd q))
              l l'.
Proof.
  induction l as [|[k e] l IH]; intros acc ss Hnd; simpl.
  - intros [= <-]. exists []. rewrite app_nil_r. split; constructor.
  - destruct (SessionEntrySerialize.deserialize now e) as [s|] eqn:E;
      [|discriminate].
    intros Hrun.
    assert (k ∉ map fst acc) as Hk.
    { apply NoDup_app in Hnd as (_ & Hd & _). intros Hin.
      apply (Hd k Hin). apply list_elem_of_here. }
    rewrite (put_session_new _ _ _ Hk) in Hrun.
    apply IH in Hrun as (l' & -> & Hf).
    + exists ((k, s) :: l'). rewrite <- app_assoc. split; [reflexivity|].
      constructor; [split; [reflexivity | exact E] | exact Hf].
    + rewrite map_app. simpl. rewrite <- app_assoc. exact Hnd.
Qed.

Lemma Forall2_keys now (l : list (string * Serialized.Entry.t))
  (l' : list (string * SessionEntry.t)) :
  Forall2 (fun p q =>
             fst p = fst q /\
             SessionEntrySerialize.deserialize now (snd p) = Some (snd q))
          l l' ->
  map fst l' = map fst l /\
  forall k e, (k, e) ∈ l ->
    exists s, (k, s) ∈ l' /\ SessionEntrySerialize.deserialize now e = Some s.
Proof.
  induction 1 as [|[k e] [k' s] l l' [Hk Hd] _ [IH1 IH2]]; simpl in *.
  - split; [reflexivity|]. intros k e Hin. inversion Hin.
  - subst k'. split; [rewrite IH1; reflexivity|].
    intros k0 e0 Hin. apply elem_of_cons in Hin as [[= -> ->]|Hin].
    + exists s. split; [apply list_elem_of_here | exact Hd].
    + destruct (IH2 _ _ Hin) as (s0 & Hs0 & Hd0).
      exists s0. split; [apply list_elem_of_further, Hs0 | exact Hd0].
Qed.

(** X28. What [deserialize] does with the version of the stored data.  A
    version other than the current one makes it throw.  Data without a
    version is migrated first: when the data has a registration id, every
    session without one gets it, and the sessions that have one keep
    theirs.  Data of the current version is read as it is. *)
Theorem deserialize_migrates (now : Z) (data : Serialized.Record.t) :
  (forall v,
     Serialized.Record.version data = Some v ->
     v <> SESSION_RECORD_VERSION ->
     deserialize now data = Err (JsError "Error migrating SessionRecord")) /\
  (forall l r2,
     Serialized.Record.version data = None \/
     Serialized.Record.version data = Some SESSION_RECORD_VERSION ->
     Serialized.Record._sessions data = Some l ->
     NoDup (map fst l) ->
     deserialize now data = Ok (Some r2) ->
     map fst (sessions (base r2)) = map fst l /\
     forall k e, (k, e) ∈ l ->
       exists s,
         lookup_session k (sessions (base r2)) = Some s /\
         SessionEntry.registrationId s =
           if bool_decide (Serialized.Record.version data = None) &&
              truthy (Serialized.Record.registrationId data) &&
              negb (truthy (Serialized.Entry.registrationId e))
           then Serialized.Record.registrationId data
           else Serialized.Entry.registrationId e).
Proof.
  split.
  - intros v Hv Hne. unfold deserialize, migrate. rewrite Hv.
    rewrite bool_decide_eq_false_2 by congruence.
    simpl. rewrite Hv. unfold SESSION_RECORD_VERSION in Hne.
    rewrite bool_decide_eq_false_2 by congruence.
    reflexivity.
  - intros l r2 Hv Hl Hnd.
    set (f := fun p : string * Serialized.Entry.t =>
                if truthy (Serialized.Entry.registrationId (snd p)) then p
                else (fst p,
                      set_registrationId
                        (Serialized.Record.registrationId data) (snd p))).
    set (l2 := if bool_decide (Serialized.Record.version data = None) &&
                  truthy (Serialized.Record.registrationId data)
               then map f l else l).
    assert (map fst l2 = map fst l) as Hkeys.
    { unfold l2. destruct (_ && _); [|reflexivity].
      rewrite map_map. apply map_ext. intros p. unfold f.
      destruct (truthy _); reflexivity. }
    intros Hrun.
    assert (deserialize_entries now l2 [] = Some (sessions (base r2)))
      as Hent.
    { revert Hrun. unfold deserialize, migrate, l2.
      destruct Hv as [Hv|Hv]; rewrite Hv.
      - rewrite bool_decide_eq_false_2 by congruence.
        rewrite bool_decide_eq_true_2 by reflexivity.
        simpl. unfold migrateV1.
        destruct (truthy (Serialized.Record.registrationId data)); simpl;
          rewrite Hl; simpl.
        + fold f. destruct (deserialize_entries now (map f l) []);
            [|discriminate]. intros [= <-]. reflexivity.
        + destruct (deserialize_entries now l []); [|discriminate].
          intros [= <-]. reflexivity.
      - rewrite bool_decide_eq_true_2 by reflexivity.
        rewrite bool_decide_eq_false_2 by congruence.
        rewrite Hl. simpl.
        destruct (deserialize_entries now l []); [|discriminate].
        intros [= <-]. reflexivity. }
    apply deserialize_entries_inv in Hent as (l' & Hss & Hf);
      [|simpl; rewrite Hkeys; exact Hnd].
    simpl in Hss.
    destruct (Forall2_keys _ _ _ Hf) as [Hk' Hin'].
    rewrite Hss. split; [rewrite Hk', Hkeys; reflexivity|].
    intros k e Hin.
    assert (exists e2,
              (k, e2) ∈ l2 /\
              Serialized.Entry.registrationId e2 =
                if bool_decide (Serialized.Record.version data = None) &&
                   truthy (Serialized.Record.registrationId data) &&
                   negb (truthy (Serialized.Entry.registrationId e))
                then Serialized.Record.registrationId data
                else Serialized.Entry.registrationId e) as (e2 & Hin2 & Hreg).
    { unfold l2. destruct (_ && _) eqn:Hm; simpl.
      - destruct (truthy (Serialized.Entry.registrationId e)) eqn:Ht; simpl.
        + exists e. split; [|reflexivity].
          apply list_elem_of_fmap. exists (k, e). split; [|exact Hin].
          unfold f. simpl. rewrite Ht. reflexivity.
        + exists (set_registrationId
                    (Serialized.Record.registrationId data) e).
          split; [|reflexivity].
          apply list_elem_of_fmap. exists (k, e). split; [|exact Hin].
          unfold f. simpl. rewrite Ht. reflexivity.
      - exists e. split; [exact Hin | reflexivity]. }
    destruct (Hin' _ _ Hin2) as (s & Hs & Hd).
    exists s. split.
    + apply HaveOpenSession.lookup_session_elem; [|exact Hs].
      rewrite Hk', Hkeys. exact Hnd.
    + rewrite (deserialize_registrationId _ _ _ Hd). exact Hreg.
Qed.

End WithBase64.

Lemma record_deserialize_serialize_witness :
  let r := {| record := Sample.batched
                          [("s0", Sample.session (-1) (Some 1))];
              caches := ∅ |} in
  exists data,
    fst (@serialize Sample.base64 r) = Ok data /\
    sessions (base (record (snd (@serialize Sample.base64 r)))) =
      sessions (base (record r)) /\
    _batchOperations (record (snd (@serialize Sample.base64 r))) = [] /\
    @deserialize Sample.base64 99 data =
      Ok (Some {| base := set_sessions (fun _ => sessions (base (record r)))
                            (SessionRecord.new_SessionRecord 99);
                  _batchOperations := []; _batchSize := 10 |}).
Proof.
  intros r.
  apply (@record_deserialize_serialize Sample.base64 r 99).
  - reflexivity.
  - apply NoDup_singleton.
  - intros e He. apply list_elem_of_singleton in He. subst e.
    split; [reflexivity|].
    split; [apply sample_keys_not_empty|].
    split; discriminate.
Defined.

Lemma deserialize_migrates_witness :
  exists r2 s,
    @deserialize Sample.base64 99 Sample.legacy_data = Ok (Some r2) /\
    lookup_session "s0" (sessions (base r2)) = Some s /\
    SessionEntry.registrationId s = Some 7.
Proof.
  destruct (@deserialize Sample.base64 99 Sample.legacy_data) as [[r2|]|] eqn:Hrun.
  2,3: exfalso; vm_compute in Hrun; discriminate Hrun.
  destruct (@deserialize_migrates Sample.base64 99 Sample.legacy_data) as [_ Hm].
  destruct (Hm _ r2 (or_introl eq_refl) eq_refl (NoDup_singleton _) Hrun)
    as [_ Hreg].
  destruct (Hreg "s0" _ ltac:(apply list_elem_of_here)) as (s & Hs & Hr).
  exists r2, s. split; [reflexivity|]. split; [exact Hs | exact Hr].
Defined.

End RecordRoundTrip.
